(** * minRLNProver: incremental Merkle tree, group, identity and proof assembly

    A shallow embedding of [dist/index.js] (the bundle of
    [@zk-kit/incremental-merkle-tree], [@semaphore-protocol/group],
    [@semaphore-protocol/identity], [poseidon-lite] and the prover of this
    repository), with the properties of its specification stated and proved
    over the embedded functions. *)

From Stdlib Require Import ZArith List String Ascii Bool Lia ZifyNat.
From stdpp Require Import base tactics option list numbers.
Import ListNotations.

Local Open Scope string_scope.
Local Open Scope list_scope.
Local Open Scope Z_scope.

(** ** JavaScript values, exceptions and arrays *)

Module JS.

(** The exceptions the bundle throws, with their messages. *)
Inductive exn : Type :=
| TypeError (msg : string)
| RangeError (msg : string)
| SyntaxError (msg : string)
| Error (msg : string).

(** A computation either throws or returns. *)
Definition result (A : Type) : Type := (exn + A)%type.

Definition Ok {A : Type} (a : A) : result A := inr a.
Definition throw {A : Type} (e : exn) : result A := inl e.

Definition bind {A B : Type} (m : result A) (k : A -> result B) : result B :=
  match m with
  | inl e => inl e
  | inr a => k a
  end.

Definition returns {A : Type} (m : result A) : bool :=
  match m with inl _ => false | inr _ => true end.

Definition throws {A : Type} (m : result A) : bool := negb (returns m).

(** The scalar values that flow through the tree: the TypeScript type
    [Node] of the tree is [any]; the code only ever tests for [undefined],
    [number], [string] and [bigint].  A [number] is modelled by its integer
    value (fractions, NaN and the infinities are not represented). *)
Inductive Node : Type :=
| Undefined
| Num (n : Z)
| Str (s : string)
| Big (z : Z).

Inductive jstype : Type :=
| TUndefined | TNumber | TString | TBigint | TObject | TFunction.

Definition jstype_name (t : jstype) : string :=
  match t with
  | TUndefined => "undefined"
  | TNumber => "number"
  | TString => "string"
  | TBigint => "bigint"
  | TObject => "object"
  | TFunction => "function"
  end.

Definition jstype_eqb (a b : jstype) : bool :=
  match a, b with
  | TUndefined, TUndefined | TNumber, TNumber | TString, TString
  | TBigint, TBigint | TObject, TObject | TFunction, TFunction => true
  | _, _ => false
  end.

Definition typeof (v : Node) : jstype :=
  match v with
  | Undefined => TUndefined
  | Num _ => TNumber
  | Str _ => TString
  | Big _ => TBigint
  end.

(** [a === b] on scalars: same type and same value. *)
Definition strict_eq (a b : Node) : bool :=
  match a, b with
  | Undefined, Undefined => true
  | Num x, Num y => Z.eqb x y
  | Str x, Str y => String.eqb x y
  | Big x, Big y => Z.eqb x y
  | _, _ => false
  end.

(** [a ?? b]. *)
Definition nullish (a b : Node) : Node :=
  match a with
  | Undefined => b
  | _ => a
  end.

(** [arr[i]]: reading past the end of an array gives [undefined]. *)
Definition array_get (arr : list Node) (i : nat) : Node :=
  match arr !! i with
  | Some v => v
  | None => Undefined
  end.

(** [arr[i] = v]: an index inside the array overwrites, the index
    [arr.length] appends, a larger one leaves holes, which read as
    [undefined]. *)
Definition array_set (arr : list Node) (i : nat) (v : Node) : list Node :=
  if (i <? length arr)%nat then <[i := v]> arr
  else arr ++ replicate (i - length arr) Undefined ++ [v].

(** [arr.indexOf(x)]: first index holding a value strictly equal to [x],
    or [-1]. *)
Fixpoint array_indexOf_from (arr : list Node) (x : Node) (i : Z) : Z :=
  match arr with
  | [] => -1
  | y :: rest => if strict_eq y x then i else array_indexOf_from rest x (i + 1)
  end.

Definition array_indexOf (arr : list Node) (x : Node) : Z :=
  array_indexOf_from arr x 0.

(** [children.splice(start, 0, node)] with the relative index clamped as
    ECMAScript does. *)
Definition splice_insert (children : list Node) (start : Z) (node : Node) : list Node :=
  let len := Z.of_nat (length children) in
  let actualStart := if start <? 0 then Z.max (len + start) 0 else Z.min start len in
  take (Z.to_nat actualStart) children ++ node :: drop (Z.to_nat actualStart) children.

(** *** Strings of digits *)

Definition digit_value (c : ascii) : option Z :=
  let n := Z.of_nat (nat_of_ascii c) in
  if (48 <=? n) && (n <=? 57) then Some (n - 48)
  else if (97 <=? n) && (n <=? 122) then Some (n - 87)
  else if (65 <=? n) && (n <=? 90) then Some (n - 55)
  else None.

(** Reads [s] as a numeral in [radix]; [None] on a character that is not
    a digit of that radix. The empty string reads as [acc]. *)
Fixpoint parse_digits (radix : Z) (s : string) (acc : Z) : option Z :=
  match s with
  | EmptyString => Some acc
  | String c rest =>
      match digit_value c with
      | Some d => if d <? radix then parse_digits radix rest (acc * radix + d) else None
      | None => None
      end
  end.

Definition parse_nonempty_digits (radix : Z) (s : string) : option Z :=
  match s with
  | EmptyString => None
  | _ => parse_digits radix s 0
  end.

(** A string is the sequence of the UTF-8 bytes of the JavaScript
    string.  The white space and the line terminators of ECMAScript that
    take one byte: U+0009 to U+000D and U+0020. *)
Definition is_white (c : ascii) : bool :=
  let n := nat_of_ascii c in
  ((9 <=? n) && (n <=? 13))%nat || (n =? 32)%nat.

(** The one of two bytes: U+00A0. *)
Definition is_white2 (a b : ascii) : bool :=
  ((nat_of_ascii a =? 194) && (nat_of_ascii b =? 160))%nat.

(** Those of three bytes: U+1680, U+2000 to U+200A, U+2028, U+2029,
    U+202F, U+205F, U+3000 and U+FEFF. *)
Definition is_white3 (a b c : ascii) : bool :=
  let x := nat_of_ascii a in
  let y := nat_of_ascii b in
  let z := nat_of_ascii c in
  ((x =? 225) && (y =? 154) && (z =? 128)
   || (x =? 226) && (y =? 128)
      && ((128 <=? z) && (z <=? 138) || (z =? 168) || (z =? 169) || (z =? 175))
   || (x =? 226) && (y =? 129) && (z =? 159)
   || (x =? 227) && (y =? 128) && (z =? 128)
   || (x =? 239) && (y =? 187) && (z =? 191))%nat.

Fixpoint trim_start (s : string) : string :=
  match s with
  | String a rest =>
      if is_white a then trim_start rest
      else
        match rest with
        | String b rest' =>
            if is_white2 a b then trim_start rest'
            else
              match rest' with
              | String c rest'' => if is_white3 a b c then trim_start rest'' else s
              | EmptyString => s
              end
        | EmptyString => s
        end
  | EmptyString => EmptyString
  end.

(** The same from the end, on the string read backwards. *)
Fixpoint trim_start_backwards (s : string) : string :=
  match s with
  | String a rest =>
      if is_white a then trim_start_backwards rest
      else
        match rest with
        | String b rest' =>
            if is_white2 b a then trim_start_backwards rest'
            else
              match rest' with
              | String c rest'' =>
                  if is_white3 c b a then trim_start_backwards rest'' else s
              | EmptyString => s
              end
        | EmptyString => s
        end
  | EmptyString => EmptyString
  end.

Fixpoint string_rev_onto (s acc : string) : string :=
  match s with
  | EmptyString => acc
  | String c rest => string_rev_onto rest (String c acc)
  end.

Definition string_rev (s : string) : string := string_rev_onto s EmptyString.

Definition trim (s : string) : string :=
  string_rev (trim_start_backwards (string_rev (trim_start s))).

(** [StringToBigInt]: surrounding white space is dropped; the empty
    string is [0n]; [0x], [0o] and [0b] prefixes take no sign; otherwise a
    signed decimal numeral. *)
Definition StringToBigInt (s : string) : option Z :=
  match trim s with
  | EmptyString => Some 0
  | String "0" (String "x" rest) | String "0" (String "X" rest) => parse_nonempty_digits 16 rest
  | String "0" (String "o" rest) | String "0" (String "O" rest) => parse_nonempty_digits 8 rest
  | String "0" (String "b" rest) | String "0" (String "B" rest) => parse_nonempty_digits 2 rest
  | String "-" rest => option_map Z.opp (parse_nonempty_digits 10 rest)
  | String "+" rest => parse_nonempty_digits 10 rest
  | t => parse_nonempty_digits 10 t
  end.

(** [BigInt(v)]. *)
Definition BigInt (v : Node) : result Z :=
  match v with
  | Undefined => throw (TypeError "Cannot convert undefined to a BigInt")
  | Num n => Ok n
  | Str s =>
      match StringToBigInt s with
      | Some z => Ok z
      | None => throw (SyntaxError ("Cannot convert " ++ s ++ " to a BigInt")%string)
      end
  | Big z => Ok z
  end.

(** [arr.map(BigInt)], stopping at the first element that throws. *)
Fixpoint map_BigInt (arr : list Node) : result (list Z) :=
  match arr with
  | [] => Ok []
  | v :: rest =>
      bind (BigInt v) (fun z =>
      bind (map_BigInt rest) (fun zs => Ok (z :: zs)))
  end.

(** [z.toString(16)] on a bigint. *)
Definition hex_char (d : Z) : ascii :=
  ascii_of_nat (Z.to_nat (if d <? 10 then 48 + d else 87 + d)).

Fixpoint hex_of_pos (fuel : nat) (z : Z) (acc : string) : string :=
  match fuel with
  | O => acc
  | S fuel' =>
      let acc' := String (hex_char (z mod 16)) acc in
      if z / 16 =? 0 then acc' else hex_of_pos fuel' (z / 16) acc'
  end.

Definition toString16 (z : Z) : string :=
  if z <? 0 then String "-" (hex_of_pos (S (Z.to_nat (Z.log2 (- z)))) (- z) EmptyString)
  else hex_of_pos (S (Z.to_nat (Z.log2 z))) z EmptyString.

(** [z.toString()]. *)
Fixpoint dec_of_pos (fuel : nat) (z : Z) (acc : string) : string :=
  match fuel with
  | O => acc
  | S fuel' =>
      let acc' := String (hex_char (z mod 10)) acc in
      if z / 10 =? 0 then acc' else dec_of_pos fuel' (z / 10) acc'
  end.

Definition toString10 (z : Z) : string :=
  if z <? 0 then String "-" (dec_of_pos (S (Z.to_nat (Z.log2 (- z)))) (- z) EmptyString)
  else dec_of_pos (S (Z.to_nat (Z.log2 z))) z EmptyString.

End JS.

Export JS.

Declare Scope js_scope.
Delimit Scope js_scope with js.
Notation "'let*' x ':=' e 'in' k" := (bind e (fun x => k))
  (at level 10, x pattern, e at level 200, k at level 200) : js_scope.
Local Open Scope js_scope.

(** ** poseidon-lite *)

Module Poseidon.

(** [atob]: the constants of the bundle are base64 text. *)
Definition base64_value (c : ascii) : option Z :=
  let n := Z.of_nat (nat_of_ascii c) in
  if (65 <=? n) && (n <=? 90) then Some (n - 65)
  else if (97 <=? n) && (n <=? 122) then Some (n - 71)
  else if (48 <=? n) && (n <=? 57) then Some (n + 4)
  else if n =? 43 then Some 62
  else if n =? 47 then Some 63
  else None.

(** The sextets of the text up to the padding, and their number. *)
Fixpoint base64_bits (s : string) (acc : Z) (count : Z) : Z * Z :=
  match s with
  | EmptyString => (acc, count)
  | String c rest =>
      match base64_value c with
      | Some v => base64_bits rest (acc * 64 + v) (count + 1)
      | None => (acc, count)
      end
  end.

(** [unstringifyBigInts] on one string: the decoded bytes read as a
    big-endian integer. The bits a partial last group leaves over are
    dropped, as [atob] does. *)
Definition unstringifyBigInts (o : string) : Z :=
  let '(acc, count) := base64_bits o 0 0 in
  Z.shiftr acc ((6 * count) mod 8).

Definition F : Z :=
  21888242871839275222246405745257275088548364400416034343698204186575808495617.
Definition N_ROUNDS_F : Z := 8.
Definition N_ROUNDS_P : list Z :=
  [56; 57; 56; 60; 60; 63; 64; 63; 60; 66; 60; 65; 70; 60; 64; 68].

(** The [%] of bigints truncates towards zero. *)
Definition pow5 (v : Z) : Z :=
  let o := v * v in
  Z.rem (v * o * o) F.

Definition mix (state : list Z) (M : list (list Z)) : list Z :=
  map (fun x =>
         let o := fold_left (fun o y => o + nth y (nth x M []) 0 * nth y state 0)
                            (seq 0 (length state)) 0 in
         Z.rem o F)
      (seq 0 (length state)).

Record constants : Type := { C : list Z; M : list (list Z) }.

Definition round (t : Z) (nRoundsP : Z) (opt : constants) (state : list Z) (x : Z) : list Z :=
  let state' :=
    imap (fun y s =>
            let s := s + nth (Z.to_nat (x * t + Z.of_nat y)) (C opt) 0 in
            if (x <? N_ROUNDS_F / 2) || (N_ROUNDS_F / 2 + nRoundsP <=? x) then pow5 s
            else if (y =? 0)%nat then pow5 s
            else s)
         state in
  mix state' (M opt).

Definition poseidon (_inputs : list Node) (opt : constants) : result Z :=
  let* inputs := map_BigInt _inputs in
  if (length inputs <=? 0)%nat then throw (Error "poseidon-lite: Not enough inputs")
  else if (length N_ROUNDS_P <? length inputs)%nat then throw (Error "poseidon-lite: Too many inputs")
  else
    let t := Z.of_nat (length inputs) + 1 in
    let nRoundsP := nth (Z.to_nat (t - 2)) N_ROUNDS_P 0 in
    if negb (Z.of_nat (length (M opt)) =? t) then
      throw (Error ("poseidon-lite: Incorrect M length, expected " ++ toString10 t
                    ++ " got " ++ toString10 (Z.of_nat (length (M opt))))%string)
    else
      let state := 0 :: inputs in
      let rounds := map Z.of_nat (seq 0 (Z.to_nat (N_ROUNDS_F + nRoundsP))) in
      Ok (nth 0 (fold_left (round t nRoundsP opt) rounds state) 0).

Definition C_1 : list string :=
  ["CcRunsaOm9T+H6q6KUy6OKcaoXdTTN0bbH3A29Cr16c="; "DANWUwiW7sQql+2TfzE1z8UUKzrkBbg0PB2D/6YEy4E=";
   "Hiih2TVpitEULlEYK7VM9KAOpaq9Ymi9MX6pd8wVSjA="; "J68tgxqdJ0gICWXbMOKY5A5XV8PgCNuWTPnisSuRJR8=";
   "Hm8RzmD8j1E6ajz+Fq4XWkEpFGLyFM0Iear0NUW3TgM="; "Kmc4TTu9XkOFQYGctoHwvgRGLtFMNhPY9xkgYmjRQtM=";
   "C2b981YJOmEWCfjhL7/s8LmF44HwJRiJNkCPXVyfRdA="; "AS7j7B541HCDDGEJPCreNwsmyDzFzr7t2qaFLb2wniE=";
   "AlK6X2dgv739iPZ/gXXj/WzRxDGwmba7LRCOe0Rbsbk="; "F5R0zOyl/2dsa+w871QpY1Q5Gok1/3HW71rqrXypMvE=";
   "LCQmE3mlG/qSKP9KUD/U7Zwfl0omSWmzfholibvtK5E="; "HMHXtiaS5j6sLyiL0GlbQ8L2P1AB/A/FU+ZsBVGAGwU=";
   "JVBZMBqtqYuy7VX4UpeelgB4Tb8X+6zQXZ7/X9nJG1Y="; "KEN746wcsuR54fXA7M0ys66iQjSXCoGTsRwpzn5Z79k=";
   "KCFqRC8uH3EcpPprU3ZusRhUjaj7T3jUM4diw39fIEM="; "LB9HzRf6Wt8fOfTnBW3QP+7h784DCUWBEx8jdzI0gsk=";
   "B6utArel68SGMrzJNWzrfdna/KJ2Y4pjZGuFZqYhr8k="; "AjAmRgH/3yknWzP/qrUd/pQp+QiAppzRN9oMTRX5bDw=";
   "G8lzBU5R2QWg8WhlZJfKQKhkQUVX7iiecX5dZomaoKk="; "Lhwi+WRDUAggbDFX6GNB7dJJr/XC2EIfKmsiKI8KZ/w=";
   "EiTzjfZ8U3gSHB1fRhu8UJ6OoVmORsn3pwRSvCu6hrg="; "AuTmnYulnlGSgLS9ntAGj9e/6M2d/toZadKYkYbN4g4=";
   "Hx7Mw0qroBN/XfgfwE/z7k8Z7jZOZT8HbUfpc12YAY4="; "FnKtPXCaNTl0JmwwOamnMRQkRIAyzRgZ6suKTUKE9YI=";
   "KD4/3CxuQgxW9Er1GStK6c2mlh8oTSSZHS7WAt+Mj8c="; "HCo9EgxVDs/Q2wlXFw+gE2g3Ufj9/1nWYU+9af85S8w=";
   "IW+Eh3qsYXL3iXpzI0Vu/hQ6mkN3PqbylstrgXdlP70="; "LA0nK+zyp1dkun6OPijRK86qR+phylmkEaH1FVL5R4g=";
   "FuNCmYZcDihITuenTEVOnxcKVICr4FCPy0psPYlUb0M="; "F1zrpZnpb1s3WiMqb7nMcXcgR3ZYAikPSM2Tl1VIj8U=";
   "DHWURA3EjBb+rZ4XWLAoBmqkEL+8NU9U2MX/u0Sh7jI="; "GjwpvDnyG7XEZtt9frb9j3YOIAE8z5EskkeYgtkZ/Y0=";
   "DM/dkG80JuXAmG6gSbJTQAhV00kHT1pmlcjuq80i5o8="; "FPa8gdnxhvYr20dc5slBGGanqKP9Bls84OaZtn3Z55Y=";
   "CWK4J4n7PRKXAspwsvbFqswJmBDJxJXIiO3rc4a5cFI="; "GogK9wdNGLO/IMed4lEnvBMoSrAe8CV1r+8Mj2oxqG0=";
   "EMuhhBmmozLNXnfwIRwVSyCvKST8IP8/TDASu3rpMRs="; "BX5iqaj4mz69x2umOp6sqPontzGcrjQGdWooSfMC8Q0=";
   "KHyXHekdwKvUSt9ThLSYjLlhMDu/Zc/1r6BBO0QoDO4="; "Id8ziK8Wh7uzvKnaDMqQjx5WK8RtSrpOb395YOMGiR0=";
   "G+XIh9JbznA+JcyXTQk0zXid+PcLSY/YPv+LVg4WgrM="; "Jo2jb3blaPtoEXF1zqLNDdLLXUL9pazqSNWcJwag1cE=";
   "DherCR9urlDGCb6vVRDs7MXYu3QTXr0FvQZGDMJqXtY="; "BNcn5yj/oKZ67lNasHSkMJHvYtjPg9JwBA9cqh9ir0A=";
   "DdvXv5wpNBWBtUl2K8Ai7TNwKsEPG/2GKxVBfX45ym4="; "J5DrM1FiF1J2gWLoKYnGwjT1sNHTr5tYiinEnIeJZUs=";
   "HkV8YBpjtz5EcZUBk9ilcDlfPZq4sv0JhLdkIGFC+ek="; "Ia5kMB3KliVjjWqyu+cTX/qQ7NDEP/kfxMaG/EbgkbA=";
   "A3n2PIzjRo1NopMWb0lJKIVL6eNDLglVWFhTTu2NNQs="; "AC1WQgNZ0CZqdEoICAngVMoOSSGkZoasjJ9YoyTDUEk=";
   "EjFY5ZZbXZsdaLPNMuELvtqNYkWeIfQJD8LFr5Y1FaY="; "C+KfxAhHqUFmHRS79svgQg+7K29Sg21OYMgOtJytnsE=";
   "Gslpkd7CuwVXcWFCAVpFPDbbnYWcrV+aIzgC8k/fTBo="; "FZZEP3Y9vMJfSWT8YdI7Pl4SyfqX8YqSUcozVbywYn4=";
   "EuC802VL36drKGHU7Drq4PGFfZ8X5xWu1tBJ6uO6MhI="; "D8krTxu+qCuepz1K+a8qUM6rrH83FUsZBObHbHz5ZLo=";
   "H5wLFhBEZELW8uWSqAE/QLFPfHciI29PnH6WUjOHJ2I="; "Dr10JErnJnX4zeBhV6eC9AUNkU2ji0wFjRWfZD279NM=";
   "LLfw7Tnhbp9pqfr9SrlRwDsGcelzRu45eoOYOdzPxtE="; "Gp1uLs/wIsxWBUQ+5BurIM52HQUUzlJmkMcrynNS2b8=";
   "KhFUOWB/M1peqDw7xEqTMdDBMyapp7owh9oYLWSOxy8="; "I/m2UptdBA0VuPp67j40EOc4tWMFzUTylTXBFcWkwGA=";
   "BYcsFtsPcqIkmsa6SEu5w6POl8FtWLaLJg65OfDm6Kc="; "EwC97gi7eCTKIPuAEYB19AIZthUdVbXFK2JKfN7d9qc=";
   "Gbm2PS8QjhfmOBeGOo9sKI160pkW2YyxBy5Oe31Ss3Y="; "AVvuE1fjwBW1vaI3ZoUi9hPRyIcmtexCJKIBKEgbT38=";
   "KVNzbpS7a58blwek8WFeTv4eHOS6shjL6pLHhbEo/9E="; "CwaTU7oJFhiGL4BhgMA4X4UbmNNytF9UTOcmbtZgjfw=";
   "ME901GHMwTEV5OC8+5OBflWut+uTBrZOT1iKyX2B9Ck="; "FbvxRs6bygnooz9ed9/k9arSoWSkYXpMuO5UFc3pE/w=";
   "CrTf4MJ0LN5EkBAxSHlk7ZuPS4UEBcEMqf8jhZVyyMY="; "DjLbMgoETjGX9F92SaGWde9e7f6lRt6pJR3jn5Y5d5o=";
   "ChdWqh83jKSydjWni2iI5meXczqCd0iWoweO+lFtoBY="; "BExKM7EPaTRH/RcXf5Uu+JXmHTKPhe+pQlTWoqJdk+8=";
   "LtNhG3JbinC+ZVtTf2b3AP4IedeaSWiR03sHtUZsS4s="; "H5uk6Lq3zkLI7MPXIqouDq3965z900e12DOepxIIWKo=";
   "GyMwQwUujCiPfukHqE5RiqOOgqxFAgZtt0BW+GXF09o="; "JDHhzBZLuNB0Axq3K9VbTJAgU7/A8U2wyi+XsCCHWVQ=";
   "CC+TTJH1qsMwzWlToKfbRaE+MiCXWDMZp5Hyc5ZYAf0="; "K5oKIj51OLCjS+B0MVVCo8dyReKufL6Zmta7kwxImXw=";
   "DhzZHt0s+izOuFSDuIepvoFkFj51qKAOsLWJzHAhTn0="; "Lh6sDyv9/WPJUfYUd+NpiZl3TxmFTQD1iNMkYBzr4vk=";
   "DL+pXzf7dAYMdhWOdp1tFXNFeE2O/bM8I9dIEVtQC4M="; "CPBbO+kj7UTWWtSdimHppnbZkeOndRPZmAwjLfpKT4Q=";
   "InGeKgcLzQhSv44hmE0EQ+coSSXcB1ijJaLdUQwEfvY="; "BB9Zap7hyyvAYPf8w6GrTHvb8DYRmYLA9B9isvJoMMA=";
   "Iz/TXeG+UgqHYo6wb2sdTAIb4cLQ3EZKGfzdCYaxD4k="; "BSS0bRqoel5DJeCkI+vIENMeB4qhtHB+78tFPGHJwmc=";
   "LDT0JMgeVxbOR/ysiUuFgkInu5VLDzGZzESGI3xRUhE="; "C18qS2M4eBkgfv/CtVQfty3SAltUV8yX8zAQMn3kkV4=";
   "IiB4VggszFTFty/kOdLP1sF0NdL1evbOrvrEH+BcZZ8="; "JNV6i/XaY/5OJBWbf4lQtc37IQGUyvefJ4VASM4sgXE=";
   "Cvqxgf3V4Fg7Nx11vWk/mDdK1wl7sBqFc5Gbsjt5OW4="; "LbqbEI8gh3KZilLvrHy9VnbABXGUwWwL8WKQ1isRKO4=";
   "JjSbZu24sW9W+IHHiPU/g8u4PeC9WSslWv8T5rzkILM="; "Ja984OXhA1doXpX5Izl1OtgaVtKOzBk7I1KIo+bxN9s=";
   "JbTOe9IpQ5DAlNalXt1ouXDu16roiyv/H3wBh/41AR8="; "IsVD8Q9siew4flPxkIqI5d6c7yjr3zCxjLnVTB4CtjE=";
   "Ajb5PneJxHJPx5CKnxkeHkJekGqRnXo032aOdIgvh6k="; "KTULQBFmygEOfSfjfQXamWUr2uEU6wFlnLSXr5gMS1I=";
   "Du14fWWCDT9r0xu6tUf3WmXtt12ETruJ7hJgkWZSNj8="; "B8wRcPE7RvIDanU/Ugsykf3NDpm9lCl9GQb2VvTeb60=";
   "Irk5IzsdcgX0m89hOj0wsZCHhtf59dEMIFlDVonorOo="; "AUUXYqCquByKrR3IvDPocHQPCDpaqFQ4rdZQrOYK5aY=";
   "I1BrtdhyfURh+r8QJdRtH+MuqmHex9pX5wT+wIkvzok="; "LkhMROg4rqC6wGrj9xvdCSo3CVMeHv6pf4vWiQc1VSI=";
   "D0vH0H66/WQ3nnjFC9LkK69KWUVFztwlRUGNomg1tUw="; "H008j2WD6eX6dmN4Yvqu6FFYI4hyXfRg5iCZbVDY504=";
   "CTUU4McHEfgmYNB74OSpiPrgKrx7aB2RU+uby0j+c4k="; "GtqwyOKzutNGaZorXzvANkPug+zkcijySljgo0fhU9g=";
   "FnKxcmBX2Z3RRwnrtHRkGjeMG5S4ByusGiLb756A2tI="; "Hf1T1Fdq8uOPRPU/3KtGjMXY4vrgrMTuMNR7I5tHnBQ=";
   "DGiIoQt1sPOnCjYmOjfhf+bXfWQPb8PevH8gd1MgXGA="; "Gt25M6Zb53CSs0p+d9Ev6GEaYeAO5oSLhQkezKnR5Qg=";
   "ANdUDc0mioRcEK4Y0d6TPPY4/1Ql8K//eTVijimdF5E="; "FAwOQmh+nq0BsoJ6VmTKnCb+3eSs2Z2x0xaTnSC4LA4=";
   "Lww6EV1DF9GRuom40T0YBsIKD5sk+MXtwJHirlZWWYQ="; "DE7neP98FFUwBu0iDPnIEAigz/ZwsiuC2MU4odyVjGE=";
   "FwTydm1G+Cw2k/AEQMzDYJQk7SbArMZiJ8PXSF3nTGk="; "Ly0ZzD6l146noCwbUdJEq/B2nJ+FROQCObZv6QCcPPo=";
   "GuA4U7dfyrpQU/ES4qjo3N1+5suc/tnH1sdmqAb8Zik="; "CXGqv3lSQd9R0THQ+mGqXzVWkhstbwFOTkGobdrwVtU=";
   "FAjDFuYBThqR1M9rbg3nPtpiT4OA3xyHX1wp97/i9kY="; "Fmfz/i7b6FAkir5CtUMJO2yJ8fdz7yhTQWkfOYIu9b0=";
   "E798XQ0sQ3akiwoDVXzfkVuBcYQJ5cEzQkxpV2UA/jc="; "B2IKbfsLbOwwFq3z01M8JAJLlTR4VreXGbwLp0OmLCw=";
   "FXTH7wxDVF82qMoIvb3YsHXSlZ4vMitzFnXePhmCtNA="; "Jp5LW3oushr9VnlwpxfO7FvUGEVxwlT9wG4Dp/+DePA="]%string.

Definition M_1 : list (list string) :=
  [["Bm9vhdb2ioXsEDRTUaI6Oq8H84r4yVKnvOynC9KvetU="; "K51LQRDJrpl3guFQmx0P2yCnwCu9i+pzBUYrn4Elseg="];
   ["DMV827CFB9Yr9npEk8wmL7bAnVVwE//x9XP0MSIfj/k="; "EnTmSaMu01WjGm7WlyThra3oV+hutcOhIbzRR5QyA8g="]]%string.

Definition C_2 : list string :=
  ["DumlkrqalRjQWYbWVvQMIRTEmTwRuymTjSHUcwTNjm4="; "APFEUjXyFIxZhlhxafwbzYh7CNTQCGjfVpb/9AlW6GQ=";
   "CN/zSH6KyZ4fKaBY0PqAuTDHKHMLerNs6HnziQ7Pc/U="; "Lye+aQ/a7kbDzij3UysTyFbDU0LIS9puIJZjEPrcAdA=";
   "KyrhrPaLe40kFr6/PU9iNLdj/gS4BD7ki4MnvryhbPI="; "AxnQYgcr737MperAb5fU1VlSwXWrawPq5ktEx9vxHPo=";
   "KIE9yuuuqoKKN234evSmO8i3vyetScYpjvezh78oUm0="; "JydnOyzLyQPxgb844cHUDSAzhlIAw1K8FQkord35y3g=";
   "I07EXKJ3J8LnSr0rKhSUzW771D40BYfWuPueMeZcxjI="; "FbUlNAMa4Y9/hiyyz3z3YKsQqBUKM3sczZn/boeX1Cg=";
   "Dcj61tnks19e2aPRhrec444Oio0bWLEy1wHU7s9o0fY="; "G82V/8IR+8pgD3BfrT+1Z+pOs3j2Lh/sl4BVGKR+TZw=";
   "EFILCrchyt/p7/gbAW/DTcdto2wleJN4F8uXjQad5Vk="; "H21IFJuOf32bJX2O1fu69CkySYB1/tCs6IqeuB9WJ/Y=";
   "HZZV9lIwkBTSngDvNaIIm//43ByBbw3JyjS9tUYMhwU="; "BN9aVv+VvK+wUfexzUOpm6cx/2fkcDIFj+PUGFaXzH0=";
   "BnLZlfj/9kAVGz0pDO2vFIaQoQqMhCSn9uwoK25L6Cg="; "CZlStBSIRFSyEgDX/6/dXwyancwG8nCOn8HYIJtcdbk=";
   "BSy6IlXf0Ax8SDFDuo1GlEjkNYaptM2Rg/0OhDprn6Y="; "C4ut7mkK246wvXRxK3mZr4LeVXByUa13Fgd8uTxGTdw=";
   "EZsVkPEzB69aHuZRAgwHx0nBXWBoOoBQuWPQqOSyvdE="; "AxULfNbV0XslKdNr4PZ7gyxKz8iE707lzhW+C/tKjQk=";
   "LMYYLF4UVG488ZUfFzkSNVN077g9gImKvmnLMXyepWU="; "AFAyVR5jeMRQz+EppASzdkIYyt7awU4rktLNcxEb8Pk=";
   "IzI34yibqjS7FH6XLry5UWRpw5n8wGn7iPnaLMKCdrU="; "Bcj09OvUpuPJgNMWdL++YyMDfyGzSuWk6AwtTCTWAoA=";
   "CnsdsTBC05a6BdgYoxnyUlK8817zru2R7h8JslkPxls="; "KnO3H5shDPWxQpZXLJ0y2/FW4rCG/0fcXfVCNlpATsA=";
   "GsmwQXq8yaGTUQfp/8kdw+wY8sTb5/Ipdqdgu1xQxGA="; "EsAzmuCDdII/q7B2cH70eSafPk1ssQQ0kBXuBG3JP8A=";
   "C3R1sQKhZa1/WxjbTh5wT1KQCqMlO6rGgkZoLlbpoo4="; "A3woSeGRyj7bHF5J9ui4kXyEPjeTZvLqMqs6qI1/hEg=";
   "BaaBH4VW8BTpJnRmHiF+m9UgbFyToH3BRf2xdqcWNG8="; "KaeV59mAKJRulHt11U6fBEB26Hp7KIO0e2de9fOL1m4=";
   "IEOaDISzIutFo4V6/Bj1gm6Mc4LIoVhcUHvhmZgf0i8="; "Lguo2U2ez0qU7CBQxzcf8btQ8neZqEttSipvKgmCyIc=";
   "FD/RFc4I+yfKOOt8zoIrRReCLNIQkEjS5tDdzKF9ccg="; "DGTL7LHHNLhXlo273PgTzfhhFlkyPby/yEMjYjvpyvE=";
   "AoowWEfGg/ZG/KklwWP/WudPNI1iwrZw8UJs75QD2lM="; "Lk71EP8Lb9pfqUCrTEOA8mpry2TYlCe4JNZ1W1254ww=";
   "AIHJW8QzhOZj15JwyVbOO4kltPbQM7B4uWOE9QV5QA4="; "LtXwyRy9l0kYfi+t5ofgXuJJGzScA5oLuoqfQCOguzg=";
   "MFCZkfiNo1BLvzdO1ari8DRIoix2I0yMmQ8B8zpzUgY="; "HD8g/VVAmlMiG3xNSaNWufChEZ+yBntBp1KQlEJOxq0=";
   "ELTn86td8AMElRRFm24Y7sRrsiE+jhMeFwiHtH3cuWw="; "KhmCl5w/9/Q93VQ9iRwqvd2A+ATAd9d1A5qjUC5Dre8=";
   "HHTuZPFeHbb+3b6tVtbVXbpDHrw5bJr5XK0PExW9XJE="; "B1M+yFC6f5jquTA8rOAbS55PLouCcIz6nC/kWgrhRqA=";
   "IVdrQ45QBEmhUeTurxexVChcaPQtQsGAihGr83ZMB1A="; "LxfAVZuP55YIrVyhk9YvELzoOEyBXwkGdD1pMINtSp4=";
   "LUd+OGLQdwinnoqulGFwvJd1pCATGEdK5mWwsbficw4="; "Fi9SQ5ZwZMOQ4JVXeYTyka+6ImbDj1q82Jvg9bJ0fqs=";
   "K0yyM+3pukgmTs0siuUNGteoWWqH8p+Kd3enAJI5MxE="; "LI+8st2Fc9wduvj0YihUd22y7s5thcTPQlTnw14DsHo=";
   "HW80dyXkgWry/0U/DNVrGZ4bYen2Aemt5eiNuHCUnak="; "IEsMOX9OvnHrwtiz31uRPfnmrAK2jTEyTNSa9cRWVSk=";
   "DEy53DxP2BdPEUmzxjw8L57LgnzX3CVTT/j7dbx5xQI="; "F0rWGhRIyJmiVBZHT0kwMB5cSUdSeeBjmmFt3EW8e1Q=";
   "GpYXe89NjYn3Wd9OwvPN4uqqKMF3zA+hOpgW1Jo40u8="; "Bm0EskMx1xzQ74BUvGDE/wUgLBJqIzwagkKs42C4owo=";
   "KkxPxuwLDPUhlXgoccbdOzgcxl9y4CrVJwN6Yqob2AQ="; "E6stE2zPN9RH6fLhSnztyV5yf4RG9tnX5Vr8ASGf1kk=";
   "ESFVL8omBhYZ0k2EPcgnacGwT87Cb1UZTC4+hprMapo="; "AO9lMyKxPWyIm8gXFcN9d6bNJn1ZXEqJCaVUbHyXz/E=";
   "DiVIPkWmZSCLJh2Lp0BR5kAMd21lJZXZhFrKNdijl9M="; "KfU23LnddoIkUmRlnhXYjjlaw9Td6S2MRkSNuXnuuok=";
   "KlbvnyxT/rrf2jNXXb29iFoSTieAu+oXDkVrqs4Ppb4="; "HINhx461z13s+3otF7XECfKuKZmkZ2Lo7kFiQKjLmvE=";
   "FRr/XziyCg/ARzCJqvAga4Po5op2RQe/09CrS+dDGcU="; "BMYYfkHtiB3BsjnIj3+dQ6n1L8jIts3R525HYVtR8QA=";
   "E7N72A9NJ/sQ2EMx9vttU0uBxh7RV3ZEnoAbfdycKWc="; "AaXFNic8LZ31eL+9MsF7eizjZkwqUgMskyHOscToqOQ=";
   "KrNWGDTKc4Na0F9desuVC0qaLGZrlybagyI5Blt8OwI="; "HU2OwpHnINsgD+bWhsDWE6yvavTpXTv2n37VFqWXtkY=";
   "BBKU0sxITSKPV4T+eRn9K7klNRJAoEtxFRTJyAtlrx0="; "FUrJjgFwjGEcT6cVmR8ASJj1eTnRJuOSBClx3ZDoH8Y=";
   "CzOdisyn1Pg+7dhAk671EFCzaEyI+LCwRSRWO8bqTaQ="; "CVXknmYQyUJUpPhM+6s0RZjw5x6v9Kfdge2VtQg5yC4=";
   "BnRqYVbrpUQmueIiBvFavKmm9B5vU1xvNSVAHqBlRiY="; "Dxj1oOzRQjxJbzggxUnCeDjleQ4r0KGWrJF8f/Mgd/s=";
   "BPbuyhdR9zCKxZ7/W+smHku1Y1g+3nvJKnOCI9b3bhM="; "K1aXM2TExPXBo+xNo83OA4gR6xFvs+RbwXaNJvwLN1g=";
   "Ejdp3UnVsFTc12uJgEsby44TkrOFcWpdg/62XUN/Ke8="; "IUe0JPxIyAqI7lK5EWmqzqmJ9kRkcRUJlCV7L7AcY+k=";
   "D9wfWFSLhXAabFUF6jMqKWR+bzStQkPC6lStiXzr5U0="; "Ejc6glH+oATfaKvPD3eG1Lzv8oxdu+DDlE9oXMCgsfI=";
   "IeT06l81+FutfqUv90LJ6KZCdWtq9EID3YofNcGpADU="; "FiQ5FtadLKPftHIiJNTEYrVzZkkvRekNioGTTxvDsUc=";
   "HvvkbdeleLT2b5rbyItDeKvCFWbhoEU8oTpBWcrASsI="; "B+pehTfPXdCIhgIOI6fzh9Ro1VJb5m+FO2csyWqIlpo=";
   "BajE+ZaLiqO3tHijD5pbY2UPGadefOEcqf4WwLdsALw="; "IPBXcSzCFlT7/lm9NF6NrD94GMcBuceILZ1Xtyoy6D8=";
   "BKEu3tqd/WiWcvjGf+4xY23NjojQHUkBm9kLM+sz22k="; "J+iNjBXzfc7kTx5UJaUd7L0TbOUJGmdn5J7JVEzNEBo=";
   "L+7Re4QoXtm4pcjF6VpB9m4JZhmncDIjF2xB7kM95NE="; "HtfMdu30XHxAQkFCD3Kc85TllCkRMSoNaXK4vVOv8rg=";
   "FXQumbm/oyMVf/jFhvVmDqxng0dhRM3K3yh0vkVGaxo="; "GqwoU4f2XoLIlfxoh930BXcQdFTG7AMXKE8DPyfQx4U=";
   "JYUcPIRdR5D53a29tgVzV4MuLnpJd19x7HWpZVTWfHc="; "FaWCFWXMLsLOeEV9sZft81O367osVSM3DdzMPZ8Uamc=";
   "JBHVekgTuZgO+n4xodtZZtz2TzYEQndQLxVIXyjHFyc="; "AC5vjWUgzUcT4zW4wLbS5kfpqY4S9M0lWIKLXvbLTJs=";
   "L/e8j0OAzemX2gC2FrD80a+PDpHi/h7XOYg0YJ4DFdI="; "ALmDG5SFJVle4CckRxvNGC6VIfa3u2jx6Tvk/rsNPL4=";
   "Ci9TdouOv2qGkTsOV8BOARykCGSKR0OofXetvwycNRI="; "ACSBVhQv0Dc6R5+R/yOelg9Zn/fpS+abfyopAwXhGY0=";
   "Fx1WILh7+xMoz4wCqz8MmjlxlqpqVCwjUOtRKisrzak="; "FwpPVVNvfclwCHx8ENb612DJUhct1U3ZnRBF5Ow0qAg=";
   "KaujP3mf5mwu8xNK6gQzbsw344wc0hG6SC7KF+Lb+uE="; "HpvBeaT911j90bsZRQiNR+cNEUoD9qDotbplA2nmSXM=";
   "HdJpeZtmD61Y9/SJLfsLWv6q2GmpxLRPnJ4cQ72vjwk="; "Is28i3ARetFAEYHQLhVFnnzNQm/oacfJXR3Syw8krzg=";
   "DvBC5FR3HFM6n1elXFA/zv0xUPUu2Up81bqTucfazv0="; "EWCeBq1sj+Lyh/MDYDfohRMY6LCKA1mgOzBP/KYugoQ=";
   "EWbZ5VRhbbqedT7qQnwXt/7NWMB23+QnCLCPW3g6qa8="; "LeUpiUMahZWTQTAmNUQT2xd/v0zSrAtW+FWoiDV+5GY=";
   "MAbrT/x6hYGabaSS86isHfUa7lsXuOiddL8Bz19x6a0="; "KvQfu2G6ioD9z2//nj9vQimT/o8KRjn5YjRMgiUUUIY=";
   "EZ5oTeR2FV/lprQajryF24cYqyeInoXngbIUus5IJ8M="; "GDW3huLokl4Yi+pZrjY1N7USSMI4KPBHz/eEuXs/2AA=";
   "KCAaNMWU36NNeUmWxkM6INFSusKnkFySbEDihasy7rY="; "CD79eifRdRCU6A/vr3iwAIZMgutXEYdySnYfiMIsxOc=";
   "C2+Io1dxmVJhWOYc7qJ76BHBbfd3TdhRngeVZPYf0Ts="; "Dsho5tFeUdlkT2bh1kcalFiVEcoA0p4QFDkObuQlT1s=";
   "KvM+P4ZncScawMmz7S4RQuzT50uTnNQNANk3q4TJhZE="; "C1ICEfkEtefQm12WHGrOdzRWjFR91oWLNkzl5HlR8Xg=";
   "Cy1yLQkZoarY21jxAGKpLqDFasQnDoIsyiKGIBiKHUA="; "H3kNTX+M8JTZgM6zfCRT6Ve1SpmRyji74AYdHtblYtQ=";
   "AXHrld+/fR6uqXzThfeAFQiFwWI1oqao2pLOsB5QQjM="; "DC0OO1/VdUkym/aIXaZrm3kLQN79LIZQdiMFOBsWiHM=";
   "EWL7KGicJxVOWoIotOcrN3y8r6WJ4oPDXTgDBUQHoY0="; "LxRZtl3uRBtkrThqkegxDygsWpKonhmSFiPvgklxG8A=";
   "Hm/zIWtojD2ZbXQ2fVzUwbxInUZ1TrcSwkP3DRtTz7s="; "AcqL5zgyuNBoFIfSfRV4AtdBpvNs3CoFdogfkyZHiHU=";
   "H3c1cG/+n8WG+XbVvfIj3GgChggLEM6gC5td4xX5ZQ4="; "JSK2D06jMHZAoMLc4EH7qSGsEKPV8JbvR0XKg4KF8Bk=";
   "I/C+4AGxAp1SVQdd3JV/gzQYytT1K2w/jOFsI1VyV1s="; "K8Gui43buB/KrC1EVV7VaF0UJjPp35BfZtlAEJMILVk=";
   "D5QGuCllZKNzBFB7jbo+0WI3EnOgex/JgBH81q1yIF8="; "I2Co6wzH3vpntymY3pBxThfnWxdKUu5KyxJsjNmV8Kg=";
   "FYcaXN3q2XaATIA8uu8lXrSBWl6W34sAbcu8J2f4iUg="; "GTpWdmmY7p4KhlLdLzsdoDYvT1T3I3lUT5V8ze77Qg8=";
   "KjlKQ5NPhpgvm+Vv9PqxcDsuY8itM0g05DCYBed3rg8="; "GFmVTP64aV8+i2NdyzRRkoks0RIjRDuntBZuiHbA0UI=";
   "BOEYF2MFDlgBNETby5nxkCsRvCXZC73KQI04GfT+0ys="; "D9slPe6Dhp1AwzXqZN6MW7EOuC2wi16LH15VUr/QXyM=";
   "BYy+ippQJ72qTvtiOt6tYnXwhobxwImEqdfFuum08cA="; "E4Ltzplx4YZJfq2xrrH1KyO0uDvvAjqw0VIotMzspZo=";
   "A0ZJkPBFxu4IGcpR/RGwvn9huOuZ8Ut34eZjRgHZ6LU="; "I/e/yHINwpb/8ztB+Y/4PG/KtGBdsutaqlvBN663Clg=";
   "ClmhWOPuwhF+bpTn8OnezxjD/9XhUxqSGWNhWLuvYvI="; "BuxUyAOBwFK1i/I7MS/9POLE66BlQgr49MI+0Adf0Hs=";
   "EYhy3IMuDrVHa1ZkjoZ+yLCTQPenvLG0li8P+e0fnQE="; "E9afoSfYNBZa1cfLp61Z7VLgsPDkLX/qleGQa1IJIbE=";
   "FpoXf2PqaBJwscaHenPSG94UOUL7cdxV/YpJ8Z8Qx3s="; "BO9RWRxurZfvQvKHrc5A2Tq+sDK5IvZv+36aWnRQVE0=";
   "JW4XWh3AeTkOzXynA/suOxnsYYBdTwPO1fRe5t0Paew="; "MBAtKGNqvV/l8q9BL/YAT3XMNg0yBd0toAKBPT4s7rI=";
   "EJmOQt/NO78cBxS8c+sb9ARDo/qZvvSjH9Mb4YL8x5I="; "GT7djp/PPXYl+n0ktZih2J8zYur01YLv7K12+HnjaGA=";
   "GBaK/TTy2RXQNozoC3szR9HHpWHOYRQl8mZNeqUfC10="; "KTg8AevTtqsMAXZW6+ZYtqMo7He8M2JuKeLpWzPqYRE=";
   "EGRtLyYD3jmh9K5ed3GmSnAttuhvt2q2AL9XP5AQxxE="; "C+teB9GycUX1dfE5WlW/Ey+QwltA2ns4ZNAkLcsRF/s=";
   "FtaFJSB4wTPcDT7K1itciDD5W7LlS1mr3/vwGNlvozY="; "Cmq9HYM5OPM8dBVOBAS0tApVW7vsId36/Wct1iBH8Bo=";
   "GmefXTbre1yOoSpMLe3I/rEt/+7EUDFycKbxmzTPGGA="; "CYD7IzvUVsI5dNUODr/eRyakI+raTo9v+8dZLj8bk9Y=";
   "FhtCIy5huEy/GBCvk6OPwM7OPVYoySggA+ustcMSxys="; "CtoQqQx/BSCVD31Hpg1eakk/CXh/FWTl0JID20feGgs=";
   "GnMNNyMQuoIyA0WimsQjjtPweoorThIbtQ3bmvQH9FE="; "LIEg8mjvBU+BcGTDad2n6pCDd/6rpcTf+9oQ71joxVY=";
   "HHyIJPdYdT+lfAB4nGhCF7kw6VMTvLc+bnuGSaSWj3A="; "LNntMfX4aRyOOeQHenT6oPQArYtJHrP3tHsn+j/Rz3c=";
   "I/9PnUaBNFfPYNkvV2GDmaXgIqwyHKVQhUriORiiLuo="; "CZRaXRR6T2bO7OZAXd3Z0K9aLFEDUpQH3/HqWPGAQm0=";
   "GI2cUoAl1MK2dmDGt3G5D3x9puqinT8mim3SI+xvxjA="; "MFDjeZZZa3+B9oMRQx2HNNun2SbTYzWV4MDY3fTw9H8=";
   "Fa8RaTloMKkWAMqBAsNcQmzq5UYeP5XYnYKVGNMK/Xg="; "HabQmIVDLqmgbZ83+HPZhdrpM+NRRmspBChNozINisw=";
   "J5bqkNJpryn1+KzzOSESTk5PrT2+ZYlF5UbuQR3aqcs="; "IC190doPa0sDJcizMHdC8B4VYS7I6TBKfLAxngHTLWA=";
   "CW1nkNBbt1kVapUromPWcqLX+ceI9Mgxop2s5MD4vl8="; "BU76H2Ww/OKDgIllJ12He0ONojzlsT4ZY3mMsUR9JaQ=";
   "GxYvg9kX6T7bMwjCmALeudiqaQETsuFIZMz24Y5BZfE="; "IeUkHhJWTdb9nxzdKg3jnu3+/BRmzFaOxc63RaBQbtw=";
   "HPtWYujPWskiaoDuF7Nqvstzq1+H4WGSe0NJ4Q5L3wg="; "DyEXfjAqdxu65tjR7LNztiyZrzRiIKwBKcU/Zm6yQQA=";
   "FnFSI3RgaZKv+w3X9xsSvsQjau3mKQVGvO9+H1FcIyA="; "D6PsW5SIJZwutM8kUBv62b4uyeQsXMjM1BnSppLK2HA=";
   "GTwOBOC9KYNXyyZsFQYIDtNu3OhcZIzAhejFexq1S7o="; "ECrfjvdHNaJ+kSgwbcvDyZ9vcpHNQGV4zhTqKtq6aPg=";
   "D+CveFjkmFnipU1vGtlFsTFqokv73SOuQKbQy3DD6rE="; "IW9nF7vH3tsIU2oiIIQ/Ti2l8dqp69796KXqc0R5jSI=";
   "HaVcyQDw0h9KPmlDkZGKGzwjsqx3PGs++I4uQigyUWE="]%string.

Definition M_2 : list (list string) :=
  [["EJt/QRug5MmytwyvXDansZS+fBGtJDeL/ttoWSuoEYs="; "Fu1B4Tu5wMZq4RlCT928vJMU3J/b3upV1sZFQ9xJA+A=";
    "K5C7oA/KBYn2F+fcv+guDfcGq2QM6yR7eRqTt042c20="];
   ["KWnyfu0xpIC5w2x2Q3nbyizI/dFBXD3e1ilAvN4L13E="; "LiQZ+ewC7DlMmHHIMpY9wbiddDyMe5ZAKbIxFoex/iM=";
    "EBBx8AMjebaXMVh2aQ8FPRSNThCfX7BlyKrMVaD4m/o="];
   ["FDAh7GhqPzMNX55lRjgGXObNeeKMWzdTMmJE7mWhsac="; "F2zAKWla0CWCpw7/CKb9mdBX4S5Y59e2sWzfq8juKRE=";
    "GaP8ClZwK/QXun/uOAJZP6ZERwMHBD93cyec1x0l1eA="]]%string.

(** The two tables the bundle decodes at load time. *)
Definition c1_C : list Z := Eval vm_compute in map unstringifyBigInts C_1.
Definition c1_M : list (list Z) := Eval vm_compute in map (map unstringifyBigInts) M_1.
Definition c2_C : list Z := Eval vm_compute in map unstringifyBigInts C_2.
Definition c2_M : list (list Z) := Eval vm_compute in map (map unstringifyBigInts) M_2.

Definition c1 : constants := {| C := c1_C; M := c1_M |}.
Definition c2 : constants := {| C := c2_C; M := c2_M |}.

Definition poseidon1 (inputs : list Node) : result Z := poseidon inputs c1.
Definition poseidon2 (inputs : list Node) : result Z := poseidon inputs c2.

End Poseidon.


(** ** @zk-kit/incremental-merkle-tree *)

Module IMT.

Definition checkParameter (value : Node) (name : string) (types : list jstype) : result unit :=
  match value with
  | Undefined => throw (TypeError ("Parameter '" ++ name ++ "' is not defined")%string)
  | _ =>
      if existsb (jstype_eqb (typeof value)) types then Ok tt
      else throw (TypeError ("Parameter '" ++ name ++ "' is none of these types: "
                               ++ String.concat ", " (map jstype_name types))%string)
  end.

(** The trees of this program are binary: [arity] defaults to 2 in the
    constructor and [Group] passes 2. *)
Definition arity : nat := 2.

(** [nodes[level]], whose [length] or elements are then read: a missing
    level is a [TypeError]. *)
Definition level_of (nodes : list (list Node)) (level : nat) : result (list Node) :=
  match nodes !! level with
  | Some row => Ok row
  | None => throw (TypeError "Cannot read properties of undefined")
  end.

Record MerkleProof : Type := {
  root : Node;
  leaf : Node;
  pathIndices : list Z;
  siblings : list (list Node)
}.

(** What [verifyProof] is given: nothing, or an object whose [root] and
    [leaf] are [undefined] when they are missing and whose [siblings] and
    [pathIndices] are arrays when they are there (values of other types in
    their place are not represented). *)
Record ProofObject : Type := {
  proof_root : Node;
  proof_leaf : Node;
  proof_siblings : option (list (list Node));
  proof_pathIndices : option (list Z)
}.

Definition ProofArgument : Type := option ProofObject.

(** A proof of [createProof], given to [verifyProof]. *)
Definition proof_of (proof : MerkleProof) : ProofArgument :=
  Some {| proof_root := root proof;
          proof_leaf := leaf proof;
          proof_siblings := Some (siblings proof);
          proof_pathIndices := Some (pathIndices proof) |}.

(** The loop of [createProof] from [level] on, for [steps] more levels. *)
Fixpoint createProof_loop (steps level index : nat)
    (nodes : list (list Node)) (zeroes : list Node)
    : result (list Z * list (list Node)) :=
  match steps with
  | O => Ok ([], [])
  | S steps' =>
      let position := (index mod arity)%nat in
      let levelStartIndex := (index - position)%nat in
      let* row := level_of nodes level in
      let window :=
        flat_map (fun i =>
                    if (i =? index)%nat then []
                    else if (i <? length row)%nat then [array_get row i]
                    else [array_get zeroes level])
                 (seq levelStartIndex arity) in
      let* (pathIndices, siblings) :=
        createProof_loop steps' (S level) (index / arity)%nat nodes zeroes in
      Ok (Z.of_nat position :: pathIndices, window :: siblings)
  end.

Definition createProof (index : Z) (depth : nat)
    (nodes : list (list Node)) (zeroes : list Node) (root : Node) : result MerkleProof :=
  let* _ := checkParameter (Num index) "index" [TNumber] in
  let* leaves := level_of nodes 0 in
  if (index <? 0) || (Z.of_nat (length leaves) <=? index) then
    throw (Error "The leaf does not exist in this tree")
  else
    let leafIndex := Z.to_nat index in
    let* (pathIndices, siblings) := createProof_loop depth 0 leafIndex nodes zeroes in
    Ok {| root := root; leaf := array_get leaves leafIndex;
          pathIndices := pathIndices; siblings := siblings |}.

Definition indexOf (leaf : Node) (nodes : list (list Node)) : result Z :=
  let* _ := checkParameter leaf "leaf" [TNumber; TString; TBigint] in
  let* leaves := level_of nodes 0 in
  Ok (array_indexOf leaves leaf).

(** The window of [arity] children that [insert] and [update] hash: the
    nodes of the level from [levelStartIndex] on, the level's zero in the
    places past its end. *)
Definition children_of (row zeroes : list Node) (level levelStartIndex : nat) : list Node :=
  map (fun i => if (i <? length row)%nat then array_get row i else array_get zeroes level)
      (seq levelStartIndex arity).

Section WithHash.

Variable hash : list Node -> result Node.

(** The loop of [insert] (and, line for line, of [update]). *)
Fixpoint insert_loop (steps level index : nat) (node : Node)
    (nodes : list (list Node)) (zeroes : list Node)
    : result (list (list Node) * Node) :=
  match steps with
  | O => Ok (nodes, node)
  | S steps' =>
      let position := (index mod arity)%nat in
      let levelStartIndex := (index - position)%nat in
      let* row := level_of nodes level in
      let row := array_set row index node in
      let nodes := <[level := row]> nodes in
      let children := children_of row zeroes level levelStartIndex in
      let* node := hash children in
      insert_loop steps' (S level) (index / arity)%nat node nodes zeroes
  end.

Definition insert (leaf : Node) (depth : nat)
    (nodes : list (list Node)) (zeroes : list Node) : result (list (list Node) * Node) :=
  let* _ := checkParameter leaf "leaf" [TNumber; TString; TBigint] in
  let* leaves := level_of nodes 0 in
  if (arity ^ depth <=? length leaves)%nat then throw (Error "The tree is full")
  else insert_loop depth 0 (length leaves) leaf nodes zeroes.

Fixpoint update_loop (steps level index : nat) (node : Node)
    (nodes : list (list Node)) (zeroes : list Node)
    : result (list (list Node) * Node) :=
  match steps with
  | O => Ok (nodes, node)
  | S steps' =>
      let position := (index mod arity)%nat in
      let levelStartIndex := (index - position)%nat in
      let* row := level_of nodes level in
      let row := array_set row index node in
      let nodes := <[level := row]> nodes in
      let children := children_of row zeroes level levelStartIndex in
      let* node := hash children in
      update_loop steps' (S level) (index / arity)%nat node nodes zeroes
  end.

Definition update (index : Z) (value : Node) (depth : nat)
    (nodes : list (list Node)) (zeroes : list Node) : result (list (list Node) * Node) :=
  let* _ := checkParameter (Num index) "index" [TNumber] in
  let* leaves := level_of nodes 0 in
  if (index <? 0) || (Z.of_nat (length leaves) <=? index) then
    throw (Error "The leaf does not exist in this tree")
  else update_loop depth 0 (Z.to_nat index) value nodes zeroes.

(** [proof.pathIndices[i]] as [splice] reads it: a missing entry counts
    as 0. *)
Definition path_index (pathIndices : list Z) (i : nat) : Z :=
  match pathIndices !! i with
  | Some p => p
  | None => 0
  end.

Fixpoint verifyProof_loop (siblings : list (list Node)) (i : nat)
    (pathIndices : list Z) (node : Node) : result Node :=
  match siblings with
  | [] => Ok node
  | s :: rest =>
      let children := splice_insert s (path_index pathIndices i) node in
      let* node := hash children in
      verifyProof_loop rest (S i) pathIndices node
  end.

(** [checkParameter(value, name, "object")] on a value that is an
    array when it is there. *)
Definition checkObject {A : Type} (value : option A) (name : string) : result A :=
  match value with
  | None => throw (TypeError ("Parameter '" ++ name ++ "' is not defined")%string)
  | Some object => Ok object
  end.

Definition verifyProof (proof : ProofArgument) : result bool :=
  let* proof := checkObject proof "proof" in
  let* _ := checkParameter (proof_root proof) "proof.root" [TNumber; TString; TBigint] in
  let* _ := checkParameter (proof_leaf proof) "proof.leaf" [TNumber; TString; TBigint] in
  let* siblings := checkObject (proof_siblings proof) "proof.siblings" in
  let* pathIndices := checkObject (proof_pathIndices proof) "proof.pathElements" in
  let* node := verifyProof_loop siblings 0 pathIndices (proof_leaf proof) in
  Ok (strict_eq (proof_root proof) node).

(** *** The class *)

Record IncrementalMerkleTree : Type := {
  _depth : nat;
  _zeroes : list Node;
  _nodes : list (list Node)
}.

Definition maxDepth : Z := 32.

(** First loop of the constructor: one zero per level, and the zero one
    level above the last that is kept. *)
Fixpoint zeroes_loop (steps : nat) (zeroValue : Node) (zeroes : list Node)
    : result (list Node * Node) :=
  match steps with
  | O => Ok (zeroes, zeroValue)
  | S steps' =>
      let zeroes := zeroes ++ [zeroValue] in
      let* zeroValue := hash (replicate arity zeroValue) in
      zeroes_loop steps' zeroValue zeroes
  end.

(** Inner loop of the constructor: the parents of one level, [count]
    of them from [index] on. *)
Fixpoint parents_loop (count index : nat) (row : list Node) (zero : Node)
    (parents : list Node) : result (list Node) :=
  match count with
  | O => Ok parents
  | S count' =>
      let position := (index * arity)%nat in
      let children :=
        map (fun i => nullish (array_get row (position + i)) zero) (seq 0 arity) in
      let* h := hash children in
      parents_loop count' (S index) row zero (array_set parents index h)
  end.

(** [Math.ceil(length / arity)]. *)
Definition ceil_div (n d : nat) : nat := ((n + d - 1) / d)%nat.

(** Outer loop of the constructor over the levels. *)
Fixpoint levels_loop (steps level : nat) (nodes : list (list Node)) (zeroes : list Node)
    : result (list (list Node)) :=
  match steps with
  | O => Ok nodes
  | S steps' =>
      let* row := level_of nodes level in
      let* above := level_of nodes (S level) in
      let* parents :=
        parents_loop (ceil_div (length row) arity) 0 row (array_get zeroes level) above in
      levels_loop steps' (S level) (<[S level := parents]> nodes) zeroes
  end.

Definition new (depth : Z) (zeroValue : Node) (leaves : list Node)
    : result IncrementalMerkleTree :=
  let* _ := checkParameter (Num depth) "depth" [TNumber] in
  let* _ := checkParameter zeroValue "zeroValue" [TNumber; TString; TBigint] in
  if (depth <? 1) || (maxDepth <? depth) then
    throw (Error "The tree depth must be between 1 and 32")
  else if Z.of_nat arity ^ depth <? Z.of_nat (length leaves) then
    throw (Error ("The tree cannot contain more than "
                  ++ toString10 (Z.of_nat arity ^ depth) ++ " leaves")%string)
  else
    let d := Z.to_nat depth in
    let* (zeroes, zeroValue) := zeroes_loop d zeroValue [] in
    let nodes := replicate d [] ++ [[]] in
    if (0 <? length leaves)%nat then
      let nodes := <[0%nat := leaves]> nodes in
      let* nodes := levels_loop d 0 nodes zeroes in
      Ok {| _depth := d; _zeroes := zeroes; _nodes := nodes |}
    else
      let* top := level_of nodes d in
      let nodes := <[d := array_set top 0 zeroValue]> nodes in
      Ok {| _depth := d; _zeroes := zeroes; _nodes := nodes |}.

Definition tree_root (t : IncrementalMerkleTree) : result Node :=
  let* top := level_of (_nodes t) (_depth t) in
  Ok (array_get top 0).

Definition tree_leaves (t : IncrementalMerkleTree) : result (list Node) :=
  level_of (_nodes t) 0.

Definition tree_indexOf (t : IncrementalMerkleTree) (leaf : Node) : result Z :=
  indexOf leaf (_nodes t).

(** [this._nodes[this.depth][0] = f(...)]. *)
Definition set_root (t : IncrementalMerkleTree) (r : list (list Node) * Node)
    : result IncrementalMerkleTree :=
  let '(nodes, node) := r in
  let* top := level_of nodes (_depth t) in
  Ok {| _depth := _depth t; _zeroes := _zeroes t;
        _nodes := <[_depth t := array_set top 0 node]> nodes |}.

Definition tree_insert (t : IncrementalMerkleTree) (leaf : Node)
    : result IncrementalMerkleTree :=
  let* r := insert leaf (_depth t) (_nodes t) (_zeroes t) in
  set_root t r.

Definition tree_delete (t : IncrementalMerkleTree) (index : Z)
    : result IncrementalMerkleTree :=
  let* r := update index (array_get (_zeroes t) 0) (_depth t) (_nodes t) (_zeroes t) in
  set_root t r.

Definition tree_update (t : IncrementalMerkleTree) (index : Z) (newLeaf : Node)
    : result IncrementalMerkleTree :=
  let* r := update index newLeaf (_depth t) (_nodes t) (_zeroes t) in
  set_root t r.

Definition tree_createProof (t : IncrementalMerkleTree) (index : Z) : result MerkleProof :=
  let* r := tree_root t in
  createProof index (_depth t) (_nodes t) (_zeroes t) r.

Definition tree_verifyProof (t : IncrementalMerkleTree) (proof : ProofArgument) : result bool :=
  verifyProof proof.

(** A run of [insert] calls, in order. *)
Fixpoint insert_all (t : IncrementalMerkleTree) (leaves : list Node)
    : result IncrementalMerkleTree :=
  match leaves with
  | [] => Ok t
  | x :: rest => let* t := tree_insert t x in insert_all t rest
  end.

End WithHash.

End IMT.

Coercion IMT.proof_of : IMT.MerkleProof >-> IMT.ProofArgument.


(** ** ethers: BigNumber *)

Module BigNumber.

Definition MAX_SAFE : Z := 0x1fffffffffffff.

Definition is_hex_digit (c : ascii) : bool :=
  match digit_value c with
  | Some d => d <? 16
  | None => false
  end.

Definition is_dec_digit (c : ascii) : bool :=
  match digit_value c with
  | Some d => d <? 10
  | None => false
  end.

Fixpoint string_forallb (p : ascii -> bool) (s : string) : bool :=
  match s with
  | EmptyString => true
  | String c rest => p c && string_forallb p rest
  end.

Definition nonempty_all (p : ascii -> bool) (s : string) : bool :=
  match s with
  | EmptyString => false
  | _ => string_forallb p s
  end.

(** [BigNumber.from(value).toBigInt()] on a string.  The first pattern,
    [/^-?0x[0-9a-f]+$/i], also lets an upper-case [0X] through, which
    bn.js then refuses; the second is [/^-?[0-9]+$/]. *)
Definition from_string (value : string) : result Z :=
  let '(negative, body) :=
    match value with
    | String "-" rest => (true, rest)
    | _ => (false, value)
    end in
  let sign (z : Z) := if negative then - z else z in
  match body with
  | String "0" (String "x" digits) =>
      if nonempty_all is_hex_digit digits then
        match parse_digits 16 digits 0 with
        | Some z => Ok (sign z)
        | None => throw (Error "invalid BigNumber string")
        end
      else throw (Error "invalid BigNumber string")
  | String "0" (String "X" digits) =>
      if nonempty_all is_hex_digit digits then
        throw (Error "this platform does not support BigInt")
      else throw (Error "invalid BigNumber string")
  | _ =>
      if nonempty_all is_dec_digit body then
        match parse_digits 10 body 0 with
        | Some z => Ok (sign z)
        | None => throw (Error "invalid BigNumber string")
        end
      else throw (Error "invalid BigNumber string")
  end.

(** [BigNumber.from(value)] on a scalar, as a bigint. *)
Definition from (value : Node) : result Z :=
  match value with
  | Str s => from_string s
  | Num n =>
      if (MAX_SAFE <=? n) || (n <=? - MAX_SAFE) then throw (Error "overflow")
      else Ok n
  | Big z => Ok z
  | Undefined => throw (Error "invalid BigNumber value")
  end.

(** bn.js [inotn(width)] on a value that is not negative: the words of
    26 bits that the width takes are inverted, the last of them cut at the
    width; the words above them are left as they are. *)
Definition inotn (width : Z) (a : Z) : Z :=
  let words := (width + 25) / 26 in
  a / 2 ^ (26 * words) * 2 ^ (26 * words) + (2 ^ width - 1 - a mod 2 ^ width).

(** [value.toTwos(width)]. *)
Definition toTwos (width : Z) (value : Z) : Z :=
  if value <? 0 then inotn width (- value) + 1 else value.

End BigNumber.

(** ** JSON *)

Module JSON.

#[warnings="-register-all"]
Inductive value : Type :=
| JNull
| JBool (b : bool)
| JNumber (literal : string)
| JString (s : string)
| JArray (elements : list value)
| JObject (members : list (string * value)).

Definition dquote : ascii := ascii_of_nat 34.
Definition backslash : ascii := ascii_of_nat 92.

(** *** [JSON.stringify] of an array of strings *)

Definition hex_digit_char (d : nat) : ascii :=
  ascii_of_nat (if (d <? 10)%nat then 48 + d else 87 + d).

Definition escape (c : string) : string := String backslash c.

Definition quote_char (c : ascii) : string :=
  let n := nat_of_ascii c in
  if (n =? 34)%nat then escape (String dquote EmptyString)
  else if (n =? 92)%nat then escape (String backslash EmptyString)
  else if (n =? 8)%nat then escape "b"
  else if (n =? 12)%nat then escape "f"
  else if (n =? 10)%nat then escape "n"
  else if (n =? 13)%nat then escape "r"
  else if (n =? 9)%nat then escape "t"
  else if (n <? 32)%nat then
    escape (String "u" (String "0" (String "0"
      (String (hex_digit_char (n / 16)) (String (hex_digit_char (n mod 16)) EmptyString)))))
  else String c EmptyString.

Fixpoint quote_chars (s : string) : string :=
  match s with
  | EmptyString => EmptyString
  | String c rest => (quote_char c ++ quote_chars rest)%string
  end.

Definition quote (s : string) : string :=
  String dquote (quote_chars s ++ String dquote EmptyString)%string.

Fixpoint join_quoted (xs : list string) : string :=
  match xs with
  | [] => EmptyString
  | [x] => quote x
  | x :: rest => (quote x ++ "," ++ join_quoted rest)%string
  end.

Definition stringify_strings (xs : list string) : string :=
  String "[" (join_quoted xs ++ "]")%string.

(** *** [JSON.parse] *)

Definition is_ws (c : ascii) : bool :=
  let n := nat_of_ascii c in
  (n =? 32)%nat || (n =? 9)%nat || (n =? 10)%nat || (n =? 13)%nat.

Fixpoint skip_ws (s : string) : string :=
  match s with
  | String c rest => if is_ws c then skip_ws rest else s
  | EmptyString => EmptyString
  end.

Definition hex4 (a b c d : ascii) : option Z :=
  parse_digits 16 (String a (String b (String c (String d EmptyString)))) 0.

(** The UTF-8 bytes of a code unit of an escape. *)
Definition code_unit (n : Z) : string :=
  let byte (z : Z) := ascii_of_nat (Z.to_nat z) in
  if n <? 128 then String (byte n) EmptyString
  else if n <? 2048 then
    String (byte (192 + n / 64)) (String (byte (128 + n mod 64)) EmptyString)
  else
    String (byte (224 + n / 4096))
      (String (byte (128 + (n / 64) mod 64)) (String (byte (128 + n mod 64)) EmptyString)).

Definition unescape (c : ascii) : option ascii :=
  let n := nat_of_ascii c in
  if (n =? 34)%nat then Some dquote
  else if (n =? 92)%nat then Some backslash
  else if (n =? 47)%nat then Some "/"%char
  else if (n =? 98)%nat then Some (ascii_of_nat 8)
  else if (n =? 102)%nat then Some (ascii_of_nat 12)
  else if (n =? 110)%nat then Some (ascii_of_nat 10)
  else if (n =? 114)%nat then Some (ascii_of_nat 13)
  else if (n =? 116)%nat then Some (ascii_of_nat 9)
  else None.

Definition prepend (p : string) (r : option (string * string)) : option (string * string) :=
  match r with
  | Some (str, rest) => Some ((p ++ str)%string, rest)
  | None => None
  end.

(** The characters of a string literal after its opening quote, and the
    text after its closing quote. *)
Fixpoint parse_string_body (s : string) : option (string * string) :=
  match s with
  | EmptyString => None
  | String c rest =>
      let n := nat_of_ascii c in
      if (n =? 34)%nat then Some (EmptyString, rest)
      else if (n =? 92)%nat then
        match rest with
        | String e rest' =>
            if (nat_of_ascii e =? 117)%nat then
              match rest' with
              | String h1 (String h2 (String h3 (String h4 rest''))) =>
                  match hex4 h1 h2 h3 h4 with
                  | Some code => prepend (code_unit code) (parse_string_body rest'')
                  | None => None
                  end
              | _ => None
              end
            else
              match unescape e with
              | Some ch => prepend (String ch EmptyString) (parse_string_body rest')
              | None => None
              end
        | EmptyString => None
        end
      else if (n <? 32)%nat then None
      else prepend (String c EmptyString) (parse_string_body rest)
  end.

Fixpoint take_digits (s : string) : string * string :=
  match s with
  | String c rest =>
      if BigNumber.is_dec_digit c then
        let '(ds, r) := take_digits rest in (String c ds, r)
      else (EmptyString, s)
  | EmptyString => (EmptyString, EmptyString)
  end.

(** A number literal: an optional minus sign, an integer part without a
    leading zero, an optional fraction and an optional exponent. *)
Definition parse_number (s : string) : option (string * string) :=
  let '(sign, s1) :=
    match s with
    | String "-" rest => ("-", rest)
    | _ => (EmptyString, s)
    end in
  let '(int, s2) := take_digits s1 in
  let int_ok :=
    match int with
    | EmptyString => false
    | String "0" (String _ _) => false
    | _ => true
    end in
  if negb int_ok then None
  else
    let frac :=
      match s2 with
      | String "." rest =>
          let '(ds, r) := take_digits rest in
          match ds with
          | EmptyString => None
          | _ => Some (String "." ds, r)
          end
      | _ => Some (EmptyString, s2)
      end in
    match frac with
    | None => None
    | Some (fr, s3) =>
        let exp_of (e : ascii) (rest : string) :=
          let '(sg, r1) :=
            match rest with
            | String "+" r => ("+", r)
            | String "-" r => ("-", r)
            | _ => (EmptyString, rest)
            end in
          let '(ds, r2) := take_digits r1 in
          match ds with
          | EmptyString => None
          | _ => Some (String e (sg ++ ds), r2)
          end in
        let exp :=
          match s3 with
          | String "e" rest => exp_of "e"%char rest
          | String "E" rest => exp_of "E"%char rest
          | _ => Some (EmptyString, s3)
          end in
        match exp with
        | None => None
        | Some (ex, s4) => Some ((sign ++ int ++ fr ++ ex)%string, s4)
        end
    end.

Definition strip_prefix (p s : string) : option string :=
  if String.prefix p s then Some (String.substring (String.length p) (String.length s - String.length p) s)
  else None.

(** A value, then the elements of an array after its first, then the
    members of an object; [fuel] bounds the nesting and the number of
    elements, and the length of the text is enough of it. *)
Fixpoint parse_value (fuel : nat) (s : string) : option (value * string) :=
  match fuel with
  | O => None
  | S fuel' =>
      match skip_ws s with
      | EmptyString => None
      | String c rest as t =>
          let n := nat_of_ascii c in
          if (n =? 34)%nat then
            match parse_string_body rest with
            | Some (str, r) => Some (JString str, r)
            | None => None
            end
          else if (n =? 91)%nat then
            match skip_ws rest with
            | String "]" r => Some (JArray [], r)
            | _ =>
                match parse_elements fuel' rest with
                | Some (vs, r) => Some (JArray vs, r)
                | None => None
                end
            end
          else if (n =? 123)%nat then
            match skip_ws rest with
            | String "}" r => Some (JObject [], r)
            | _ =>
                match parse_members fuel' rest with
                | Some (ms, r) => Some (JObject ms, r)
                | None => None
                end
            end
          else if (n =? 116)%nat then
            match strip_prefix "true" t with
            | Some r => Some (JBool true, r)
            | None => None
            end
          else if (n =? 102)%nat then
            match strip_prefix "false" t with
            | Some r => Some (JBool false, r)
            | None => None
            end
          else if (n =? 110)%nat then
            match strip_prefix "null" t with
            | Some r => Some (JNull, r)
            | None => None
            end
          else
            match parse_number t with
            | Some (lit, r) => Some (JNumber lit, r)
            | None => None
            end
      end
  end
with parse_elements (fuel : nat) (s : string) : option (list value * string) :=
  match fuel with
  | O => None
  | S fuel' =>
      match parse_value fuel' s with
      | Some (v, r) =>
          match skip_ws r with
          | String "," r' =>
              match parse_elements fuel' r' with
              | Some (vs, r'') => Some (v :: vs, r'')
              | None => None
              end
          | String "]" r' => Some ([v], r')
          | _ => None
          end
      | None => None
      end
  end
with parse_members (fuel : nat) (s : string) : option (list (string * value) * string) :=
  match fuel with
  | O => None
  | S fuel' =>
      match skip_ws s with
      | String c rest =>
          if (nat_of_ascii c =? 34)%nat then
            match parse_string_body rest with
            | Some (key, r) =>
                match skip_ws r with
                | String ":" r1 =>
                    match parse_value fuel' r1 with
                    | Some (v, r2) =>
                        match skip_ws r2 with
                        | String "," r3 =>
                            match parse_members fuel' r3 with
                            | Some (ms, r4) => Some ((key, v) :: ms, r4)
                            | None => None
                            end
                        | String "}" r3 => Some ([(key, v)], r3)
                        | _ => None
                        end
                    | None => None
                    end
                | _ => None
                end
            | None => None
            end
          else None
      | EmptyString => None
      end
  end.

(** [JSON.parse(text)]; [None] stands for the [SyntaxError]. *)
Definition parse (text : string) : option value :=
  match parse_value (2 * S (String.length text)) text with
  | Some (v, rest) =>
      match skip_ws rest with
      | EmptyString => Some v
      | _ => None
      end
  | None => None
  end.

End JSON.


(** ** @semaphore-protocol/group *)

Module Group.

(** The hash of the tree of a group: [poseidon2] of the two children. *)
Definition poseidon2 (children : list Node) : result Node :=
  let* h := Poseidon.poseidon2 children in Ok (Big h).

(** The 32 bytes, most significant first, of a value below [2^256]. *)
Definition bytes32 (z : Z) : list Z :=
  map (fun i => (z / 256 ^ (31 - Z.of_nat i)) mod 256) (seq 0 32).

Section WithKeccak.

(** Keccak-256 of a byte array, as the integer its hexadecimal digest
    denotes (js-sha3). *)
Variable keccak256 : list Z -> Z.

(** [hash$1]: the Keccak-256 digest of the 32 bytes of
    [toTwos(256)] of the message, without its last byte.  [zeroPad]
    refuses what does not fit in 32 bytes. *)
Definition hash (message : Node) : result Z :=
  let* value := BigNumber.from message in
  let twos := BigNumber.toTwos 256 value in
  if 2 ^ 256 <=? twos then throw (Error "value out of range")
  else Ok (Z.shiftr (keccak256 (bytes32 twos)) 8).

Record Group : Type := {
  _id : Node;
  merkleTree : IMT.IncrementalMerkleTree
}.

Definition new (id : Node) (treeDepth : Z) (members : list Node) : result Group :=
  if (treeDepth <? 16) || (32 <? treeDepth) then
    throw (Error "The tree depth must be between 16 and 32")
  else
    let* zeroValue := hash id in
    let* leaves := map_BigInt members in
    let* tree := IMT.new poseidon2 treeDepth (Big zeroValue) (map Big leaves) in
    Ok {| _id := id; merkleTree := tree |}.

Definition id (g : Group) : Node := _id g.
Definition root (g : Group) : result Node := IMT.tree_root (merkleTree g).
Definition depth (g : Group) : nat := IMT._depth (merkleTree g).
Definition zeroValue (g : Group) : Node := array_get (IMT._zeroes (merkleTree g)) 0.
Definition members (g : Group) : result (list Node) := IMT.tree_leaves (merkleTree g).

Definition indexOf (g : Group) (member : Node) : result Z :=
  IMT.tree_indexOf (merkleTree g) member.

Definition addMember (g : Group) (member : Node) : result Group :=
  let* m := BigInt member in
  let* tree := IMT.tree_insert poseidon2 (merkleTree g) (Big m) in
  Ok {| _id := _id g; merkleTree := tree |}.

Fixpoint addMembers (g : Group) (members : list Node) : result Group :=
  match members with
  | [] => Ok g
  | member :: rest => let* g := addMember g member in addMembers g rest
  end.

Definition updateMember (g : Group) (index : Z) (member : Node) : result Group :=
  let* tree := IMT.tree_update poseidon2 (merkleTree g) index member in
  Ok {| _id := _id g; merkleTree := tree |}.

Definition removeMember (g : Group) (index : Z) : result Group :=
  let* tree := IMT.tree_delete poseidon2 (merkleTree g) index in
  Ok {| _id := _id g; merkleTree := tree |}.

(** The proof of a group: the one of the tree with every window
    replaced by its first element. *)
Record MerkleProof : Type := {
  root_ : Node;
  leaf : Node;
  pathIndices : list Z;
  siblings : list Node
}.

Definition generateMerkleProof (g : Group) (index : Z) : result MerkleProof :=
  let* merkleProof := IMT.tree_createProof (merkleTree g) index in
  Ok {| root_ := IMT.root merkleProof;
        leaf := IMT.leaf merkleProof;
        pathIndices := IMT.pathIndices merkleProof;
        siblings := map (fun s => array_get s 0) (IMT.siblings merkleProof) |}.

End WithKeccak.

End Group.

(** ** @semaphore-protocol/identity *)

Module Identity.

(** [s.padStart(n, "0")]. *)
Definition padStart (s : string) (n : nat) : string :=
  (string_of_list_ascii (repeat "0"%char (n - String.length s)) ++ s)%string.

(** [s.slice(from)] and [s.slice(0, to)]. *)
Definition slice_from (s : string) (from : nat) : string :=
  String.substring from (String.length s - from) s.
Definition slice_to (s : string) (to : nat) : string :=
  String.substring 0 to s.

(** [BigInt(s)] on a string. *)
Definition BigInt_string (s : string) : result Z := BigInt (Str s).

(** The integer a byte array denotes, most significant byte first. *)
Definition bytes_value (bytes : list Z) : Z :=
  fold_left (fun acc b => acc * 256 + b) bytes 0.

(** [genRandomNumber], on the bytes [randomBytes] drew. *)
Definition genRandomNumber (bytes : list Z) : Z := bytes_value bytes.

Definition isJsonArray (jsonString : string) : bool :=
  match JSON.parse jsonString with
  | Some (JSON.JArray _) => true
  | _ => false
  end.

Record Identity : Type := {
  _trapdoor : Z;
  _nullifier : Z;
  _secret : Z;
  _commitment : Z
}.

Section WithExternals.

(** [hash.sha512]: the hexadecimal SHA-512 digest of a string
    (js-sha512). *)
Variable sha512 : string -> string.

(** [BigNumber.from(v).toBigInt()] on what a JSON text can hold besides a
    string: numbers, byte arrays and the objects ethers accepts. *)
Variable BigNumber_from_json : JSON.value -> result Z.

Definition BigNumber_of_element (v : option JSON.value) : result Z :=
  match v with
  | Some (JSON.JString s) => BigNumber.from_string s
  | Some other => BigNumber_from_json other
  | None => throw (Error "invalid BigNumber value")
  end.

(** The rest of every branch of the constructor. *)
Definition with_secret (trapdoor nullifier : Z) : result Identity :=
  let* secret := Poseidon.poseidon2 [Big nullifier; Big trapdoor] in
  let* commitment := Poseidon.poseidon1 [Big secret] in
  Ok {| _trapdoor := trapdoor; _nullifier := nullifier;
        _secret := secret; _commitment := commitment |}.

(** The constructor.  Without an argument it draws 31 bytes twice; the
    two draws are [entropy]. *)
Definition new (entropy : list Z * list Z) (identityOrMessage : option string)
    : result Identity :=
  match identityOrMessage with
  | None =>
      let trapdoor := genRandomNumber (fst entropy) in
      let nullifier := genRandomNumber (snd entropy) in
      with_secret trapdoor nullifier
  | Some identityOrMessage =>
      if negb (isJsonArray identityOrMessage) then
        let h := padStart (sha512 identityOrMessage) 128 in
        let* t := BigInt_string ("0x" ++ slice_from h 64) in
        let trapdoor := Z.shiftr t 3 in
        let* n := BigInt_string ("0x" ++ slice_to h 64) in
        let nullifier := Z.shiftr n 3 in
        with_secret trapdoor nullifier
      else
        match JSON.parse identityOrMessage with
        | Some (JSON.JArray _a) =>
            let* trapdoor := BigNumber_of_element (_a !! 0%nat) in
            let* nullifier := BigNumber_of_element (_a !! 1%nat) in
            with_secret trapdoor nullifier
        | _ => throw (SyntaxError "Unexpected token in JSON")
        end
  end.

Definition getTrapdoor (i : Identity) : Z := _trapdoor i.
Definition getNullifier (i : Identity) : Z := _nullifier i.
Definition getSecret (i : Identity) : Z := _secret i.
Definition getCommitment (i : Identity) : Z := _commitment i.

Definition toString (i : Identity) : string :=
  JSON.stringify_strings
    [("0x" ++ toString16 (_trapdoor i))%string; ("0x" ++ toString16 (_nullifier i))%string].

End WithExternals.

End Identity.

(** ** The prover of this repository *)

Module Prover.

Section WithExternals.

Variable keccak256 : list Z -> Z.

(** [str2BigInt] of discreetly-interfaces. *)
Variable str2BigInt : string -> Z.

(** The proof of rlnjs, and the text of its nullifier,
    [proof.snarkProof.publicSignals.nullifier.toString()]. *)
Variable RLNFullProof : Type.
Variable nullifier_toString : RLNFullProof -> string.

Definition getMessageHash (message : string) : result Z :=
  Poseidon.poseidon1 [Big (str2BigInt message)].

Definition getRateCommitmentHash (identityCommitment : Z) (userMessageLimit : Z) : result Z :=
  Poseidon.poseidon2 [Big identityCommitment; Big userMessageLimit].

Record proofInputsI : Type := {
  rlnIdentifier : Z;
  identitySecret : Z;
  userMessageLimit : Z;
  messageId : Z;
  merkleProof : Group.MerkleProof;
  x : Z;
  epoch : Z
}.

(** A room: its [id] and [membership?.identityCommitments]. *)
Record RoomI : Type := {
  id : Node;
  identityCommitments : option (list Node)
}.

Record MessageI : Type := {
  message_id : string;
  message : string;
  roomId : Z;
  proof : RLNFullProof
}.

(** A parameter with a default value: the default stands in for
    [undefined], for an argument that is not given. *)
Definition or_default (default value : Node) : Node :=
  match value with
  | Undefined => default
  | _ => value
  end.

(** [genProof] up to the call of the prover: the proof inputs, or the
    exception that ends the call.  [now] is the reading of [Date.now()]. *)
Definition genProof_inputs (room : RoomI) (message : string)
    (identity : Identity.Identity) (messageId messageLimit : Node) (now : Z)
    : result proofInputsI :=
  let messageId := or_default (Num 0) messageId in
  let messageLimit := or_default (Num 1) messageLimit in
  let* RLN_IDENIFIER := BigInt (id room) in
  let* userMessageLimit := BigInt messageLimit in
  let* messageHash := getMessageHash message in
  let* group :=
    Group.new keccak256 (Big RLN_IDENIFIER) 20
      (match identityCommitments room with Some members => members | None => [] end) in
  let* rateCommitment :=
    getRateCommitmentHash (Identity.getCommitment identity) userMessageLimit in
  let identitySecret := Identity.getSecret identity in
  let* messageId := BigInt messageId in
  let* index := Group.indexOf group (Big rateCommitment) in
  let* merkleProof := Group.generateMerkleProof group index in
  Ok {| rlnIdentifier := RLN_IDENIFIER;
        identitySecret := identitySecret;
        userMessageLimit := userMessageLimit;
        messageId := messageId;
        merkleProof := merkleProof;
        x := messageHash;
        epoch := now |}.

(** [genProof]: the inputs go to [prover.generateProof], whose result
    is wrapped in a message. *)
Definition genProof (generateProof : proofInputsI -> result RLNFullProof)
    (room : RoomI) (message : string)
    (identity : Identity.Identity) (messageId messageLimit : Node) (now : Z)
    : result MessageI :=
  let* proofInputs := genProof_inputs room message identity messageId messageLimit now in
  let* proof := generateProof proofInputs in
  Ok {| message_id := nullifier_toString proof;
        message := message;
        roomId := rlnIdentifier proofInputs;
        proof := proof |}.

End WithExternals.

End Prover.

(** * Specification *)

(** ** Well-formed trees *)

Section TreeSpec.

Variable hash : list Node -> result Node.

(** The values the hash function is defined on. *)
Variable dom : Node -> Prop.

(** The two children of the parent [j] of a level, as the code reads
    them. *)
Definition pair_of (row : list Node) (zero : Node) (j : nat) : list Node :=
  [ if (2 * j <? length row)%nat then array_get row (2 * j) else zero;
    if (2 * j + 1 <? length row)%nat then array_get row (2 * j + 1) else zero ].

(** [above] holds the hashes of the pairs of [row]. *)
Definition parents_ok (zero : Node) (row above : list Node) : Prop :=
  length above = IMT.ceil_div (length row) 2 /\
  forall j, (j < length above)%nat -> hash (pair_of row zero j) = Ok (array_get above j).

(** The levels from [lo] up to the one below the root are in step. *)
Definition levels_ok (depth : nat) (nodes : list (list Node)) (zeroes : list Node)
    (lo : nat) : Prop :=
  forall m row above,
    (lo <= m)%nat -> (S m < depth)%nat ->
    nodes !! m = Some row -> nodes !! S m = Some above ->
    parents_ok (array_get zeroes m) row above.

(** [zs] are the zeroes of the levels from [z] on, and [top] the zero one
    level above the last of them. *)
Fixpoint zero_chain (z : Node) (zs : list Node) (top : Node) : Prop :=
  match zs with
  | [] => top = z
  | z0 :: rest => z0 = z /\ exists z1, hash [z; z] = Ok z1 /\ zero_chain z1 rest top
  end.

(** The invariant of the class: one zero per level, [depth + 1] levels of
    nodes, each level holding the hashes of the pairs of the level below,
    and the root the hash of the first pair of the level below it. *)
Record wf (t : IMT.IncrementalMerkleTree) : Prop := {
  wf_depth : (1 <= IMT._depth t <= 32)%nat;
  wf_zeroes_len : length (IMT._zeroes t) = IMT._depth t;
  wf_zeroes_dom : Forall dom (IMT._zeroes t);
  wf_nodes_len : length (IMT._nodes t) = S (IMT._depth t);
  wf_nodes_dom : Forall (Forall dom) (IMT._nodes t);
  wf_capacity :
    forall leaves, IMT._nodes t !! 0%nat = Some leaves ->
                   (length leaves <= 2 ^ IMT._depth t)%nat;
  wf_levels : levels_ok (IMT._depth t) (IMT._nodes t) (IMT._zeroes t) 0;
  wf_top :
    exists rowtop r,
      IMT._nodes t !! (IMT._depth t - 1)%nat = Some rowtop /\
      IMT._nodes t !! IMT._depth t = Some [r] /\
      hash (pair_of rowtop (array_get (IMT._zeroes t) (IMT._depth t - 1)) 0) = Ok r
}.

(** The other child of the pair that holds [index]. *)
Definition sibling_of (row : list Node) (zero : Node) (index : nat) : Node :=
  let s := if (index mod 2 =? 0)%nat then (index + 1)%nat else (index - 1)%nat in
  if (s <? length row)%nat then array_get row s else zero.

(** The nodes off the path from leaf [i] to the root are the same in
    both trees, and so are the sizes of all levels. *)
Definition same_off_path (i : nat) (t t' : IMT.IncrementalMerkleTree) : Prop :=
  IMT._depth t' = IMT._depth t /\
  IMT._zeroes t' = IMT._zeroes t /\
  length (IMT._nodes t') = length (IMT._nodes t) /\
  forall m row, IMT._nodes t !! m = Some row ->
    exists row', IMT._nodes t' !! m = Some row' /\
      length row' = length row /\
      forall j, j <> (i / 2 ^ m)%nat -> row' !! j = row !! j.

End TreeSpec.

(** ** Groups, rooms and strings *)

(** The values [BigInt] accepts: the ones the hash of a group is defined
    on. *)
Definition coercible (v : Node) : Prop := exists z, BigInt v = Ok z.

(** The invariant of a group: its tree is well formed for [poseidon2]. *)
Definition group_ok (g : Group.Group) : Prop :=
  wf Group.poseidon2 coercible (Group.merkleTree g).

Definition members_of (room : Prover.RoomI) : list Node :=
  match Prover.identityCommitments room with
  | Some members => members
  | None => []
  end.


(** A string of ASCII characters none of which is white space. *)
Definition no_white (s : string) : bool :=
  BigNumber.string_forallb
    (fun c => negb (is_white c) && (nat_of_ascii c <? 128)%nat) s.

(** A character that [JSON.stringify] writes as it is. *)
Definition plain_char (c : ascii) : bool :=
  let n := nat_of_ascii c in
  (32 <=? n)%nat && negb (n =? 34)%nat && negb (n =? 92)%nat.

Definition plain (s : string) : bool := BigNumber.string_forallb plain_char s.

(** ** Inputs *)

(** Stand-ins for the functions that come from outside the bundle, to
    state the properties at inputs. *)
Module Sample.

Definition keccak256 (bytes : list Z) : Z := Identity.bytes_value bytes.

Definition sha512 (s : string) : string :=
  "cf83e1357eefb8bdf1542850d66d8007d620e4050b5715dc83f4a921d36ce9ce47d0d13c5d85f2b0ff8318d2877eec2f63b931bd47417a81a538327af927da3e".

Definition BigNumber_from_json (v : JSON.value) : result Z :=
  throw (Error "invalid BigNumber value").

Definition str2BigInt (s : string) : Z :=
  Identity.bytes_value (map (fun c => Z.of_nat (nat_of_ascii c)) (list_ascii_of_string s)).

Definition RLNFullProof : Type := Z.

Definition nullifier_toString (proof : RLNFullProof) : string := toString10 proof.

Definition room : Prover.RoomI :=
  {| Prover.id := Str "123"; Prover.identityCommitments := Some [Big 123; Big 456] |}.

Definition identity : Identity.Identity :=
  {| Identity._trapdoor := 1; Identity._nullifier := 2;
     Identity._secret := 3; Identity._commitment := 5 |}.

End Sample.

(** ** Further notions *)

(** The index a list of path indices denotes, least significant first. *)
Fixpoint index_of_path (pathIndices : list Z) : Z :=
  match pathIndices with
  | [] => 0
  | position :: rest => position + 2 * index_of_path rest
  end.

(** The node at a place of a level: the level's zero past its end. *)
Definition node_at (row : list Node) (zero : Node) (j : nat) : Node :=
  if (j <? length row)%nat then array_get row j else zero.

(** The constants of a table are not negative. *)
Definition nonneg_constants (opt : Poseidon.constants) : bool :=
  forallb (Z.leb 0) (Poseidon.C opt) && forallb (forallb (Z.leb 0)) (Poseidon.M opt).

(** The rate commitment of [Sample.identity] at limit 1, and a room that
    has it among its members. *)
Definition sample_rate_commitment : Z :=
  Eval vm_compute in
    match Poseidon.poseidon2 [Big 5; Big 1] with
    | inr h => h
    | inl _ => 0
    end.


(** An element of the field of Poseidon, as a bigint. *)
Definition field_element (v : Node) : Prop :=
  exists z, v = Big z /\ 0 <= z < Poseidon.F.

(** A group all of whose nodes and zeroes are elements of the field. *)
Definition group_in_field (g : Group.Group) : Prop :=
  wf Group.poseidon2 field_element (Group.merkleTree g).

(** Modelled from the spec's words: the fold of a proof from its leaf
    upward.  At each level the running node goes in the two-slot window at
    the place the path index names, beside the sibling of the level, and
    the pair is hashed.  A path index that is missing counts as 0, one
    below 0 as 0 and one above 1 as 1. *)
Fixpoint fold_proof (hash : list Node -> result Node) (node : Node)
    (pathIndices : list Z) (siblings : list Node) : result Node :=
  match siblings with
  | [] => Ok node
  | sibling :: rest =>
      let position := match pathIndices with p :: _ => p | [] => 0 end in
      let* parent := hash (if position <=? 0 then [node; sibling] else [sibling; node]) in
      fold_proof hash parent (tail pathIndices) rest
  end.

(** Modelled from the spec's words: [int(s, 16)], the number a string of
    hexadecimal digits denotes, most significant digit first.  The value
    of a digit is its place among the sixteen digits, written with small
    letters or with capitals. *)
Fixpoint place_of (c : ascii) (digits : string) (place : Z) : option Z :=
  match digits with
  | EmptyString => None
  | String d rest =>
      if Ascii.eqb c d then Some place else place_of c rest (place + 1)
  end.

Definition hex_digit (c : ascii) : option Z :=
  match place_of c "0123456789abcdef" 0 with
  | Some d => Some d
  | None => place_of c "0123456789ABCDEF" 0
  end.

Fixpoint int_of_hex_from (value : Z) (s : string) : option Z :=
  match s with
  | EmptyString => Some value
  | String c rest =>
      match hex_digit c with
      | Some d => int_of_hex_from (16 * value + d) rest
      | None => None
      end
  end.

Definition int_of_hex (s : string) : option Z := int_of_hex_from 0 s.

(** A group with a member that is no element of the field. *)
Definition large_members : list Node := [Big 123; Big (2 ^ 300); Big (-7)].
(** * Properties *)

(** ** Exceptions *)

Lemma bind_Ok {A B : Type} (a : A) (k : A -> result B) : bind (Ok a) k = k a.
Proof. reflexivity. Qed.

Lemma bind_throw {A B : Type} (e : exn) (k : A -> result B) : bind (throw e) k = throw e.
Proof. reflexivity. Qed.

(** ** Arrays: reading and writing *)

Section ArrayFacts.

Implicit Types (arr : list Node) (i j : nat) (v : Node).

Lemma array_get_lookup arr i v : arr !! i = Some v -> array_get arr i = v.
Proof. unfold array_get. by intros ->. Qed.

Lemma array_get_ge arr i : (length arr <= i)%nat -> array_get arr i = Undefined.
Proof. intros H. unfold array_get. by rewrite (lookup_ge_None_2 _ _ H). Qed.

Lemma array_get_lt arr i : (i < length arr)%nat -> arr !! i = Some (array_get arr i).
Proof.
  intros H. unfold array_get.
  destruct (lookup_lt_is_Some_2 arr i H) as [x ->]. done.
Qed.

Lemma array_set_length arr i v :
  length (array_set arr i v) = Nat.max (length arr) (S i).
Proof.
  unfold array_set. destruct (Nat.ltb_spec i (length arr)).
  - rewrite length_insert. lia.
  - rewrite !length_app, length_replicate. simpl. lia.
Qed.

Lemma array_get_set_eq arr i v : array_get (array_set arr i v) i = v.
Proof.
  unfold array_set. destruct (Nat.ltb_spec i (length arr)).
  - apply array_get_lookup. by apply list_lookup_insert_eq.
  - apply array_get_lookup.
    rewrite lookup_app_r by lia.
    rewrite lookup_app_r by (rewrite length_replicate; lia).
    rewrite length_replicate.
    replace (i - length arr - (i - length arr))%nat with 0%nat by lia. done.
Qed.

Lemma array_get_set_ne arr i j v :
  i <> j -> array_get (array_set arr i v) j = array_get arr j.
Proof.
  intros Hne. unfold array_set. destruct (Nat.ltb_spec i (length arr)).
  - unfold array_get. by rewrite list_lookup_insert_ne.
  - destruct (Nat.lt_ge_cases j (length arr)) as [Hj|Hj].
    + unfold array_get. by rewrite lookup_app_l.
    + rewrite (array_get_ge arr j Hj).
      destruct (Nat.lt_ge_cases j i) as [Hji|Hji].
      * apply array_get_lookup.
        rewrite lookup_app_r by lia.
        rewrite lookup_app_l by (rewrite length_replicate; lia).
        apply lookup_replicate_2. lia.
      * apply array_get_ge. rewrite !length_app, length_replicate. simpl. lia.
Qed.

Lemma array_set_append arr v : array_set arr (length arr) v = arr ++ [v].
Proof.
  unfold array_set. rewrite Nat.ltb_irrefl.
  by replace (length arr - length arr)%nat with 0%nat by lia.
Qed.

Lemma array_set_Forall (P : Node -> Prop) arr i v :
  (i <= length arr)%nat -> Forall P arr -> P v -> Forall P (array_set arr i v).
Proof.
  intros Hi Harr Hv. unfold array_set. destruct (Nat.ltb_spec i (length arr)).
  - by apply Forall_insert.
  - replace (i - length arr)%nat with 0%nat by lia. simpl.
    apply Forall_app. split; [done|]. by constructor.
Qed.

Lemma array_get_Forall (P : Node -> Prop) arr i :
  (i < length arr)%nat -> Forall P arr -> P (array_get arr i).
Proof.
  intros Hi Harr. eapply Forall_lookup_1; [exact Harr|]. by apply array_get_lt.
Qed.

End ArrayFacts.

(** ** The levels of a tree *)

Ltac Zify.zify_post_hook ::= Z.to_euclidean_division_equations.

Section TreeFacts.

Variable hash : list Node -> result Node.

(** The values the hash function is defined on: it returns on every
    pair of them, with a value among them; none of them is [undefined]. *)
Variable dom : Node -> Prop.
Hypothesis dom_defined : forall a, dom a -> a <> Undefined.
Hypothesis hash_dom :
  forall a b, dom a -> dom b -> exists h, hash [a; b] = Ok h /\ dom h.

(** The notions of the specification, at the hash function and the values
    of this section. *)
Local Abbreviation parents_ok := (parents_ok hash).
Local Abbreviation levels_ok := (levels_ok hash).
Local Abbreviation zero_chain := (zero_chain hash).
Local Abbreviation wf := (wf hash dom).
Local Abbreviation Build_wf := (Build_wf hash dom).
Local Abbreviation wf_depth := (wf_depth hash dom).
Local Abbreviation wf_zeroes_len := (wf_zeroes_len hash dom).
Local Abbreviation wf_zeroes_dom := (wf_zeroes_dom hash dom).
Local Abbreviation wf_nodes_len := (wf_nodes_len hash dom).
Local Abbreviation wf_nodes_dom := (wf_nodes_dom hash dom).
Local Abbreviation wf_capacity := (wf_capacity hash dom).
Local Abbreviation wf_levels := (wf_levels hash dom).
Local Abbreviation wf_top := (wf_top hash dom).


Lemma children_of_pair row zeroes level index :
  IMT.children_of row zeroes level (index - index mod IMT.arity)%nat
  = pair_of row (array_get zeroes level) (index / 2).
Proof.
  unfold IMT.children_of, pair_of, IMT.arity.
  replace (index - index mod 2)%nat with (2 * (index / 2))%nat by lia.
  change (seq ?s 2) with [s; S s]. cbn [map].
  replace (S (2 * (index / 2))) with (2 * (index / 2) + 1)%nat by lia.
  done.
Qed.

Lemma pair_of_dom row zero j :
  Forall dom row -> dom zero -> Forall dom (pair_of row zero j).
Proof.
  intros Hrow Hz. unfold pair_of.
  repeat constructor.
  - destruct (Nat.ltb_spec (2 * j) (length row)); [by apply array_get_Forall|done].
  - destruct (Nat.ltb_spec (2 * j + 1) (length row)); [by apply array_get_Forall|done].
Qed.

Lemma hash_pair row zero j :
  Forall dom row -> dom zero ->
  exists h, hash (pair_of row zero j) = Ok h /\ dom h.
Proof.
  intros Hrow Hz.
  pose proof (pair_of_dom row zero j Hrow Hz) as Hp.
  unfold pair_of in *.
  inversion Hp as [|a l Ha Hl]; subst. inversion Hl as [|b l' Hb Hl']; subst.
  by apply hash_dom.
Qed.

Lemma ceil_div_2 n : IMT.ceil_div n 2 = ((n + 1) / 2)%nat.
Proof. unfold IMT.ceil_div. f_equal. lia. Qed.

(** Writing one node of a level and the hash of its pair one level up
    keeps the two levels in step. *)
Lemma parents_ok_set zero row above i v h :
  parents_ok zero row above ->
  (i <= length row)%nat ->
  hash (pair_of (array_set row i v) zero (i / 2)) = Ok h ->
  parents_ok zero (array_set row i v) (array_set above (i / 2) h).
Proof.
  intros [Hlen Hpt] Hi Hh. rewrite ceil_div_2 in Hlen.
  split.
  - rewrite !array_set_length, ceil_div_2. lia.
  - intros j Hj. rewrite array_set_length in Hj.
    destruct (decide (j = i / 2)%nat) as [->|Hne].
    + by rewrite array_get_set_eq.
    + rewrite array_get_set_ne by done.
      assert (j < length above)%nat as Hj' by lia.
      rewrite <- (Hpt j Hj'). f_equal.
      unfold pair_of. rewrite array_set_length.
      rewrite !array_get_set_ne by lia.
      repeat match goal with |- context [(?a <? ?b)%nat] =>
        destruct (Nat.ltb_spec a b); try lia end; done.
Qed.


Lemma level_of_lookup (nodes : list (list Node)) level row :
  nodes !! level = Some row -> IMT.level_of nodes level = Ok row.
Proof. unfold IMT.level_of. by intros ->. Qed.

Lemma update_loop_insert_loop steps :
  forall level index node nodes zeroes,
    IMT.update_loop hash steps level index node nodes zeroes
    = IMT.insert_loop hash steps level index node nodes zeroes.
Proof.
  induction steps as [|steps IH]; intros; simpl; [done|].
  destruct (IMT.level_of nodes level) as [e|row]; simpl; [done|].
  destruct (hash _) as [e|h]; simpl; [done|]. apply IH.
Qed.

(** What one run of the loop of [insert] does to a tree whose levels are
    in step: it writes the path from [index] at [level] to the level below
    the root, leaves every other node alone, keeps the levels in step, and
    returns the hash of the first pair of the level below the root. *)
Lemma insert_loop_spec zeroes depth :
  Forall dom zeroes -> length zeroes = depth ->
  forall steps level i v nodes row,
    (level + steps = depth)%nat ->
    length nodes = S depth ->
    Forall (Forall dom) nodes ->
    nodes !! level = Some row ->
    (i <= length row)%nat ->
    dom v ->
    (i < 2 ^ steps)%nat ->
    levels_ok depth nodes zeroes level ->
    exists nodes' r,
      IMT.insert_loop hash steps level i v nodes zeroes = Ok (nodes', r) /\
      dom r /\
      length nodes' = S depth /\
      Forall (Forall dom) nodes' /\
      (forall m, (m < level)%nat \/ m = depth -> nodes' !! m = nodes !! m) /\
      (forall m rowm, (level <= m < depth)%nat -> nodes !! m = Some rowm ->
         exists w, nodes' !! m = Some (array_set rowm (i / 2 ^ (m - level)) w) /\
                   (i / 2 ^ (m - level) <= length rowm)%nat /\
                   ((i < length row)%nat -> (i / 2 ^ (m - level) < length rowm)%nat) /\
                   (m = level -> w = v)) /\
      levels_ok depth nodes' zeroes level /\
      ((0 < steps)%nat ->
         exists rowtop, nodes' !! (depth - 1)%nat = Some rowtop /\
           hash (pair_of rowtop (array_get zeroes (depth - 1)) 0) = Ok r) /\
      (steps = 0%nat -> r = v).
Proof.
  intros Hzdom Hzlen.
  induction steps as [|s IH]; intros level i v nodes row Hlev Hlen Hdom Hrow Hi Hv Hbound Hok.
  { exists nodes, v. cbn [IMT.insert_loop]. split_and!; try done; lia. }
  assert (level < depth)%nat as Hlt by lia.
  assert (dom (array_get zeroes level)) as Hz.
  { apply array_get_Forall; [lia|done]. }
  assert (Forall dom row) as Hrowdom by (eapply Forall_lookup_1; eauto).
  assert (Forall dom (array_set row i v)) as Hrow'dom by (by apply array_set_Forall).
  destruct (hash_pair (array_set row i v) (array_get zeroes level) (i / 2) Hrow'dom Hz)
    as (h & Hh & Hhdom).
  set (row' := array_set row i v) in *.
  set (nodes1 := <[level := row']> nodes).
  assert (IMT.insert_loop hash (S s) level i v nodes zeroes
          = IMT.insert_loop hash s (S level) (i / 2) h nodes1 zeroes) as Hstep.
  { cbn [IMT.insert_loop]. rewrite (level_of_lookup _ _ _ Hrow), bind_Ok.
    rewrite children_of_pair. fold row'. rewrite Hh, bind_Ok. done. }
  assert (length nodes1 = S depth) as Hlen1 by (unfold nodes1; by rewrite length_insert).
  assert (Forall (Forall dom) nodes1) as Hdom1 by (by apply Forall_insert).
  assert (nodes1 !! level = Some row') as Hrow1.
  { apply list_lookup_insert_eq. lia. }
  assert (forall m, m <> level -> nodes1 !! m = nodes !! m) as Hframe1.
  { intros m Hm. unfold nodes1. by rewrite list_lookup_insert_ne. }
  destruct s as [|s'].
  - (* the level below the root *)
    exists nodes1, h. rewrite Hstep.
    assert (i / 2 = 0)%nat as Hi0 by (simpl in Hbound; lia).
    split_and!.
    + done.
    + done.
    + done.
    + done.
    + intros m Hm. apply Hframe1. lia.
    + intros m rowm Hm Hrowm. assert (m = level) as -> by lia.
      exists v. rewrite Nat.sub_diag, Nat.pow_0_r, Nat.div_1_r.
      rewrite Hrow in Hrowm. injection Hrowm as <-. done.
    + intros m r a Hm1 Hm2. lia.
    + intros _. exists row'. replace (depth - 1)%nat with level by lia.
      split; [done|]. by rewrite <- Hi0.
    + intros; lia.
  - (* a level further down *)
    destruct (lookup_lt_is_Some_2 nodes (S level)) as [above Habove]; [lia|].
    assert (parents_ok (array_get zeroes level) row above) as Hpar.
    { apply (Hok level); [lia|lia|done|done]. }
    assert (i / 2 <= length above)%nat as Hi2.
    { destruct Hpar as [Hl _]. rewrite ceil_div_2 in Hl. lia. }
    destruct (IH (S level) (i / 2)%nat h nodes1 above) as
      (nodes' & r & Hrun & Hr & Hlen' & Hdom' & Hframe & Hpath & Hok' & Htop & _);
      try done; try lia.
    { rewrite Hframe1 by lia. done. }
    { rewrite Nat.pow_succ_r' in Hbound. lia. }
    { intros m r a Hm1 Hm2 Hr Ha. rewrite Hframe1 in Hr, Ha by lia.
      apply (Hok m); [lia|done|done|done]. }
    exists nodes', r. rewrite Hstep, Hrun.
    assert (nodes' !! level = Some row') as Hrow''.
    { rewrite Hframe by lia. done. }
    split_and!.
    + done.
    + done.
    + done.
    + done.
    + intros m Hm. rewrite Hframe by lia. apply Hframe1. lia.
    + intros m rowm Hm Hrowm.
      destruct (decide (m = level)) as [->|Hne].
      * exists v. rewrite Nat.sub_diag, Nat.pow_0_r, Nat.div_1_r.
        rewrite Hrow in Hrowm. injection Hrowm as <-. done.
      * destruct (Hpath m rowm) as (w & Hw & Hwi & Hwlt & _); [lia|by rewrite Hframe1|].
        exists w.
        replace (i / 2 ^ (m - level))%nat with (i / 2 / 2 ^ (m - S level))%nat.
        { split_and!; [done|done| |intros ->; lia].
          intros Hilt. apply Hwlt. destruct Hpar as [Hl _].
          rewrite ceil_div_2 in Hl. lia. }
        rewrite Nat.Div0.div_div.
        replace (m - level)%nat with (S (m - S level)) by lia.
        by rewrite Nat.pow_succ_r'.
    + intros m r0 a Hm1 Hm2 Hr0 Ha.
      destruct (decide (m = level)) as [->|Hne].
      * rewrite Hrow'' in Hr0. injection Hr0 as <-.
        destruct (Hpath (S level) above) as (w & Hw & _ & _ & Hwv); [lia|by rewrite Hframe1|].
        rewrite Hwv in Hw by done.
        rewrite Nat.sub_diag, Nat.pow_0_r, Nat.div_1_r in Hw.
        rewrite Hw in Ha. injection Ha as <-.
        by apply parents_ok_set.
      * apply (Hok' m); [lia|done|done|done].
    + intros _. apply Htop. lia.
    + intros; lia.
Qed.


(** *** The constructor *)


Lemma zeroes_loop_spec steps :
  forall z acc, dom z ->
    exists zs top,
      IMT.zeroes_loop hash steps z acc = Ok (acc ++ zs, top) /\
      length zs = steps /\ Forall dom zs /\ dom top /\ zero_chain z zs top.
Proof.
  induction steps as [|s IH]; intros z acc Hz.
  - exists [], z. simpl. rewrite app_nil_r. done.
  - destruct (hash_dom z z Hz Hz) as (z1 & Hz1 & Hz1dom).
    destruct (IH z1 (acc ++ [z]) Hz1dom) as (zs & top & Hrun & Hlen & Hdom & Htop & Hchain).
    exists (z :: zs), top. cbn [IMT.zeroes_loop].
    change (replicate IMT.arity z) with [z; z]. rewrite Hz1, bind_Ok, Hrun.
    rewrite <- app_assoc. simpl. split_and!; try done.
    + by rewrite Hlen.
    + by constructor.
    + by exists z1.
Qed.

Lemma zero_chain_head z zs top k a :
  zero_chain z zs top -> zs !! k = Some a ->
  exists b, hash [a; a] = Ok b /\
    match zs !! S k with Some c => c = b | None => top = b end.
Proof.
  revert z k. induction zs as [|z0 rest IH]; intros z k Hc Hk; [done|].
  destruct Hc as (-> & z1 & Hz1 & Hrest).
  destruct k as [|k].
  - simpl in Hk. injection Hk as <-. exists z1. split; [done|].
    destruct rest as [|z2 rest']; simpl in *; [done|]. by destruct Hrest as [-> _].
  - simpl in Hk. apply (IH z1 k Hrest Hk).
Qed.

Lemma nullish_get row zero k :
  Forall dom row ->
  nullish (array_get row k) zero
  = if (k <? length row)%nat then array_get row k else zero.
Proof.
  intros Hrow. destruct (Nat.ltb_spec k (length row)) as [Hk|Hk].
  - pose proof (dom_defined _ (array_get_Forall dom row k Hk Hrow)) as Hd.
    by destruct (array_get row k).
  - by rewrite array_get_ge.
Qed.

Lemma parents_loop_spec row zero :
  Forall dom row -> dom zero ->
  forall count index parents,
    length parents = index ->
    (index + count = IMT.ceil_div (length row) 2)%nat ->
    (forall j, (j < index)%nat -> hash (pair_of row zero j) = Ok (array_get parents j)) ->
    Forall dom parents ->
    exists parents',
      IMT.parents_loop hash count index row zero parents = Ok parents' /\
      parents_ok zero row parents' /\ Forall dom parents'.
Proof.
  intros Hrow Hz. induction count as [|c IH]; intros index parents Hlen Hcount Hpt Hdom.
  - exists parents. simpl. split; [done|]. split; [|done].
    split; [lia|]. intros j Hj. apply Hpt. lia.
  - destruct (hash_pair row zero index Hrow Hz) as (h & Hh & Hhdom).
    destruct (IH (S index) (array_set parents index h)) as (parents' & Hrun & Hok & Hdom').
    + rewrite array_set_length. lia.
    + lia.
    + intros j Hj. destruct (decide (j = index)) as [->|Hne].
      * by rewrite array_get_set_eq.
      * rewrite array_get_set_ne by done. apply Hpt. lia.
    + apply array_set_Forall; [lia|done|done].
    + exists parents'. cbn [IMT.parents_loop].
      change (seq 0 IMT.arity) with [0; 1]%nat. cbn [map].
      rewrite !nullish_get by done.
      replace (index * IMT.arity + 0)%nat with (2 * index)%nat by (unfold IMT.arity; lia).
      replace (index * IMT.arity + 1)%nat with (2 * index + 1)%nat by (unfold IMT.arity; lia).
      fold (pair_of row zero index). rewrite Hh, bind_Ok. done.
Qed.

Lemma levels_loop_spec zeroes depth :
  Forall dom zeroes -> length zeroes = depth ->
  forall steps level nodes row,
    (level + steps = depth)%nat ->
    length nodes = S depth ->
    Forall (Forall dom) nodes ->
    nodes !! level = Some row ->
    (1 <= length row <= 2 ^ steps)%nat ->
    (forall m, (level < m <= depth)%nat -> nodes !! m = Some []) ->
    (forall m rowm above, (S m <= level)%nat ->
       nodes !! m = Some rowm -> nodes !! S m = Some above ->
       parents_ok (array_get zeroes m) rowm above) ->
    exists nodes',
      IMT.levels_loop hash steps level nodes zeroes = Ok nodes' /\
      length nodes' = S depth /\
      Forall (Forall dom) nodes' /\
      (forall m, (m <= level)%nat -> nodes' !! m = nodes !! m) /\
      (forall m rowm above, (S m <= depth)%nat ->
         nodes' !! m = Some rowm -> nodes' !! S m = Some above ->
         parents_ok (array_get zeroes m) rowm above) /\
      (exists r, nodes' !! depth = Some [r]).
Proof.
  intros Hzdom Hzlen.
  induction steps as [|s IH]; intros level nodes row Hlev Hlen Hdom Hrow Hsize Hempty Hok.
  - exists nodes. cbn [IMT.levels_loop]. split_and!; try done.
    + intros m rowm above Hm. apply Hok. lia.
    + replace depth with level by lia. rewrite Hrow.
      destruct row as [|r [|r' row]]; simpl in Hsize; try lia. by exists r.
  - assert (nodes !! S level = Some []) as Habove by (apply Hempty; lia).
    assert (Forall dom row) as Hrowdom by (eapply Forall_lookup_1; eauto).
    assert (dom (array_get zeroes level)) as Hz by (apply array_get_Forall; [lia|done]).
    destruct (parents_loop_spec row (array_get zeroes level) Hrowdom Hz
                (IMT.ceil_div (length row) 2) 0 []) as (parents & Hrun & Hpar & Hpdom);
      [done|lia|intros; lia|done|].
    set (nodes1 := <[S level := parents]> nodes).
    assert (forall m, m <> S level -> nodes1 !! m = nodes !! m) as Hframe1.
    { intros m Hm. unfold nodes1. by rewrite list_lookup_insert_ne. }
    assert (nodes1 !! S level = Some parents) as Hp1.
    { apply list_lookup_insert_eq. lia. }
    destruct (IH (S level) nodes1 parents) as (nodes' & Hrun' & Hlen' & Hdom' & Hframe & Hok' & Htop).
    + lia.
    + unfold nodes1. by rewrite length_insert.
    + by apply Forall_insert.
    + done.
    + destruct Hpar as [Hl _]. rewrite Hl, ceil_div_2.
      rewrite Nat.pow_succ_r' in Hsize. lia.
    + intros m Hm. rewrite Hframe1 by lia. apply Hempty. lia.
    + intros m rowm above Hm Hrowm Ha.
      destruct (decide (m = level)) as [->|Hne].
      * rewrite Hframe1 in Hrowm by lia. rewrite Hrow in Hrowm. injection Hrowm as <-.
        rewrite Hp1 in Ha. injection Ha as <-. done.
      * rewrite Hframe1 in Hrowm, Ha by lia. apply (Hok m); [lia|done|done].
    + exists nodes'. cbn [IMT.levels_loop].
      rewrite (level_of_lookup _ _ _ Hrow), bind_Ok.
      rewrite (level_of_lookup _ _ _ Habove), bind_Ok.
      change IMT.arity with 2%nat. rewrite Hrun, bind_Ok. fold nodes1. rewrite Hrun'.
      split_and!; try done.
      intros m Hm. rewrite Hframe by lia. apply Hframe1. lia.
Qed.


(** *** Well-formed trees *)


Lemma checkParameter_scalar v name :
  v <> Undefined ->
  IMT.checkParameter v name [TNumber; TString; TBigint] = Ok tt.
Proof. by destruct v. Qed.

Lemma checkParameter_number n name :
  IMT.checkParameter (Num n) name [TNumber] = Ok tt.
Proof. done. Qed.


Lemma wf_root t :
  wf t -> exists r, IMT.tree_root t = Ok r /\ dom r /\ IMT._nodes t !! IMT._depth t = Some [r].
Proof.
  intros Hwf. destruct (wf_top t Hwf) as (rowtop & r & Hrt & Htop & Hr).
  exists r. unfold IMT.tree_root. rewrite (level_of_lookup _ _ _ Htop), bind_Ok.
  split; [done|]. split; [|done].
  pose proof (Forall_lookup_1 _ _ _ _ (wf_nodes_dom t Hwf) Htop) as Hd.
  by inversion Hd.
Qed.

(** The constructor on no leaves. *)
Lemma new_empty_spec depth zeroValue :
  1 <= depth <= 32 -> dom zeroValue ->
  exists zeroes top,
    IMT.new hash depth zeroValue []
    = Ok {| IMT._depth := Z.to_nat depth; IMT._zeroes := zeroes;
            IMT._nodes := replicate (Z.to_nat depth) [] ++ [[top]] |} /\
    length zeroes = Z.to_nat depth /\ Forall dom zeroes /\ dom top /\
    zero_chain zeroValue zeroes top.
Proof.
  intros Hd Hz.
  destruct (zeroes_loop_spec (Z.to_nat depth) zeroValue [] Hz)
    as (zeroes & top & Hrun & Hlen & Hdom & Htop & Hchain).
  exists zeroes, top. unfold IMT.new.
  rewrite checkParameter_number, bind_Ok.
  rewrite checkParameter_scalar, bind_Ok by (by apply dom_defined).
  destruct (Z.ltb_spec depth 1); [lia|].
  unfold IMT.maxDepth. destruct (Z.ltb_spec 32 depth); [lia|].
  cbn [orb]. change (Z.of_nat (length [])) with 0.
  destruct (Z.ltb_spec (Z.of_nat IMT.arity ^ depth) 0) as [Hneg|_].
  { pose proof (Z.pow_nonneg (Z.of_nat IMT.arity) depth). unfold IMT.arity in *. lia. }
  rewrite Hrun, bind_Ok. simpl app at 1. cbn [length Nat.ltb Nat.leb].
  assert ((replicate (Z.to_nat depth) ([] : list Node) ++ [[]]) !! Z.to_nat depth = Some [])
    as Htoprow.
  { rewrite lookup_app_r by (rewrite length_replicate; lia).
    rewrite length_replicate, Nat.sub_diag. done. }
  rewrite (level_of_lookup _ _ _ Htoprow), bind_Ok.
  split; [|done]. do 2 f_equal.
  change (array_set [] 0 top) with [top].
  apply list_eq. intros m.
  destruct (decide (m = Z.to_nat depth)) as [->|Hne].
  - rewrite list_lookup_insert_eq by (rewrite length_app, length_replicate; simpl; lia).
    rewrite lookup_app_r by (rewrite length_replicate; lia).
    by rewrite length_replicate, Nat.sub_diag.
  - rewrite list_lookup_insert_ne by done.
    destruct (Nat.lt_ge_cases m (Z.to_nat depth)) as [Hm|Hm].
    + rewrite !lookup_app_l by (rewrite length_replicate; lia). done.
    + rewrite !lookup_app_r by (rewrite length_replicate; lia).
      rewrite length_replicate.
      destruct (m - Z.to_nat depth)%nat as [|k] eqn:Hk; [lia|done].
Qed.

Lemma zero_chain_last z zs top :
  zs <> [] -> zero_chain z zs top ->
  hash [array_get zs (length zs - 1); array_get zs (length zs - 1)] = Ok top.
Proof.
  intros Hne Hc.
  destruct (lookup_lt_is_Some_2 zs (length zs - 1)) as [a Ha].
  { destruct zs; [done|simpl; lia]. }
  destruct (zero_chain_head z zs top _ a Hc Ha) as (b & Hb & Hnext).
  rewrite (lookup_ge_None_2 zs (S (length zs - 1))) in Hnext by lia.
  rewrite (array_get_lookup _ _ _ Ha). by rewrite Hnext.
Qed.

Lemma new_empty_wf depth zeroValue :
  1 <= depth <= 32 -> dom zeroValue ->
  exists t, IMT.new hash depth zeroValue [] = Ok t /\ wf t /\
            IMT._depth t = Z.to_nat depth /\ IMT._nodes t !! 0%nat = Some [].
Proof.
  intros Hd Hz.
  destruct (new_empty_spec depth zeroValue Hd Hz)
    as (zeroes & top & Hnew & Hlen & Hdom & Htop & Hchain).
  eexists. split; [exact Hnew|].
  set (d := Z.to_nat depth) in *.
  assert (forall m, (m < d)%nat -> (replicate d ([] : list Node) ++ [[top]]) !! m = Some [])
    as Hlow.
  { intros m Hm. rewrite lookup_app_l by (rewrite length_replicate; lia).
    by apply lookup_replicate_2. }
  assert ((replicate d ([] : list Node) ++ [[top]]) !! d = Some [top]) as Hhigh.
  { rewrite lookup_app_r by (rewrite length_replicate; lia).
    by rewrite length_replicate, Nat.sub_diag. }
  split; [|split; [done|apply Hlow; lia]].
  constructor; cbn [IMT._depth IMT._zeroes IMT._nodes].
  - lia.
  - done.
  - done.
  - rewrite length_app, length_replicate. simpl. lia.
  - apply Forall_app. split.
    + apply Forall_replicate. constructor.
    + repeat constructor. done.
  - intros leaves Hl. rewrite Hlow in Hl by lia. injection Hl as <-. simpl. lia.
  - intros m row above _ Hm Hrow Habove.
    rewrite Hlow in Hrow, Habove by lia. injection Hrow as <-. injection Habove as <-.
    split; [done|]. simpl. intros; lia.
  - exists [], top. split_and!; [apply Hlow; lia|done|].
    unfold pair_of. simpl. rewrite <- Hlen.
    apply (zero_chain_last zeroValue); [|done].
    destruct zeroes; [simpl in Hlen; lia|done].
Qed.

(** The constructor on a list of leaves. *)
Lemma new_leaves_wf depth zeroValue leaves :
  1 <= depth <= 32 -> dom zeroValue -> Forall dom leaves ->
  leaves <> [] -> Z.of_nat (length leaves) <= 2 ^ depth ->
  exists t, IMT.new hash depth zeroValue leaves = Ok t /\ wf t /\
            IMT._depth t = Z.to_nat depth /\ IMT._nodes t !! 0%nat = Some leaves /\
            exists t0, IMT.new hash depth zeroValue [] = Ok t0 /\
                       IMT._zeroes t = IMT._zeroes t0.
Proof.
  intros Hd Hz Hleaves Hne Hcap.
  destruct (new_empty_spec depth zeroValue Hd Hz)
    as (zeroes & top & Hnew0 & Hlen & Hdom & Htop & Hchain).
  destruct (zeroes_loop_spec (Z.to_nat depth) zeroValue [] Hz)
    as (zeroes' & top' & Hrun & _).
  assert (IMT.zeroes_loop hash (Z.to_nat depth) zeroValue [] = Ok (zeroes, top)) as Hz0.
  { clear Hrun. unfold IMT.new in Hnew0.
    rewrite checkParameter_number, bind_Ok in Hnew0.
    rewrite checkParameter_scalar, bind_Ok in Hnew0 by (by apply dom_defined).
    destruct (Z.ltb_spec depth 1); [lia|].
    unfold IMT.maxDepth in Hnew0. destruct (Z.ltb_spec 32 depth); [lia|].
    cbn [orb] in Hnew0.
    destruct (Z.of_nat IMT.arity ^ depth <? Z.of_nat (length [])); [done|].
    destruct (IMT.zeroes_loop hash (Z.to_nat depth) zeroValue []) as [e|[zs tp]]; [done|].
    rewrite bind_Ok in Hnew0. cbn [length Nat.ltb Nat.leb] in Hnew0.
    destruct (IMT.level_of _ _) as [e|toprow]; [done|].
    rewrite bind_Ok in Hnew0. injection Hnew0 as Hzs Hnodes.
    subst zs. f_equal. f_equal.
    assert ((<[Z.to_nat depth:=array_set toprow 0 tp]>
               (replicate (Z.to_nat depth) [] ++ [[]])) !! Z.to_nat depth
            = (replicate (Z.to_nat depth) [] ++ [[top]]) !! Z.to_nat depth) as Heq
      by (by rewrite Hnodes).
    rewrite list_lookup_insert_eq in Heq
      by (rewrite length_app, length_replicate; simpl; lia).
    rewrite lookup_app_r in Heq by (rewrite length_replicate; lia).
    rewrite length_replicate, Nat.sub_diag in Heq. simpl in Heq.
    injection Heq as Heq.
    assert (array_get (array_set toprow 0 tp) 0 = array_get [top] 0) as Hg by (by rewrite Heq).
    rewrite array_get_set_eq in Hg. done. }
  set (d := Z.to_nat depth) in *.
  set (nodes0 := <[0%nat := leaves]> (replicate d [] ++ [[]])).
  assert (length nodes0 = S d) as Hlen0.
  { unfold nodes0. rewrite length_insert, length_app, length_replicate. simpl. lia. }
  assert (nodes0 !! 0%nat = Some leaves) as Hl0.
  { unfold nodes0. apply list_lookup_insert_eq.
    rewrite length_app, length_replicate. simpl. lia. }
  assert (forall m, (0 < m <= d)%nat -> nodes0 !! m = Some []) as Hrest.
  { intros m Hm. unfold nodes0. rewrite list_lookup_insert_ne by lia.
    destruct (decide (m = d)) as [->|Hmd].
    - rewrite lookup_app_r by (rewrite length_replicate; lia).
      by rewrite length_replicate, Nat.sub_diag.
    - rewrite lookup_app_l by (rewrite length_replicate; lia).
      apply lookup_replicate_2. lia. }
  assert (1 <= length leaves <= 2 ^ d)%nat as Hsize.
  { split; [destruct leaves; [done|simpl; lia]|].
    assert (Z.of_nat (2 ^ d) = 2 ^ depth) as Hpow.
    { unfold d. rewrite Nat2Z.inj_pow. f_equal. lia. }
    lia. }
  destruct (levels_loop_spec zeroes d Hdom Hlen d 0%nat nodes0 leaves)
    as (nodes & Hrun' & Hlen' & Hdom' & Hframe & Hok & r & Hr); try done.
  { apply Forall_insert; [|done]. apply Forall_app. split.
    - apply Forall_replicate. constructor.
    - repeat constructor. }
  { intros; lia. }
  exists {| IMT._depth := d; IMT._zeroes := zeroes; IMT._nodes := nodes |}.
  assert (nodes !! 0%nat = Some leaves) as Hleaves0 by (rewrite Hframe by lia; done).
  split_and!.
  - unfold IMT.new.
    rewrite checkParameter_number, bind_Ok.
    rewrite checkParameter_scalar, bind_Ok by (by apply dom_defined).
    destruct (Z.ltb_spec depth 1); [lia|].
    unfold IMT.maxDepth. destruct (Z.ltb_spec 32 depth); [lia|].
    cbn [orb].
    destruct (Z.ltb_spec (Z.of_nat IMT.arity ^ depth) (Z.of_nat (length leaves))) as [Hbad|_].
    { unfold IMT.arity in Hbad. change (Z.of_nat 2) with 2 in Hbad. lia. }
    fold d. rewrite Hz0, bind_Ok.
    destruct (Nat.ltb_spec 0 (length leaves)); [|lia].
    fold nodes0. rewrite Hrun', bind_Ok. done.
  - constructor; cbn [IMT._depth IMT._zeroes IMT._nodes]; try done.
    + unfold d. lia.
    + intros leaves' Hl'. rewrite Hleaves0 in Hl'. injection Hl' as <-. lia.
    + intros m row above _ Hm. apply Hok. lia.
    + destruct (lookup_lt_is_Some_2 nodes (d - 1)) as [rowtop Hrt]; [lia|].
      exists rowtop, r. split_and!; [done|done|].
      assert (parents_ok (array_get zeroes (d - 1)) rowtop [r]) as [_ Hp].
      { apply (Hok (d - 1)%nat); [unfold d; lia|done|].
        replace (S (d - 1)) with d by (unfold d; lia). done. }
      apply (Hp 0%nat). simpl. lia.
  - done.
  - done.
  - eexists. split; [exact Hnew0|done].
Qed.


(** *** Writing a leaf *)

(** [insert] and [update] share one loop; on a well-formed tree, writing
    [v] at leaf [i] (an existing leaf, or the first free place) gives a
    well-formed tree again, and touches the nodes on the path from [i] to
    the root only. *)
Lemma set_path_wf t leaves i v :
  wf t -> IMT._nodes t !! 0%nat = Some leaves ->
  (i <= length leaves)%nat -> (i < 2 ^ IMT._depth t)%nat -> dom v ->
  exists r t',
    bind (IMT.insert_loop hash (IMT._depth t) 0 i v (IMT._nodes t) (IMT._zeroes t))
         (IMT.set_root t)
    = Ok t' /\
    wf t' /\
    IMT._depth t' = IMT._depth t /\ IMT._zeroes t' = IMT._zeroes t /\
    IMT._nodes t' !! 0%nat = Some (array_set leaves i v) /\
    IMT._nodes t' !! IMT._depth t = Some [r] /\
    (forall m rowm, (m < IMT._depth t)%nat -> IMT._nodes t !! m = Some rowm ->
       exists w, IMT._nodes t' !! m = Some (array_set rowm (i / 2 ^ m) w) /\
                 ((i < length leaves)%nat -> (i / 2 ^ m < length rowm)%nat)).
Proof.
  intros Hwf Hleaves Hi Hbound Hv.
  destruct t as [depth zeroes nodes]. cbn [IMT._depth IMT._zeroes IMT._nodes] in *.
  pose proof (wf_depth _ Hwf) as Hd. pose proof (wf_nodes_len _ Hwf) as Hlen.
  pose proof (wf_levels _ Hwf) as Hok.
  cbn [IMT._depth IMT._zeroes IMT._nodes] in *.
  destruct (insert_loop_spec zeroes depth (wf_zeroes_dom _ Hwf) (wf_zeroes_len _ Hwf)
              depth 0%nat i v nodes leaves)
    as (nodes' & r & Hrun & Hr & Hlen' & Hdom' & Hframe & Hpath & Hok' & Htop & _);
    try done.
  { exact (wf_nodes_dom _ Hwf). }
  destruct (wf_top _ Hwf) as (rowtop0 & r0 & _ & Htop0 & _).
  cbn [IMT._depth IMT._zeroes IMT._nodes] in *.
  assert (nodes' !! depth = Some [r0]) as Htop'.
  { rewrite Hframe by lia. done. }
  destruct Htop as (rowtop & Hrowtop & Hhash); [lia|].
  set (nodes'' := <[depth := [r]]> nodes').
  assert (forall m, m <> depth -> nodes'' !! m = nodes' !! m) as Hframe''.
  { intros m Hm. unfold nodes''. by rewrite list_lookup_insert_ne. }
  assert (nodes'' !! depth = Some [r]) as Htop''.
  { apply list_lookup_insert_eq. lia. }
  exists r, {| IMT._depth := depth; IMT._zeroes := zeroes; IMT._nodes := nodes'' |}.
  cbn [IMT._depth IMT._zeroes IMT._nodes].
  assert (nodes'' !! 0%nat = Some (array_set leaves i v)) as Hleaves''.
  { rewrite Hframe'' by lia.
    destruct (Hpath 0%nat leaves) as (w & Hw & _ & _ & Hwv); [lia|done|].
    rewrite Hwv in Hw by done.
    by rewrite Nat.sub_diag, Nat.pow_0_r, Nat.div_1_r in Hw. }
  split_and!.
  - rewrite Hrun, bind_Ok. unfold IMT.set_root.
    cbn [IMT._depth IMT._zeroes IMT._nodes].
    rewrite (level_of_lookup _ _ _ Htop'), bind_Ok. done.
  - constructor; cbn [IMT._depth IMT._zeroes IMT._nodes].
    + done.
    + exact (wf_zeroes_len _ Hwf).
    + exact (wf_zeroes_dom _ Hwf).
    + unfold nodes''. by rewrite length_insert.
    + apply Forall_insert; [done|]. by repeat constructor.
    + intros leaves' Hl'. rewrite Hleaves'' in Hl'. injection Hl' as <-.
      rewrite array_set_length.
      pose proof (wf_capacity _ Hwf leaves Hleaves) as Hcap. simpl in Hcap. lia.
    + intros m row above _ Hm Hrow Habove.
      rewrite Hframe'' in Hrow, Habove by lia.
      apply (Hok' m); [lia|done|done|done].
    + exists rowtop, r. split_and!; [|done|done].
      rewrite Hframe'' by lia. done.
  - done.
  - done.
  - done.
  - done.
  - intros m rowm Hm Hrowm.
    destruct (Hpath m rowm) as (w & Hw & _ & Hlt & _); [lia|done|].
    exists w. rewrite Nat.sub_0_r in *. rewrite Hframe'' by lia. done.
Qed.

Lemma tree_insert_spec t leaves x :
  wf t -> IMT._nodes t !! 0%nat = Some leaves ->
  (length leaves < 2 ^ IMT._depth t)%nat -> dom x ->
  exists t',
    IMT.tree_insert hash t x = Ok t' /\ wf t' /\
    IMT._depth t' = IMT._depth t /\ IMT._zeroes t' = IMT._zeroes t /\
    IMT._nodes t' !! 0%nat = Some (leaves ++ [x]).
Proof.
  intros Hwf Hleaves Hfree Hx.
  destruct (set_path_wf t leaves (length leaves) x) as
    (r & t' & Hrun & Hwf' & Hd & Hz & Hl & _); try done.
  exists t'. rewrite array_set_append in Hl. split_and!; try done.
  unfold IMT.tree_insert, IMT.insert.
  rewrite checkParameter_scalar, bind_Ok by (by apply dom_defined).
  rewrite (level_of_lookup _ _ _ Hleaves), bind_Ok.
  change IMT.arity with 2%nat.
  destruct (Nat.leb_spec (2 ^ IMT._depth t) (length leaves)); [lia|].
  exact Hrun.
Qed.

Lemma tree_update_spec t leaves i v :
  wf t -> IMT._nodes t !! 0%nat = Some leaves ->
  0 <= i < Z.of_nat (length leaves) -> dom v ->
  exists r t',
    IMT.tree_update hash t i v = Ok t' /\ wf t' /\
    IMT._depth t' = IMT._depth t /\ IMT._zeroes t' = IMT._zeroes t /\
    IMT._nodes t' !! 0%nat = Some (<[Z.to_nat i := v]> leaves) /\
    IMT._nodes t' !! IMT._depth t = Some [r] /\
    (forall m rowm, (m < IMT._depth t)%nat -> IMT._nodes t !! m = Some rowm ->
       (Z.to_nat i / 2 ^ m < length rowm)%nat /\
       exists w, IMT._nodes t' !! m = Some (<[(Z.to_nat i / 2 ^ m)%nat := w]> rowm)).
Proof.
  intros Hwf Hleaves Hi Hv.
  pose proof (wf_capacity _ Hwf leaves Hleaves) as Hcap.
  destruct (set_path_wf t leaves (Z.to_nat i) v) as
    (r & t' & Hrun & Hwf' & Hd & Hz & Hl & Htop & Hpath); try done; try lia.
  exists r, t'.
  assert (forall (row : list Node) k w, (k < length row)%nat ->
            array_set row k w = <[k := w]> row) as Hset.
  { intros row k w Hk. unfold array_set. by destruct (Nat.ltb_spec k (length row)); [|lia]. }
  split_and!; try done.
  - unfold IMT.tree_update, IMT.update.
    rewrite checkParameter_number, bind_Ok.
    rewrite (level_of_lookup _ _ _ Hleaves), bind_Ok.
    destruct (Z.ltb_spec i 0); [lia|].
    destruct (Z.leb_spec (Z.of_nat (length leaves)) i); [lia|].
    cbn [orb]. rewrite update_loop_insert_loop. exact Hrun.
  - rewrite Hl. f_equal. apply Hset. lia.
  - intros m rowm Hm Hrowm.
    destruct (Hpath m rowm Hm Hrowm) as (w & Hw & Hlt).
    split; [apply Hlt; lia|].
    exists w. rewrite Hw. f_equal. apply Hset. apply Hlt. lia.
Qed.

(** *** A well-formed tree is determined by its leaves *)

Lemma array_ext (a b : list Node) :
  length a = length b ->
  (forall j, (j < length a)%nat -> array_get a j = array_get b j) ->
  a = b.
Proof.
  intros Hlen Hpt. apply list_eq. intros j.
  destruct (Nat.lt_ge_cases j (length a)) as [Hj|Hj].
  - rewrite (array_get_lt a j Hj), (array_get_lt b j) by lia. f_equal. by apply Hpt.
  - rewrite !lookup_ge_None_2 by lia. done.
Qed.

Lemma parents_ok_unique zero row a b :
  parents_ok zero row a -> parents_ok zero row b -> a = b.
Proof.
  intros [Hla Ha] [Hlb Hb]. apply array_ext; [congruence|].
  intros j Hj. specialize (Ha j Hj). rewrite Hb in Ha by lia. by injection Ha.
Qed.

Lemma wf_unique t1 t2 :
  wf t1 -> wf t2 ->
  IMT._depth t1 = IMT._depth t2 -> IMT._zeroes t1 = IMT._zeroes t2 ->
  IMT._nodes t1 !! 0%nat = IMT._nodes t2 !! 0%nat ->
  t1 = t2.
Proof.
  intros Hwf1 Hwf2 Hd Hz Hl.
  destruct t1 as [depth zeroes nodes1], t2 as [depth2 zeroes2 nodes2].
  cbn [IMT._depth IMT._zeroes IMT._nodes] in *. subst depth2 zeroes2. f_equal.
  pose proof (wf_nodes_len _ Hwf1) as Hlen1. pose proof (wf_nodes_len _ Hwf2) as Hlen2.
  pose proof (wf_levels _ Hwf1) as Hok1. pose proof (wf_levels _ Hwf2) as Hok2.
  pose proof (wf_depth _ Hwf1) as Hdep.
  destruct (wf_top _ Hwf1) as (rt1 & r1 & Hrt1 & Htop1 & Hr1).
  destruct (wf_top _ Hwf2) as (rt2 & r2 & Hrt2 & Htop2 & Hr2).
  cbn [IMT._depth IMT._zeroes IMT._nodes] in *.
  assert (forall m, (m <= depth)%nat -> nodes1 !! m = nodes2 !! m) as Hall.
  { induction m as [|m IH]; intros Hm; [done|].
    specialize (IH ltac:(lia)).
    destruct (decide (S m = depth)) as [Heq|Hne].
    - rewrite Heq, Htop1, Htop2. do 2 f_equal.
      replace (depth - 1)%nat with m in * by lia.
      rewrite Hrt1, Hrt2 in IH. injection IH as <-.
      rewrite Hr1 in Hr2. by injection Hr2.
    - destruct (lookup_lt_is_Some_2 nodes1 m) as [row Hrow]; [lia|].
      destruct (lookup_lt_is_Some_2 nodes1 (S m)) as [a Ha]; [lia|].
      destruct (lookup_lt_is_Some_2 nodes2 (S m)) as [b Hb]; [lia|].
      rewrite Ha, Hb. f_equal.
      apply (parents_ok_unique (array_get zeroes m) row).
      + apply (Hok1 m); [lia|lia|done|done].
      + apply (Hok2 m); [lia|lia| |done]. by rewrite <- IH. }
  apply list_eq. intros m.
  destruct (Nat.le_gt_cases m depth) as [Hm|Hm]; [by apply Hall|].
  rewrite !lookup_ge_None_2 by lia. done.
Qed.


(** *** Proofs of membership *)


Lemma createProof_window row zeroes level index :
  flat_map (fun i =>
              if (i =? index)%nat then []
              else if (i <? length row)%nat then [array_get row i]
              else [array_get zeroes level])
           (seq (index - index mod IMT.arity) IMT.arity)
  = [sibling_of row (array_get zeroes level) index].
Proof.
  unfold sibling_of, IMT.arity. change (seq ?s 2) with [s; S s]. cbn [flat_map].
  destruct (Nat.eqb_spec (index mod 2) 0) as [H0|H1].
  - replace (index - index mod 2)%nat with index by lia.
    rewrite Nat.eqb_refl. destruct (Nat.eqb_spec (S index) index); [lia|].
    replace (index + 1)%nat with (S index) by lia.
    by destruct (S index <? length row)%nat.
  - replace (index - index mod 2)%nat with (index - 1)%nat by lia.
    replace (S (index - 1)) with index by lia.
    rewrite Nat.eqb_refl. destruct (Nat.eqb_spec (index - 1) index); [lia|].
    rewrite app_nil_r. by destruct (index - 1 <? length row)%nat.
Qed.

(** The windows of [createProof] hold one node each: the sibling. *)
Lemma createProof_loop_windows zeroes steps :
  forall level i nodes,
    (forall m, (level <= m < level + steps)%nat -> is_Some (nodes !! m)) ->
    exists pis sibs,
      IMT.createProof_loop steps level i nodes zeroes = Ok (pis, sibs) /\
      length pis = steps /\ length sibs = steps /\
      forall k row, (k < steps)%nat -> nodes !! (level + k)%nat = Some row ->
        sibs !! k = Some [sibling_of row (array_get zeroes (level + k)) (i / 2 ^ k)] /\
        pis !! k = Some (Z.of_nat ((i / 2 ^ k) mod 2)).
Proof.
  induction steps as [|s IH]; intros level i nodes Hrows.
  - exists [], []. cbn [IMT.createProof_loop]. split_and!; try done. intros; lia.
  - destruct (Hrows level) as [row Hrow]; [lia|].
    destruct (IH (S level) (i / 2)%nat nodes) as (pis & sibs & Hrun & Hlp & Hls & Hk).
    { intros m Hm. apply Hrows. lia. }
    exists (Z.of_nat (i mod 2) :: pis),
           ([sibling_of row (array_get zeroes level) i] :: sibs).
    cbn [IMT.createProof_loop].
    rewrite (level_of_lookup _ _ _ Hrow), bind_Ok, createProof_window.
    change (i `div` IMT.arity)%nat with (i / 2)%nat. rewrite Hrun, bind_Ok.
    split_and!; [done|simpl; lia|simpl; lia|].
    intros k rowk Hlt Hrowk. destruct k as [|k].
    + rewrite Nat.add_0_r in *. rewrite Hrow in Hrowk. injection Hrowk as <-.
      rewrite Nat.pow_0_r, Nat.div_1_r. done.
    + replace (level + S k)%nat with (S level + k)%nat in * by lia.
      destruct (Hk k rowk) as [Hs Hp]; [lia|done|].
      replace (i / 2 ^ S k)%nat with (i / 2 / 2 ^ k)%nat.
      { done. }
      rewrite Nat.Div0.div_div. by rewrite Nat.pow_succ_r'.
Qed.

Lemma splice_insert_0 s v : splice_insert [s] 0 v = [v; s].
Proof. reflexivity. Qed.

Lemma splice_insert_1 s v : splice_insert [s] 1 v = [s; v].
Proof. reflexivity. Qed.

Lemma splice_pair row zero i :
  (i < length row)%nat ->
  splice_insert [sibling_of row zero i] (Z.of_nat (i mod 2)) (array_get row i)
  = pair_of row zero (i / 2).
Proof.
  intros Hi. unfold sibling_of, pair_of.
  destruct (Nat.eqb_spec (i mod 2) 0) as [H0|H1].
  - rewrite H0. change (Z.of_nat 0) with 0. rewrite splice_insert_0.
    replace (2 * (i / 2))%nat with i by lia.
    destruct (Nat.ltb_spec i (length row)); [|lia]. done.
  - assert (i mod 2 = 1)%nat as -> by lia.
    change (Z.of_nat 1) with 1. rewrite splice_insert_1.
    replace (2 * (i / 2) + 1)%nat with i by lia.
    replace (2 * (i / 2))%nat with (i - 1)%nat by lia.
    destruct (Nat.ltb_spec i (length row)); [|lia].
    destruct (Nat.ltb_spec (i - 1) (length row)); [|lia]. done.
Qed.

(** Folding the windows of [createProof] over the leaf gives the root. *)
Lemma createProof_loop_verifies zeroes depth r nodes :
  length nodes = S depth ->
  nodes !! depth = Some [r] ->
  (exists rowtop, nodes !! (depth - 1)%nat = Some rowtop /\
     hash (pair_of rowtop (array_get zeroes (depth - 1)) 0) = Ok r) ->
  forall steps level i row pis sibs,
    (level + steps = depth)%nat ->
    nodes !! level = Some row ->
    (i < length row)%nat -> (i < 2 ^ steps)%nat ->
    levels_ok depth nodes zeroes level ->
    IMT.createProof_loop steps level i nodes zeroes = Ok (pis, sibs) ->
    forall prefix,
      IMT.verifyProof_loop hash sibs (length prefix) (prefix ++ pis) (array_get row i)
      = Ok r.
Proof.
  intros Hlen Htop (rowtop & Hrowtop & Hr).
  induction steps as [|s IH]; intros level i row pis sibs Hlev Hrow Hi Hbound Hok Hrun prefix.
  - cbn [IMT.createProof_loop] in Hrun. injection Hrun as <- <-.
    replace level with depth in Hrow by lia. rewrite Htop in Hrow. injection Hrow as <-.
    simpl in Hi. replace i with 0%nat by lia. done.
  - cbn [IMT.createProof_loop] in Hrun.
    rewrite (level_of_lookup _ _ _ Hrow), bind_Ok, createProof_window in Hrun.
    change (i `div` IMT.arity)%nat with (i / 2)%nat in Hrun.
    change (i `mod` IMT.arity)%nat with (i mod 2)%nat in Hrun.
    remember (Z.of_nat (i mod 2)) as pos eqn:Hpos.
    destruct (IMT.createProof_loop s (S level) (i / 2) nodes zeroes)
      as [e|[pis' sibs']] eqn:Hrec; [done|].
    rewrite bind_Ok in Hrun. injection Hrun as <- <-.
    cbn [IMT.verifyProof_loop].
    assert (IMT.path_index (prefix ++ pos :: pis') (length prefix) = pos) as ->.
    { unfold IMT.path_index. rewrite lookup_app_r by lia.
      by rewrite Nat.sub_diag. }
    rewrite Hpos at 1. rewrite splice_pair by done.
    destruct (lookup_lt_is_Some_2 nodes (S level)) as [above Habove]; [lia|].
    assert (hash (pair_of row (array_get zeroes level) (i / 2)) = Ok (array_get above (i / 2))
            /\ (i / 2 < length above)%nat) as [Hh Hi2].
    { destruct (decide (S level = depth)) as [Heq|Hne].
      - assert (s = 0%nat) as -> by lia. simpl in Hbound.
        replace (i / 2)%nat with 0%nat by lia.
        rewrite Heq, Htop in Habove. injection Habove as <-.
        replace (depth - 1)%nat with level in * by lia.
        rewrite Hrow in Hrowtop. injection Hrowtop as <-.
        split; [done|simpl; lia].
      - destruct (Hok level row above) as [Hl Hpt]; [lia|lia|done|done|].
        rewrite ceil_div_2 in Hl. split; [apply Hpt|]; lia. }
    rewrite Hh, bind_Ok.
    replace (prefix ++ pos :: pis')
      with ((prefix ++ [pos]) ++ pis') by (by rewrite <- app_assoc).
    replace (S (length prefix)) with (length (prefix ++ [pos]))
      by (rewrite length_app; simpl; lia).
    apply (IH (S level) (i / 2)%nat above); try done; try lia.
    + rewrite Nat.pow_succ_r' in Hbound. lia.
    + intros m rowm a Hm1 Hm2. apply Hok. lia. done.
Qed.

Lemma strict_eq_refl v : strict_eq v v = true.
Proof.
  destruct v; simpl; [done|apply Z.eqb_refl|apply String.eqb_refl|apply Z.eqb_refl].
Qed.

(** On a well-formed tree [createProof] returns for every leaf, and
    [verifyProof] accepts what it returns. *)
Lemma verifyProof_proof_of (p : IMT.MerkleProof) :
  IMT.verifyProof hash p
  = bind (IMT.checkParameter (IMT.root p) "proof.root" [TNumber; TString; TBigint]) (fun _ =>
    bind (IMT.checkParameter (IMT.leaf p) "proof.leaf" [TNumber; TString; TBigint]) (fun _ =>
    bind (IMT.verifyProof_loop hash (IMT.siblings p) 0 (IMT.pathIndices p) (IMT.leaf p))
         (fun node => Ok (strict_eq (IMT.root p) node)))).
Proof. reflexivity. Qed.

Lemma createProof_verifies t leaves i :
  wf t -> IMT._nodes t !! 0%nat = Some leaves ->
  0 <= i < Z.of_nat (length leaves) ->
  exists p,
    IMT.tree_createProof t i = Ok p /\
    IMT.tree_root t = Ok (IMT.root p) /\
    IMT.leaf p = array_get leaves (Z.to_nat i) /\
    length (IMT.siblings p) = IMT._depth t /\
    length (IMT.pathIndices p) = IMT._depth t /\
    IMT.verifyProof hash p = Ok true.
Proof.
  intros Hwf Hleaves Hi.
  destruct (wf_root t Hwf) as (r & Hroot & Hrdom & Htop).
  destruct (wf_top t Hwf) as (rowtop & r' & Hrowtop & Htop' & Hr).
  rewrite Htop in Htop'. injection Htop' as <-.
  pose proof (wf_nodes_len t Hwf) as Hlen.
  pose proof (wf_capacity t Hwf leaves Hleaves) as Hcap.
  destruct (createProof_loop_windows (IMT._zeroes t) (IMT._depth t) 0 (Z.to_nat i)
              (IMT._nodes t)) as (pis & sibs & Hrun & Hlp & Hls & _).
  { intros m Hm. apply lookup_lt_is_Some_2. lia. }
  exists {| IMT.root := r; IMT.leaf := array_get leaves (Z.to_nat i);
            IMT.pathIndices := pis; IMT.siblings := sibs |}.
  cbn [IMT.root IMT.leaf IMT.pathIndices IMT.siblings].
  split_and!; try done.
  - unfold IMT.tree_createProof. rewrite Hroot, bind_Ok. unfold IMT.createProof.
    rewrite checkParameter_number, bind_Ok.
    rewrite (level_of_lookup _ _ _ Hleaves), bind_Ok.
    destruct (Z.ltb_spec i 0); [lia|].
    destruct (Z.leb_spec (Z.of_nat (length leaves)) i); [lia|].
    cbn [orb]. rewrite Hrun, bind_Ok. done.
  - rewrite verifyProof_proof_of. cbn [IMT.root IMT.leaf IMT.pathIndices IMT.siblings].
    rewrite checkParameter_scalar, bind_Ok by (by apply dom_defined).
    rewrite checkParameter_scalar, bind_Ok.
    2:{ apply dom_defined. apply array_get_Forall; [lia|].
        eapply Forall_lookup_1; [exact (wf_nodes_dom t Hwf)|exact Hleaves]. }
    pose proof (createProof_loop_verifies (IMT._zeroes t) (IMT._depth t) r (IMT._nodes t)
               Hlen Htop (ex_intro _ rowtop (conj Hrowtop Hr))
               (IMT._depth t) 0%nat (Z.to_nat i) leaves pis sibs
               ltac:(lia) Hleaves ltac:(lia) ltac:(lia) (wf_levels t Hwf) Hrun []) as Hfold.
    cbn [length app] in Hfold.
    rewrite Hfold, bind_Ok, strict_eq_refl. done.
Qed.


Lemma sibling_of_dom row zero index :
  Forall dom row -> dom zero -> dom (sibling_of row zero index).
Proof.
  intros Hrow Hz. unfold sibling_of.
  destruct (_ <? length row)%nat eqn:Hlt; [|done].
  apply Nat.ltb_lt in Hlt. by apply array_get_Forall.
Qed.

(** What [createProof] returns on a well-formed tree: at each level the
    position of the node on the path within its pair, and a window that
    holds the other node of the pair and nothing else. *)
Lemma tree_createProof_windows t leaves i p :
  wf t -> IMT._nodes t !! 0%nat = Some leaves ->
  0 <= i < Z.of_nat (length leaves) ->
  IMT.tree_createProof t i = Ok p ->
  length (IMT.siblings p) = IMT._depth t /\
  length (IMT.pathIndices p) = IMT._depth t /\
  forall k row, (k < IMT._depth t)%nat -> IMT._nodes t !! k = Some row ->
    IMT.siblings p !! k
    = Some [sibling_of row (array_get (IMT._zeroes t) k) (Z.to_nat i / 2 ^ k)] /\
    dom (sibling_of row (array_get (IMT._zeroes t) k) (Z.to_nat i / 2 ^ k)) /\
    IMT.pathIndices p !! k = Some (Z.of_nat ((Z.to_nat i / 2 ^ k) mod 2)).
Proof.
  intros Hwf Hleaves Hi Hp.
  destruct (wf_root t Hwf) as (r & Hroot & _).
  pose proof (wf_nodes_len t Hwf) as Hlen.
  destruct (createProof_loop_windows (IMT._zeroes t) (IMT._depth t) 0 (Z.to_nat i)
              (IMT._nodes t)) as (pis & sibs & Hrun & Hlp & Hls & Hk).
  { intros m Hm. apply lookup_lt_is_Some_2. lia. }
  unfold IMT.tree_createProof in Hp. rewrite Hroot, bind_Ok in Hp.
  unfold IMT.createProof in Hp.
  rewrite checkParameter_number, bind_Ok in Hp.
  rewrite (level_of_lookup _ _ _ Hleaves), bind_Ok in Hp.
  destruct (Z.ltb_spec i 0); [lia|].
  destruct (Z.leb_spec (Z.of_nat (length leaves)) i); [lia|].
  cbn [orb] in Hp. rewrite Hrun, bind_Ok in Hp. injection Hp as <-.
  cbn [IMT.siblings IMT.pathIndices].
  split_and!; [done|done|].
  intros k row Hlt Hrow. destruct (Hk k row Hlt Hrow) as [Hs Hpi].
  split_and!; [done| |done].
  apply sibling_of_dom.
  - eapply Forall_lookup_1; [exact (wf_nodes_dom t Hwf)|exact Hrow].
  - apply array_get_Forall; [|exact (wf_zeroes_dom t Hwf)].
    rewrite (wf_zeroes_len t Hwf). lia.
Qed.

(** *** Runs of inserts *)

Lemma insert_all_spec leaves :
  forall t current,
    wf t -> IMT._nodes t !! 0%nat = Some current ->
    (length current + length leaves <= 2 ^ IMT._depth t)%nat ->
    Forall dom leaves ->
    exists t',
      IMT.insert_all hash t leaves = Ok t' /\ wf t' /\
      IMT._depth t' = IMT._depth t /\ IMT._zeroes t' = IMT._zeroes t /\
      IMT._nodes t' !! 0%nat = Some (current ++ leaves).
Proof.
  induction leaves as [|x rest IH]; intros t current Hwf Hcur Hroom Hdom.
  - exists t. cbn [IMT.insert_all]. rewrite app_nil_r. done.
  - inversion Hdom as [|? ? Hx Hrest]; subst. simpl in Hroom.
    destruct (tree_insert_spec t current x Hwf Hcur ltac:(lia) Hx)
      as (t1 & Hins & Hwf1 & Hd1 & Hz1 & Hl1).
    destruct (IH t1 (current ++ [x]) Hwf1 Hl1) as (t' & Hrun & Hwf' & Hd' & Hz' & Hl').
    { rewrite Hd1, length_app. simpl. lia. }
    { done. }
    exists t'. cbn [IMT.insert_all]. rewrite Hins, bind_Ok, Hrun.
    rewrite <- app_assoc in Hl'. split_and!; try done; congruence.
Qed.


Lemma tree_update_same_off_path t leaves i v :
  wf t -> IMT._nodes t !! 0%nat = Some leaves ->
  0 <= i < Z.of_nat (length leaves) -> dom v ->
  exists t',
    IMT.tree_update hash t i v = Ok t' /\ wf t' /\
    IMT._nodes t' !! 0%nat = Some (<[Z.to_nat i := v]> leaves) /\
    same_off_path (Z.to_nat i) t t'.
Proof.
  intros Hwf Hleaves Hi Hv.
  destruct (tree_update_spec t leaves i v Hwf Hleaves Hi Hv)
    as (r & t' & Hrun & Hwf' & Hd & Hz & Hl & Htop & Hpath).
  exists t'. split_and!; try done.
  pose proof (wf_nodes_len t Hwf) as Hlen. pose proof (wf_nodes_len t' Hwf') as Hlen'.
  split_and!; [done|done|lia|].
  intros m row Hrow.
  destruct (Nat.lt_ge_cases m (IMT._depth t)) as [Hm|Hm].
  - destruct (Hpath m row Hm Hrow) as (Hidx & w & Hw).
    exists (<[(Z.to_nat i / 2 ^ m)%nat := w]> row). split_and!; [done|apply length_insert|].
    intros j Hj. by rewrite list_lookup_insert_ne.
  - assert (m = IMT._depth t) as ->.
    { pose proof (lookup_lt_Some _ _ _ Hrow). lia. }
    destruct (wf_root t Hwf) as (r0 & _ & _ & Htop0).
    rewrite Htop0 in Hrow. injection Hrow as <-.
    exists [r]. split_and!; [done|done|].
    pose proof (wf_capacity t Hwf leaves Hleaves) as Hcap.
    intros j Hj. rewrite Nat.div_small in Hj by lia.
    destruct j as [|j]; [done|done].
Qed.

(** ** The properties of the tree *)

(** C2. For every depth between 1 and 32, every zero value and every list
    of at most [2^depth] leaves (all of them values the hash function
    accepts), the constructor given the leaves and the constructor given no
    leaves followed by one [insert] per leaf, in order, both return, and the
    two trees have the same root. *)
Theorem bulk_root_is_incremental_root (depth : Z) (zeroValue : Node) (leaves : list Node) :
  1 <= depth <= 32 ->
  dom zeroValue -> Forall dom leaves ->
  Z.of_nat (length leaves) <= 2 ^ depth ->
  exists t_bulk t_empty t_inc r,
    IMT.new hash depth zeroValue leaves = Ok t_bulk /\
    IMT.new hash depth zeroValue [] = Ok t_empty /\
    IMT.insert_all hash t_empty leaves = Ok t_inc /\
    IMT.tree_root t_bulk = Ok r /\
    IMT.tree_root t_inc = Ok r.
Proof.
  intros Hd Hz Hleaves Hcap.
  destruct (new_empty_wf depth zeroValue Hd Hz) as (t0 & Hnew0 & Hwf0 & Hd0 & Hl0).
  assert (Z.of_nat (2 ^ Z.to_nat depth) = 2 ^ depth) as Hpow.
  { rewrite Nat2Z.inj_pow. f_equal. lia. }
  destruct (insert_all_spec leaves t0 [] Hwf0 Hl0) as (t2 & Hrun & Hwf2 & Hd2 & Hz2 & Hl2).
  { rewrite Hd0. simpl. lia. }
  { done. }
  simpl in Hl2.
  destruct leaves as [|x rest].
  - cbn [IMT.insert_all] in Hrun. injection Hrun as <-.
    destruct (wf_root t0 Hwf0) as (r & Hr & _).
    exists t0, t0, t0, r. done.
  - destruct (new_leaves_wf depth zeroValue (x :: rest) Hd Hz Hleaves ltac:(done) Hcap)
      as (t1 & Hnew1 & Hwf1 & Hd1 & Hl1 & t0' & Hnew0' & Hz1).
    rewrite Hnew0 in Hnew0'. injection Hnew0' as <-.
    assert (t1 = t2) as <-.
    { apply wf_unique; try done; congruence. }
    destruct (wf_root t1 Hwf1) as (r & Hr & _).
    exists t1, t0, t1, r. done.
Qed.

(** C3. After any run of inserts into an empty tree that leaves room for
    one more leaf, inserting a leaf, asking [createProof] for the index it
    was inserted at and giving the result to [verifyProof] returns
    [true]. *)
Theorem insert_createProof_verifyProof
    (depth : Z) (zeroValue : Node) (leaves : list Node) (x : Node) :
  1 <= depth <= 32 ->
  dom zeroValue -> Forall dom leaves -> dom x ->
  Z.of_nat (length leaves) < 2 ^ depth ->
  exists t_empty t t' proof,
    IMT.new hash depth zeroValue [] = Ok t_empty /\
    IMT.insert_all hash t_empty leaves = Ok t /\
    IMT.tree_insert hash t x = Ok t' /\
    IMT.tree_createProof t' (Z.of_nat (length leaves)) = Ok proof /\
    IMT.leaf proof = x /\
    IMT.tree_root t' = Ok (IMT.root proof) /\
    IMT.tree_verifyProof hash t' proof = Ok true.
Proof.
  intros Hd Hz Hleaves Hx Hcap.
  destruct (new_empty_wf depth zeroValue Hd Hz) as (t0 & Hnew0 & Hwf0 & Hd0 & Hl0).
  assert (Z.of_nat (2 ^ Z.to_nat depth) = 2 ^ depth) as Hpow.
  { rewrite Nat2Z.inj_pow. f_equal. lia. }
  destruct (insert_all_spec leaves t0 [] Hwf0 Hl0) as (t & Hrun & Hwf & Hdt & Hzt & Hl).
  { rewrite Hd0. simpl. lia. }
  { done. }
  simpl in Hl.
  destruct (tree_insert_spec t leaves x Hwf Hl) as (t' & Hins & Hwf' & Hd' & Hz' & Hl').
  { rewrite Hdt, Hd0. lia. }
  { done. }
  destruct (createProof_verifies t' (leaves ++ [x]) (Z.of_nat (length leaves)) Hwf' Hl')
    as (p & Hp & Hroot & Hleaf & _ & _ & Hver).
  { rewrite length_app. simpl. lia. }
  exists t0, t, t', p. split_and!; try done.
  rewrite Hleaf, Nat2Z.id. apply array_get_lookup.
  rewrite lookup_app_r by lia. by rewrite Nat.sub_diag.
Qed.

(** C8. For every depth between 1 and 32 the constructor given no leaves
    returns a tree whose [zeroes] start at the zero value and go on by
    hashing each zero with itself, and whose root is the hash of the last
    of them with itself. *)
Theorem empty_tree_root (depth : Z) (zeroValue : Node) :
  1 <= depth <= 32 -> dom zeroValue ->
  exists t r,
    IMT.new hash depth zeroValue [] = Ok t /\
    IMT.tree_root t = Ok r /\
    length (IMT._zeroes t) = Z.to_nat depth /\
    array_get (IMT._zeroes t) 0 = zeroValue /\
    (forall l, (1 <= l < Z.to_nat depth)%nat ->
       hash [array_get (IMT._zeroes t) (l - 1); array_get (IMT._zeroes t) (l - 1)]
       = Ok (array_get (IMT._zeroes t) l)) /\
    hash [array_get (IMT._zeroes t) (Z.to_nat depth - 1);
          array_get (IMT._zeroes t) (Z.to_nat depth - 1)] = Ok r.
Proof.
  intros Hd Hz.
  destruct (new_empty_spec depth zeroValue Hd Hz)
    as (zeroes & top & Hnew & Hlen & Hdom & Htop & Hchain).
  eexists. exists top. split; [exact Hnew|].
  cbn [IMT._zeroes].
  split_and!.
  - unfold IMT.tree_root. cbn [IMT._nodes IMT._depth].
    assert ((replicate (Z.to_nat depth) ([] : list Node) ++ [[top]]) !! Z.to_nat depth
            = Some [top]) as Hrow.
    { rewrite lookup_app_r by (rewrite length_replicate; lia).
      by rewrite length_replicate, Nat.sub_diag. }
    by rewrite (level_of_lookup _ _ _ Hrow), bind_Ok.
  - done.
  - destruct zeroes as [|z0 rest]; [simpl in Hlen; lia|].
    by destruct Hchain as [-> _].
  - intros l Hl.
    destruct (lookup_lt_is_Some_2 zeroes (l - 1)) as [a Ha]; [lia|].
    destruct (zero_chain_head zeroValue zeroes top _ a Hchain Ha) as (b & Hb & Hnext).
    replace (S (l - 1)) with l in Hnext by lia.
    destruct (lookup_lt_is_Some_2 zeroes l) as [c Hc]; [lia|].
    rewrite Hc in Hnext. subst c.
    by rewrite (array_get_lookup _ _ _ Ha), (array_get_lookup _ _ _ Hc).
  - rewrite <- Hlen. apply (zero_chain_last zeroValue); [|done].
    destruct zeroes; [simpl in Hlen; lia|done].
Qed.

(** C10. On a well-formed tree, for every index of a leaf and every value
    the hash function accepts, [update] returns, and so does [delete],
    which is [update] with the first zero; the tree they return has the
    new value at the index, every level as long as before, and the old
    node everywhere but on the path from the index to the root. *)
Theorem update_touches_the_path_only
    (t : IMT.IncrementalMerkleTree) (leaves : list Node) (i : Z) (v : Node) :
  wf t -> IMT._nodes t !! 0%nat = Some leaves ->
  0 <= i < Z.of_nat (length leaves) -> dom v ->
  exists t_upd t_del,
    IMT.tree_update hash t i v = Ok t_upd /\
    IMT.tree_delete hash t i = Ok t_del /\
    IMT.tree_delete hash t i = IMT.tree_update hash t i (array_get (IMT._zeroes t) 0) /\
    IMT._nodes t_upd !! 0%nat = Some (<[Z.to_nat i := v]> leaves) /\
    IMT._nodes t_del !! 0%nat = Some (<[Z.to_nat i := array_get (IMT._zeroes t) 0]> leaves) /\
    same_off_path (Z.to_nat i) t t_upd /\
    same_off_path (Z.to_nat i) t t_del.
Proof.
  intros Hwf Hleaves Hi Hv.
  destruct (tree_update_same_off_path t leaves i v Hwf Hleaves Hi Hv)
    as (t1 & Hrun1 & _ & Hl1 & Hsame1).
  assert (dom (array_get (IMT._zeroes t) 0)) as Hz.
  { apply array_get_Forall; [|exact (wf_zeroes_dom t Hwf)].
    rewrite (wf_zeroes_len t Hwf). pose proof (wf_depth t Hwf). lia. }
  destruct (tree_update_same_off_path t leaves i _ Hwf Hleaves Hi Hz)
    as (t2 & Hrun2 & _ & Hl2 & Hsame2).
  exists t1, t2. split_and!; done.
Qed.

Lemma splice_window s p node :
  splice_insert [s] p node = if p <=? 0 then [node; s] else [s; node].
Proof.
  unfold splice_insert. cbn [length]. change (Z.of_nat 1) with 1.
  destruct (Z.leb_spec p 0) as [Hle|Hgt].
  - destruct (Z.ltb_spec p 0) as [Hneg|Hpos].
    + rewrite Z.max_r by lia. reflexivity.
    + rewrite Z.min_l by lia. assert (p = 0) as -> by lia. reflexivity.
  - destruct (Z.ltb_spec p 0) as [Hneg|Hpos]; [lia|].
    rewrite Z.min_r by lia. reflexivity.
Qed.

Lemma verifyProof_loop_fold siblings : forall i pathIndices node,
  IMT.verifyProof_loop hash (map (fun s => [s]) siblings) i pathIndices node
  = fold_proof hash node (drop i pathIndices) siblings.
Proof.
  induction siblings as [|s rest IH]; intros i pis node; [reflexivity|].
  cbn [map IMT.verifyProof_loop fold_proof]. rewrite splice_window.
  assert (IMT.path_index pis i = match drop i pis with p :: _ => p | [] => 0 end) as ->.
  { unfold IMT.path_index. destruct (pis !! i) as [p|] eqn:Hp.
    - rewrite (drop_S _ _ _ Hp). reflexivity.
    - rewrite drop_ge; [reflexivity|]. by apply lookup_ge_None. }
  assert (tail (drop i pis) = drop (S i) pis) as ->.
  { destruct (pis !! i) as [p|] eqn:Hp.
    - rewrite (drop_S _ _ _ Hp). reflexivity.
    - apply lookup_ge_None in Hp. rewrite !drop_ge by lia. reflexivity. }
  destruct (hash _) as [e|parent]; [reflexivity|]. rewrite !bind_Ok. apply IH.
Qed.

Lemma fold_proof_returns siblings : forall pathIndices node,
  dom node -> Forall dom siblings ->
  exists r, fold_proof hash node pathIndices siblings = Ok r /\ dom r.
Proof.
  induction siblings as [|s rest IH]; intros pis node Hnode Hall.
  - exists node. by split.
  - cbn [fold_proof]. pose proof (Forall_inv Hall) as Hs.
    assert (exists h, hash (if match pis with p :: _ => p | [] => 0 end <=? 0
                            then [node; s] else [s; node]) = Ok h /\ dom h)
      as (h & -> & Hh).
    { destruct (_ <=? 0); by apply hash_dom. }
    rewrite bind_Ok. apply IH; [exact Hh|exact (Forall_inv_tail Hall)].
Qed.

(** C6, as the code has it.  [verifyProof] throws the [TypeError] of
    [checkParameter] when the proof, its root, its leaf, its siblings or
    its path indices are missing, in this order, and it throws what the
    hash function throws.  On a proof that has them, with one sibling in
    each window, it is the fold of the proof from the leaf upward followed
    by the comparison with the root: it returns a boolean whenever the
    fold returns, and the fold returns on a leaf and siblings that the hash
    function accepts. *)
Theorem verifyProof_returns_a_boolean
    (root leaf : Node) (pathIndices : list Z) (siblings : list Node) :
  IMT.verifyProof hash None = throw (TypeError "Parameter 'proof' is not defined") /\
  (forall windows indices,
     IMT.verifyProof hash
       (Some {| IMT.proof_root := Undefined; IMT.proof_leaf := leaf;
                IMT.proof_siblings := windows; IMT.proof_pathIndices := indices |})
     = throw (TypeError "Parameter 'proof.root' is not defined")) /\
  (root <> Undefined ->
   forall windows indices,
     IMT.verifyProof hash
       (Some {| IMT.proof_root := root; IMT.proof_leaf := Undefined;
                IMT.proof_siblings := windows; IMT.proof_pathIndices := indices |})
     = throw (TypeError "Parameter 'proof.leaf' is not defined")) /\
  (root <> Undefined -> leaf <> Undefined ->
   forall indices,
     IMT.verifyProof hash
       (Some {| IMT.proof_root := root; IMT.proof_leaf := leaf;
                IMT.proof_siblings := None; IMT.proof_pathIndices := indices |})
     = throw (TypeError "Parameter 'proof.siblings' is not defined")) /\
  (root <> Undefined -> leaf <> Undefined ->
   forall windows,
     IMT.verifyProof hash
       (Some {| IMT.proof_root := root; IMT.proof_leaf := leaf;
                IMT.proof_siblings := Some windows; IMT.proof_pathIndices := None |})
     = throw (TypeError "Parameter 'proof.pathElements' is not defined")) /\
  (root <> Undefined -> leaf <> Undefined ->
   IMT.verifyProof hash
     (Some {| IMT.proof_root := root; IMT.proof_leaf := leaf;
              IMT.proof_siblings := Some (map (fun sibling => [sibling]) siblings);
              IMT.proof_pathIndices := Some pathIndices |})
   = bind (fold_proof hash leaf pathIndices siblings)
          (fun node => Ok (strict_eq root node))) /\
  (root <> Undefined -> dom leaf -> Forall dom siblings ->
   exists node,
     fold_proof hash leaf pathIndices siblings = Ok node /\
     IMT.verifyProof hash
       (Some {| IMT.proof_root := root; IMT.proof_leaf := leaf;
                IMT.proof_siblings := Some (map (fun sibling => [sibling]) siblings);
                IMT.proof_pathIndices := Some pathIndices |})
     = Ok (strict_eq root node)).
Proof.
  assert (root <> Undefined -> leaf <> Undefined ->
          IMT.verifyProof hash
            (Some {| IMT.proof_root := root; IMT.proof_leaf := leaf;
                     IMT.proof_siblings := Some (map (fun sibling => [sibling]) siblings);
                     IMT.proof_pathIndices := Some pathIndices |})
          = bind (fold_proof hash leaf pathIndices siblings)
                 (fun node => Ok (strict_eq root node))) as Hfold.
  { intros Hroot Hleaf. unfold IMT.verifyProof, IMT.checkObject.
    rewrite bind_Ok. cbn [IMT.proof_root IMT.proof_leaf IMT.proof_siblings IMT.proof_pathIndices].
    rewrite (checkParameter_scalar root _ Hroot), bind_Ok.
    rewrite (checkParameter_scalar leaf _ Hleaf), !bind_Ok.
    rewrite verifyProof_loop_fold. reflexivity. }
  split; [reflexivity|]. split; [reflexivity|]. split.
  { intros Hroot windows indices. unfold IMT.verifyProof, IMT.checkObject.
    rewrite bind_Ok. cbn [IMT.proof_root IMT.proof_leaf].
    rewrite (checkParameter_scalar root _ Hroot), bind_Ok. reflexivity. }
  split.
  { intros Hroot Hleaf indices. unfold IMT.verifyProof, IMT.checkObject.
    rewrite bind_Ok. cbn [IMT.proof_root IMT.proof_leaf IMT.proof_siblings].
    rewrite (checkParameter_scalar root _ Hroot), bind_Ok.
    rewrite (checkParameter_scalar leaf _ Hleaf), bind_Ok. reflexivity. }
  split.
  { intros Hroot Hleaf windows. unfold IMT.verifyProof, IMT.checkObject.
    rewrite bind_Ok.
    cbn [IMT.proof_root IMT.proof_leaf IMT.proof_siblings IMT.proof_pathIndices].
    rewrite (checkParameter_scalar root _ Hroot), bind_Ok.
    rewrite (checkParameter_scalar leaf _ Hleaf), !bind_Ok. reflexivity. }
  split; [exact Hfold|].
  intros Hroot Hleaf Hsiblings.
  destruct (fold_proof_returns siblings pathIndices leaf Hleaf Hsiblings) as (node & Hnode & _).
  exists node. split; [exact Hnode|].
  rewrite (Hfold Hroot (dom_defined leaf Hleaf)), Hnode, bind_Ok. reflexivity.
Qed.

End TreeFacts.

(** ** poseidon-lite *)

Lemma map_BigInt_Big zs : map_BigInt (map Big zs) = Ok zs.
Proof.
  induction zs as [|z zs IH]; [done|].
  cbn [map map_BigInt BigInt]. rewrite bind_Ok, IH, bind_Ok. done.
Qed.

(** [poseidon] returns on inputs that [BigInt] accepts, when there are
    between 1 and 16 of them and the matrix of the table has one row
    more. *)
Lemma poseidon_returns inputs zs opt :
  map_BigInt inputs = Ok zs ->
  (1 <= length zs <= 16)%nat ->
  length (Poseidon.M opt) = S (length zs) ->
  exists h, Poseidon.poseidon inputs opt = Ok h.
Proof.
  intros Hin Hlen HM. unfold Poseidon.poseidon. rewrite Hin, bind_Ok.
  destruct (Nat.leb_spec (length zs) 0); [lia|].
  change (length Poseidon.N_ROUNDS_P) with 16%nat.
  destruct (Nat.ltb_spec 16 (length zs)); [lia|].
  destruct (Z.eqb_spec (Z.of_nat (length (Poseidon.M opt))) (Z.of_nat (length zs) + 1));
    [|lia].
  cbn [negb]. eexists. reflexivity.
Qed.

Lemma poseidon2_returns a b x y :
  BigInt a = Ok x -> BigInt b = Ok y -> exists h, Poseidon.poseidon2 [a; b] = Ok h.
Proof.
  intros Ha Hb. apply (poseidon_returns _ [x; y]); [|simpl; lia|done].
  cbn [map_BigInt]. rewrite Ha, bind_Ok, Hb, bind_Ok. done.
Qed.

Lemma poseidon1_returns a x :
  BigInt a = Ok x -> exists h, Poseidon.poseidon1 [a] = Ok h.
Proof.
  intros Ha. apply (poseidon_returns _ [x]); [|simpl; lia|done].
  cbn [map_BigInt]. rewrite Ha, bind_Ok. done.
Qed.

(** *** The range of the permutation *)

Lemma F_positive : 0 < Poseidon.F.
Proof. reflexivity. Qed.

Lemma rem_in_field o : 0 <= o -> 0 <= Z.rem o Poseidon.F < Poseidon.F.
Proof. intros Ho. apply Z.rem_bound_pos; [exact Ho|exact F_positive]. Qed.

Lemma pow5_in_field v : 0 <= v -> 0 <= Poseidon.pow5 v < Poseidon.F.
Proof. intros Hv. unfold Poseidon.pow5. apply rem_in_field. nia. Qed.

Lemma nth_nonneg (l : list Z) k : Forall (Z.le 0) l -> 0 <= nth k l 0.
Proof.
  intros Hall. revert k. induction Hall as [|x l Hx _ IH]; intros [|k]; cbn [nth]; try lia.
  apply IH.
Qed.

Lemma nth_row_nonneg (M : list (list Z)) k :
  Forall (Forall (Z.le 0)) M -> Forall (Z.le 0) (nth k M []).
Proof.
  intros Hall. revert k.
  induction Hall as [|x l Hx _ IH]; intros [|k]; cbn [nth]; try constructor; try assumption.
  apply IH.
Qed.

Lemma sum_nonneg (g : nat -> Z) (l : list nat) : forall acc,
  0 <= acc -> (forall y, 0 <= g y) -> 0 <= fold_left (fun o y => o + g y) l acc.
Proof.
  induction l as [|y l IH]; intros acc Hacc Hg; cbn [fold_left]; [exact Hacc|].
  apply IH; [|exact Hg]. specialize (Hg y). lia.
Qed.

Lemma mix_in_field state M :
  Forall (Z.le 0) state -> Forall (Forall (Z.le 0)) M ->
  Forall (fun v => 0 <= v < Poseidon.F) (Poseidon.mix state M) /\
  length (Poseidon.mix state M) = length state.
Proof.
  intros Hs HM. unfold Poseidon.mix. split.
  - apply Forall_map. apply List.Forall_forall. intros x _. cbn beta zeta.
    apply rem_in_field.
    apply (sum_nonneg (fun y => nth y (nth x M []) 0 * nth y state 0)); [lia|].
    intros y. pose proof (nth_nonneg _ y (nth_row_nonneg M x HM)).
    pose proof (nth_nonneg _ y Hs). nia.
  - rewrite length_map, length_seq. reflexivity.
Qed.

Lemma round_in_field t nRoundsP opt state x :
  nonneg_constants opt = true -> Forall (Z.le 0) state ->
  Forall (fun v => 0 <= v < Poseidon.F) (Poseidon.round t nRoundsP opt state x) /\
  length (Poseidon.round t nRoundsP opt state x) = length state.
Proof.
  intros Hopt Hs. unfold nonneg_constants in Hopt.
  apply andb_true_iff in Hopt as [HC HM].
  assert (Forall (Z.le 0) (Poseidon.C opt)) as HC'.
  { apply List.Forall_forall. intros c Hc. rewrite forallb_forall in HC.
    apply Z.leb_le, HC, Hc. }
  assert (Forall (Forall (Z.le 0)) (Poseidon.M opt)) as HM'.
  { apply List.Forall_forall. intros row Hrow. rewrite forallb_forall in HM.
    apply HM in Hrow. apply List.Forall_forall. intros c Hc.
    rewrite forallb_forall in Hrow. apply Z.leb_le, Hrow, Hc. }
  unfold Poseidon.round.
  match goal with |- context [Poseidon.mix ?s _] => set (state' := s) end.
  assert (Forall (Z.le 0) state' /\ length state' = length state) as [Hs' Hlen].
  { split; [|apply length_imap]. apply Forall_lookup_2. intros y v Hv.
    unfold state' in Hv. rewrite list_lookup_imap in Hv.
    destruct (state !! y) as [s|] eqn:Hy; [|discriminate]. cbn in Hv. injection Hv as <-.
    pose proof (Forall_lookup_1 _ _ _ _ Hs Hy) as Hs0. cbn beta in Hs0.
    pose proof (nth_nonneg _ (Z.to_nat (x * t + Z.of_nat y)) HC') as Hc.
    assert (0 <= s + nth (Z.to_nat (x * t + Z.of_nat y)) (Poseidon.C opt) 0) as Hsum by lia.
    pose proof (pow5_in_field _ Hsum).
    repeat match goal with |- context [if ?b then _ else _] => destruct b end; lia. }
  destruct (mix_in_field state' (Poseidon.M opt) Hs' HM') as [Hall Hl].
  split; [exact Hall|congruence].
Qed.

Lemma rounds_in_field t nRoundsP opt rounds : forall state,
  nonneg_constants opt = true ->
  Forall (fun v => 0 <= v < Poseidon.F) state ->
  Forall (fun v => 0 <= v < Poseidon.F)
         (fold_left (Poseidon.round t nRoundsP opt) rounds state) /\
  length (fold_left (Poseidon.round t nRoundsP opt) rounds state) = length state.
Proof.
  induction rounds as [|x rest IH]; intros state Hopt Hs; cbn [fold_left]; [by split|].
  destruct (round_in_field t nRoundsP opt state x Hopt) as [Hall Hlen].
  { eapply List.Forall_impl; [|exact Hs]. cbn beta. intros; lia. }
  destruct (IH _ Hopt Hall) as [Hall' Hlen']. split; [exact Hall'|congruence].
Qed.

Lemma map_BigInt_length inputs : forall zs,
  map_BigInt inputs = Ok zs ->
  length zs = length inputs /\ Forall coercible inputs.
Proof.
  induction inputs as [|v rest IH]; intros zs Hrun.
  - injection Hrun as <-. by split.
  - cbn [map_BigInt] in Hrun. destruct (BigInt v) as [e|z] eqn:Hv; [discriminate Hrun|].
    rewrite bind_Ok in Hrun.
    destruct (map_BigInt rest) as [e|zs'] eqn:Hrest; [discriminate Hrun|].
    rewrite bind_Ok in Hrun. injection Hrun as <-.
    destruct (IH zs' eq_refl) as [Hlen Hall]. split; [cbn [length]; congruence|].
    constructor; [by exists z|exact Hall].
Qed.

Lemma final_in_field t nRoundsP opt zs :
  nonneg_constants opt = true -> Forall (Z.le 0) zs -> 0 <= nRoundsP ->
  0 <= nth 0 (fold_left (Poseidon.round t nRoundsP opt)
                (map Z.of_nat (seq 0 (Z.to_nat (Poseidon.N_ROUNDS_F + nRoundsP))))
                (0 :: zs)) 0 < Poseidon.F.
Proof.
  intros Hopt Hpos Hn.
  assert (exists n, Z.to_nat (Poseidon.N_ROUNDS_F + nRoundsP) = S n) as [n Hrounds].
  { exists (Z.to_nat (Poseidon.N_ROUNDS_F + nRoundsP) - 1)%nat.
    unfold Poseidon.N_ROUNDS_F. lia. }
  rewrite Hrounds. rewrite <- cons_seq. cbn [map fold_left].
  destruct (round_in_field t nRoundsP opt (0 :: zs) (Z.of_nat 0) Hopt) as [Hall Hlen].
  { constructor; [lia|exact Hpos]. }
  destruct (rounds_in_field t nRoundsP opt (map Z.of_nat (seq 1 n)) _ Hopt Hall)
    as [Hall' Hlen'].
  match goal with |- 0 <= nth 0 ?l 0 < _ => remember l as final end.
  destruct final as [|v final]; [cbn [length] in *; lia|].
  cbn [nth]. exact (Forall_inv Hall').
Qed.

Lemma poseidon_in_field inputs zs opt h :
  nonneg_constants opt = true ->
  map_BigInt inputs = Ok zs -> Forall (Z.le 0) zs ->
  Poseidon.poseidon inputs opt = Ok h ->
  0 <= h < Poseidon.F.
Proof.
  intros Hopt Hzs Hpos Hrun. unfold Poseidon.poseidon in Hrun.
  rewrite Hzs, bind_Ok in Hrun. cbv zeta in Hrun.
  destruct (length zs <=? 0)%nat; [discriminate Hrun|].
  destruct (length Poseidon.N_ROUNDS_P <? length zs)%nat; [discriminate Hrun|].
  destruct (negb _); [discriminate Hrun|].
  assert (forall a b : Z, Ok a = Ok b :> result Z -> a = b) as Hinj
    by (intros a b Heq; unfold Ok in Heq; congruence).
  apply Hinj in Hrun. rewrite <- Hrun.
  apply final_in_field; [exact Hopt|exact Hpos|].
  apply nth_nonneg. unfold Poseidon.N_ROUNDS_P. repeat constructor; lia.
Qed.

Lemma poseidon_Ok_length inputs opt h :
  Poseidon.poseidon inputs opt = Ok h ->
  Forall coercible inputs /\ length (Poseidon.M opt) = S (length inputs).
Proof.
  intros Hrun. unfold Poseidon.poseidon in Hrun.
  destruct (map_BigInt inputs) as [e|zs] eqn:Hzs; [discriminate Hrun|].
  rewrite bind_Ok in Hrun. cbv zeta in Hrun.
  destruct (map_BigInt_length inputs zs Hzs) as [Hlen Hall].
  destruct (length zs <=? 0)%nat; [discriminate Hrun|].
  destruct (length Poseidon.N_ROUNDS_P <? length zs)%nat; [discriminate Hrun|].
  destruct (Z.eqb_spec (Z.of_nat (length (Poseidon.M opt))) (Z.of_nat (length zs) + 1))
    as [Heq|Hne]; [|discriminate Hrun].
  split; [exact Hall|lia].
Qed.

(** *** What the permutation refuses *)

Lemma map_BigInt_returns inputs :
  Forall coercible inputs ->
  exists zs, map_BigInt inputs = Ok zs /\ length zs = length inputs.
Proof.
  induction 1 as [|v rest [x Hx] _ (zs & Hzs & Hlen)].
  - by exists [].
  - exists (x :: zs). cbn [map_BigInt length]. rewrite Hx, bind_Ok, Hzs, bind_Ok.
    split; [reflexivity|congruence].
Qed.

Lemma poseidon_not_enough inputs opt :
  inputs = [] ->
  Poseidon.poseidon inputs opt = throw (Error "poseidon-lite: Not enough inputs").
Proof. intros ->. reflexivity. Qed.

Lemma poseidon_too_many inputs opt :
  Forall coercible inputs -> (16 < length inputs)%nat ->
  Poseidon.poseidon inputs opt = throw (Error "poseidon-lite: Too many inputs").
Proof.
  intros Hall Hlen. destruct (map_BigInt_returns inputs Hall) as (zs & Hzs & Hl).
  unfold Poseidon.poseidon. rewrite Hzs, bind_Ok. cbv zeta. rewrite Hl.
  destruct (Nat.leb_spec (length inputs) 0); [lia|].
  change (length Poseidon.N_ROUNDS_P) with 16%nat.
  destruct (Nat.ltb_spec 16 (length inputs)); [reflexivity|lia].
Qed.

Lemma poseidon_wrong_table inputs opt :
  Forall coercible inputs -> (1 <= length inputs <= 16)%nat ->
  length (Poseidon.M opt) <> S (length inputs) ->
  Poseidon.poseidon inputs opt
  = throw (Error ("poseidon-lite: Incorrect M length, expected "
                  ++ toString10 (Z.of_nat (length inputs) + 1)
                  ++ " got " ++ toString10 (Z.of_nat (length (Poseidon.M opt))))%string).
Proof.
  intros Hall Hlen Hne. destruct (map_BigInt_returns inputs Hall) as (zs & Hzs & Hl).
  unfold Poseidon.poseidon. rewrite Hzs, bind_Ok. cbv zeta. rewrite Hl.
  destruct (Nat.leb_spec (length inputs) 0); [lia|].
  change (length Poseidon.N_ROUNDS_P) with 16%nat.
  destruct (Nat.ltb_spec 16 (length inputs)); [lia|].
  destruct (Z.eqb_spec (Z.of_nat (length (Poseidon.M opt))) (Z.of_nat (length inputs) + 1));
    [lia|reflexivity].
Qed.

(** *** Elements of the field *)

Lemma field_element_defined v : field_element v -> v <> Undefined.
Proof. intros (z & -> & _). discriminate. Qed.

Lemma field_element_coercible v : field_element v -> coercible v.
Proof. intros (z & -> & _). by exists z. Qed.

Lemma field_element_Big z : 0 <= z < Poseidon.F -> field_element (Big z).
Proof. intros Hz. by exists z. Qed.

Lemma field_hash_dom a b :
  field_element a -> field_element b ->
  exists h, Group.poseidon2 [a; b] = Ok h /\ field_element h.
Proof.
  intros (x & -> & Hx) (y & -> & Hy).
  destruct (poseidon2_returns (Big x) (Big y) x y eq_refl eq_refl) as [h Hh].
  exists (Big h). unfold Group.poseidon2. rewrite Hh, bind_Ok. split; [done|].
  apply field_element_Big.
  apply (poseidon_in_field [Big x; Big y] [x; y] Poseidon.c2 h);
    [reflexivity|reflexivity| |exact Hh].
  repeat constructor; lia.
Qed.

(** From here on the permutation is not unfolded by the tactics. *)
Opaque Poseidon.poseidon.


Lemma coercible_defined v : coercible v -> v <> Undefined.
Proof. intros [z Hz] ->. discriminate. Qed.

Lemma coercible_Big z : coercible (Big z).
Proof. by exists z. Qed.

Lemma group_hash_dom a b :
  coercible a -> coercible b ->
  exists h, Group.poseidon2 [a; b] = Ok h /\ coercible h.
Proof.
  intros [x Hx] [y Hy]. destruct (poseidon2_returns a b x y Hx Hy) as [h Hh].
  exists (Big h). unfold Group.poseidon2. rewrite Hh, bind_Ok.
  split; [done|apply coercible_Big].
Qed.

(** ** Groups *)

Section GroupFacts.

Variable keccak256 : list Z -> Z.


Lemma array_indexOf_from_spec arr x i :
  (array_indexOf_from arr x i = -1 /\ Forall (fun y => strict_eq y x = false) arr)
  \/
  (exists k : nat, array_indexOf_from arr x i = i + Z.of_nat k /\
     (k < length arr)%nat /\ strict_eq (array_get arr k) x = true /\
     Forall (fun y => strict_eq y x = false) (take k arr)).
Proof.
  revert i. induction arr as [|y rest IH]; intros i.
  - left. done.
  - cbn [array_indexOf_from]. destruct (strict_eq y x) eqn:Hy.
    + right. exists 0%nat. split_and!; [lia|simpl; lia|done|constructor].
    + destruct (IH (i + 1)) as [(Hn & Hall)|(k & Hk & Hlt & Heq & Hall)].
      * left. split; [done|by constructor].
      * right. exists (S k). split_and!; [lia|simpl; lia|done|].
        cbn [take]. by constructor.
Qed.

Lemma array_indexOf_absent arr x :
  Forall (fun y => strict_eq y x = false) arr -> array_indexOf arr x = -1.
Proof.
  intros Hall. unfold array_indexOf.
  destruct (array_indexOf_from_spec arr x 0)
    as [(Hn & _)|(k & Hk & Hlt & Heq & _)]; [done|].
  pose proof (array_get_lt arr k Hlt) as Hget.
  pose proof (Forall_lookup_1 _ _ _ _ Hall Hget) as Hfalse. simpl in Hfalse. congruence.
Qed.


Lemma strict_eq_eq a b : strict_eq a b = true <-> a = b.
Proof.
  split; [|intros ->; apply strict_eq_refl].
  destruct a, b; simpl; try done.
  - rewrite Z.eqb_eq. by intros ->.
  - rewrite String.eqb_eq. by intros ->.
  - rewrite Z.eqb_eq. by intros ->.
Qed.

(** What the constructor of the tree refuses. *)
Lemma IMT_new_inv hash depth zeroValue leaves t :
  IMT.new hash depth zeroValue leaves = Ok t ->
  1 <= depth <= 32 /\ Z.of_nat (length leaves) <= 2 ^ depth /\ zeroValue <> Undefined.
Proof.
  unfold IMT.new. rewrite checkParameter_number, bind_Ok.
  destruct zeroValue; [done| | |];
    (cbn [IMT.checkParameter typeof existsb jstype_eqb orb]; rewrite bind_Ok;
     destruct (Z.ltb_spec depth 1); [done|];
     unfold IMT.maxDepth; destruct (Z.ltb_spec 32 depth); [done|];
     cbn [orb]; change (Z.of_nat IMT.arity) with 2;
     destruct (Z.ltb_spec (2 ^ depth) (Z.of_nat (length leaves))); [done|];
     intros _; split_and!; [lia|lia|done|done]).
Qed.

(** The constructor of a group returns exactly when the depth is between
    16 and 32, the id has a hash, [BigInt] accepts every member and the
    members fit in the tree; the leaves are then the members as bigints. *)
Lemma Group_new_spec id treeDepth members :
  16 <= treeDepth <= 32 ->
  forall z zs,
    Group.hash keccak256 id = Ok z ->
    map_BigInt members = Ok zs ->
    Z.of_nat (length zs) <= 2 ^ treeDepth ->
    exists g,
      Group.new keccak256 id treeDepth members = Ok g /\
      group_ok g /\
      Group.depth g = Z.to_nat treeDepth /\
      IMT._nodes (Group.merkleTree g) !! 0%nat = Some (map Big zs).
Proof.
  intros Hd z zs Hz Hzs Hcap.
  assert (exists t, IMT.new Group.poseidon2 treeDepth (Big z) (map Big zs) = Ok t /\
            wf Group.poseidon2 coercible t /\
            IMT._depth t = Z.to_nat treeDepth /\
            IMT._nodes t !! 0%nat = Some (map Big zs)) as (t & Ht & Hwf & Hdt & Hl).
  { destruct zs as [|z0 zs'].
    - destruct (new_empty_wf Group.poseidon2 coercible coercible_defined group_hash_dom
                  treeDepth (Big z)) as (t & Ht & Hwf & Hdt & Hl);
        [lia|apply coercible_Big|]. by exists t.
    - destruct (new_leaves_wf Group.poseidon2 coercible coercible_defined group_hash_dom
                  treeDepth (Big z) (map Big (z0 :: zs')))
        as (t & Ht & Hwf & Hdt & Hl & _);
        [lia|apply coercible_Big| |done|by rewrite length_map|].
      + apply Forall_fmap. apply Forall_true. intros; apply coercible_Big.
      + by exists t. }
  exists {| Group._id := id; Group.merkleTree := t |}.
  unfold Group.new.
  destruct (Z.ltb_spec treeDepth 16); [lia|].
  destruct (Z.ltb_spec 32 treeDepth); [lia|].
  cbn [orb]. rewrite Hz, bind_Ok, Hzs, bind_Ok, Ht, bind_Ok. done.
Qed.



Lemma toTwos_small z :
  - 2 ^ 256 < z < 2 ^ 256 -> BigNumber.toTwos 256 z = z mod 2 ^ 256.
Proof.
  intros Hz. unfold BigNumber.toTwos, BigNumber.inotn.
  change ((256 + 25) / 26) with 10. change (26 * 10) with 260.
  destruct (Z.ltb_spec z 0) as [Hneg|Hpos].
  - rewrite (Z.div_small (- z) (2 ^ 260)) by lia.
    rewrite (Z.mod_small (- z) (2 ^ 256)) by lia.
    apply Z.mod_unique_pos with (q := -1); lia.
  - symmetry. apply Z.mod_small. lia.
Qed.

Lemma Group_hash_Big z :
  - 2 ^ 256 < z < 2 ^ 256 -> exists h, Group.hash keccak256 (Big z) = Ok h.
Proof.
  intros Hz. unfold Group.hash. cbn [BigNumber.from]. rewrite bind_Ok. cbv zeta.
  rewrite (toTwos_small z Hz).
  destruct (Z.leb_spec (2 ^ 256) (z mod 2 ^ 256)) as [Hge|_].
  - pose proof (Z.mod_pos_bound z (2 ^ 256) ltac:(lia)). lia.
  - eexists. reflexivity.
Qed.

(** With a Keccak-256 of 256 bits, the hash of a group is below [2^248]. *)
Lemma Group_hash_bound message z :
  (forall bytes, 0 <= keccak256 bytes < 2 ^ 256) ->
  Group.hash keccak256 message = Ok z -> 0 <= z < 2 ^ 248.
Proof.
  intros Hk Hz. unfold Group.hash in Hz.
  destruct (BigNumber.from message) as [e|value]; [discriminate Hz|].
  rewrite bind_Ok in Hz. cbv zeta in Hz.
  destruct (2 ^ 256 <=? BigNumber.toTwos 256 value); [discriminate Hz|].
  assert (z = Z.shiftr (keccak256 (Group.bytes32 (BigNumber.toTwos 256 value))) 8) as ->
    by (unfold Ok in Hz; congruence).
  pose proof (Hk (Group.bytes32 (BigNumber.toTwos 256 value))) as Hb.
  set (digest := keccak256 (Group.bytes32 (BigNumber.toTwos 256 value))) in Hb |- *.
  rewrite Z.shiftr_div_pow2 by lia. change (2 ^ 8) with 256.
  change (2 ^ 256) with (256 * 2 ^ 248) in Hb. lia.
Qed.

(** A group made of members below the modulus, with a Keccak-256 of 256
    bits, holds elements of the field only. *)
Lemma Group_new_in_field id treeDepth members zs g :
  (forall bytes, 0 <= keccak256 bytes < 2 ^ 256) ->
  map_BigInt members = Ok zs ->
  Forall (fun z => 0 <= z < Poseidon.F) zs ->
  Group.new keccak256 id treeDepth members = Ok g ->
  group_in_field g.
Proof.
  intros Hk Hzs Hall Hnew. unfold Group.new in Hnew.
  destruct (Z.ltb_spec treeDepth 16); [done|].
  destruct (Z.ltb_spec 32 treeDepth); [done|].
  cbn [orb] in Hnew.
  destruct (Group.hash keccak256 id) as [e|z] eqn:Hz; [done|]. rewrite bind_Ok in Hnew.
  rewrite Hzs, bind_Ok in Hnew.
  destruct (IMT.new Group.poseidon2 treeDepth (Big z) (map Big zs)) as [e|t] eqn:Ht; [done|].
  rewrite bind_Ok in Hnew.
  assert (g = {| Group._id := id; Group.merkleTree := t |}) as ->
    by (unfold Ok in Hnew; congruence).
  unfold group_in_field. cbn [Group.merkleTree].
  destruct (IMT_new_inv _ _ _ _ _ Ht) as (_ & Hcap & _).
  assert (field_element (Big z)) as Hzero.
  { apply field_element_Big. pose proof (Group_hash_bound id z Hk Hz) as Hb.
    assert (2 ^ 248 < Poseidon.F) by reflexivity. lia. }
  destruct zs as [|z0 zs'].
  - destruct (new_empty_wf Group.poseidon2 field_element field_element_defined
                field_hash_dom treeDepth (Big z)) as (t' & Ht' & Hwf & _);
      [lia|exact Hzero|].
    cbn [map] in Ht. rewrite Ht in Ht'. injection Ht' as <-. exact Hwf.
  - destruct (new_leaves_wf Group.poseidon2 field_element field_element_defined
                field_hash_dom treeDepth (Big z) (map Big (z0 :: zs')))
      as (t' & Ht' & Hwf & _); [lia|exact Hzero| |done|exact Hcap|].
    + apply Forall_fmap. eapply List.Forall_impl; [|exact Hall].
      intros a Ha. apply field_element_Big. exact Ha.
    + rewrite Ht in Ht'. injection Ht' as <-. exact Hwf.
Qed.

Lemma Group_indexOf_leaves g leaves member :
  IMT._nodes (Group.merkleTree g) !! 0%nat = Some leaves ->
  member <> Undefined ->
  Group.indexOf g member = Ok (array_indexOf leaves member).
Proof.
  intros Hl Hm. unfold Group.indexOf, IMT.tree_indexOf, IMT.indexOf.
  rewrite checkParameter_scalar, bind_Ok by done.
  by rewrite (level_of_lookup _ _ _ Hl), bind_Ok.
Qed.

Lemma Group_updateMember_spec g leaves i member :
  group_ok g -> IMT._nodes (Group.merkleTree g) !! 0%nat = Some leaves ->
  0 <= i < Z.of_nat (length leaves) -> coercible member ->
  exists g',
    Group.updateMember g i member = Ok g' /\ group_ok g' /\
    IMT._nodes (Group.merkleTree g') !! 0%nat = Some (<[Z.to_nat i := member]> leaves).
Proof.
  intros Hok Hl Hi Hm.
  destruct (tree_update_spec Group.poseidon2 coercible group_hash_dom
              (Group.merkleTree g) leaves i member Hok Hl Hi Hm)
    as (r & t' & Hrun & Hwf' & _ & _ & Hl' & _).
  exists {| Group._id := Group._id g; Group.merkleTree := t' |}.
  unfold Group.updateMember. rewrite Hrun, bind_Ok. done.
Qed.

Lemma Group_addMember_spec g leaves member m :
  group_ok g -> IMT._nodes (Group.merkleTree g) !! 0%nat = Some leaves ->
  (length leaves < 2 ^ Group.depth g)%nat -> BigInt member = Ok m ->
  exists g',
    Group.addMember g member = Ok g' /\ group_ok g' /\
    IMT._nodes (Group.merkleTree g') !! 0%nat = Some (leaves ++ [Big m]).
Proof.
  intros Hok Hl Hroom Hm.
  destruct (tree_insert_spec Group.poseidon2 coercible coercible_defined group_hash_dom
              (Group.merkleTree g) leaves (Big m) Hok Hl Hroom (coercible_Big m))
    as (t' & Hrun & Hwf' & _ & _ & Hl').
  exists {| Group._id := Group._id g; Group.merkleTree := t' |}.
  unfold Group.addMember. rewrite Hm, bind_Ok, Hrun, bind_Ok. done.
Qed.

(** ** The properties of the group *)

(** C7, at the input where the code departs from it. In the group of
    members [123n, 456n], [indexOf] finds [456n] at 1 and does not find the
    number 456 or the string "456"; [updateMember] stores the number 789
    as a number, where it stores [789n] as a bigint, so that a later
    [indexOf(789n)] fails after the first and succeeds after the second;
    [addMember] stores the number 789 as the bigint. *)
Theorem indexOf_and_updateMember_do_not_coerce :
  exists g g_number g_bigint g_added,
    Group.new keccak256 (Big 123) 20 [Big 123; Big 456] = Ok g /\
    Group.indexOf g (Big 456) = Ok 1 /\
    Group.indexOf g (Num 456) = Ok (-1) /\
    Group.indexOf g (Str "456") = Ok (-1) /\
    Group.updateMember g 1 (Num 789) = Ok g_number /\
    Group.updateMember g 1 (Big 789) = Ok g_bigint /\
    Group.members g_number = Ok [Big 123; Num 789] /\
    Group.members g_bigint = Ok [Big 123; Big 789] /\
    Group.indexOf g_number (Big 789) = Ok (-1) /\
    Group.indexOf g_bigint (Big 789) = Ok 1 /\
    Group.addMember g (Num 789) = Ok g_added /\
    Group.members g_added = Ok [Big 123; Big 456; Big 789].
Proof.
  destruct (Group_hash_Big 123 ltac:(lia)) as [z Hz].
  destruct (Group_new_spec (Big 123) 20 [Big 123; Big 456] ltac:(lia) z [123; 456] Hz
              eq_refl ltac:(simpl; lia)) as (g & Hnew & Hok & Hd & Hl).
  cbn [map] in Hl.
  destruct (Group_updateMember_spec g _ 1 (Num 789) Hok Hl ltac:(simpl; lia))
    as (g1 & Hu1 & _ & Hl1); [by exists 789|].
  destruct (Group_updateMember_spec g _ 1 (Big 789) Hok Hl ltac:(simpl; lia))
    as (g2 & Hu2 & _ & Hl2); [by exists 789|].
  destruct (Group_addMember_spec g _ (Num 789) 789 Hok Hl) as (g3 & Ha & _ & Hl3);
    [|done|].
  { rewrite Hd. apply Nat2Z.inj_lt. rewrite Nat2Z.inj_pow.
    change (Z.of_nat 2) with 2. rewrite Z2Nat.id by lia. cbn [length]. lia. }
  exists g, g1, g2, g3.
  assert (forall g' leaves, IMT._nodes (Group.merkleTree g') !! 0%nat = Some leaves ->
            Group.members g' = Ok leaves) as Hmembers.
  { intros g' leaves Hl'. unfold Group.members, IMT.tree_leaves.
    by rewrite (level_of_lookup _ _ _ Hl'). }
  split_and!.
  - exact Hnew.
  - rewrite (Group_indexOf_leaves g _ _ Hl); [reflexivity|discriminate].
  - rewrite (Group_indexOf_leaves g _ _ Hl); [reflexivity|discriminate].
  - rewrite (Group_indexOf_leaves g _ _ Hl); [reflexivity|discriminate].
  - exact Hu1.
  - exact Hu2.
  - apply Hmembers. exact Hl1.
  - apply Hmembers. exact Hl2.
  - rewrite (Group_indexOf_leaves g1 _ _ Hl1); [reflexivity|discriminate].
  - rewrite (Group_indexOf_leaves g2 _ _ Hl2); [reflexivity|discriminate].
  - exact Ha.
  - apply Hmembers. exact Hl3.
Qed.

(** C9, as the code has it. For every group with a well-formed tree and
    every index of a member, [generateMerkleProof] returns the proof of
    [createProof] with every window replaced by the one node it holds: as
    many siblings as the tree is deep, each a single value that [BigInt]
    accepts, and the same root, leaf and path indices.  The siblings are
    elements of the field when the tree of the group holds elements of the
    field only; a member beyond the modulus comes back as it was given. *)
Theorem generateMerkleProof_collapses_windows
    (g : Group.Group) (leaves : list Node) (i : Z) :
  group_ok g ->
  IMT._nodes (Group.merkleTree g) !! 0%nat = Some leaves ->
  0 <= i < Z.of_nat (length leaves) ->
  exists treeProof proof,
    IMT.tree_createProof (Group.merkleTree g) i = Ok treeProof /\
    Group.generateMerkleProof g i = Ok proof /\
    Group.root_ proof = IMT.root treeProof /\
    Group.leaf proof = IMT.leaf treeProof /\
    Group.pathIndices proof = IMT.pathIndices treeProof /\
    length (Group.siblings proof) = Group.depth g /\
    Forall2 (fun window sibling => window = [sibling])
            (IMT.siblings treeProof) (Group.siblings proof) /\
    Forall coercible (Group.siblings proof) /\
    (group_in_field g -> Forall field_element (Group.siblings proof)) /\
    (forall id treeDepth members zs,
       (forall bytes, 0 <= keccak256 bytes < 2 ^ 256) ->
       map_BigInt members = Ok zs ->
       Forall (fun z => 0 <= z < Poseidon.F) zs ->
       Group.new keccak256 id treeDepth members = Ok g ->
       Forall field_element (Group.siblings proof)).
Proof.
  intros Hok Hl Hi.
  destruct (createProof_verifies Group.poseidon2 coercible coercible_defined
              (Group.merkleTree g) leaves i Hok Hl Hi) as (p & Hp & _).
  destruct (tree_createProof_windows Group.poseidon2 coercible
              (Group.merkleTree g) leaves i p Hok Hl Hi Hp) as (Hls & _ & Hk).
  exists p. eexists. unfold Group.generateMerkleProof. rewrite Hp, bind_Ok.
  split; [done|]. split; [reflexivity|].
  cbn [Group.root_ Group.leaf Group.pathIndices Group.siblings].
  pose proof (wf_nodes_len _ _ _ Hok) as Hlen.
  assert (forall k w, IMT.siblings p !! k = Some w ->
            exists s, w = [s] /\ coercible s) as Hwin.
  { intros k w Hw. pose proof (lookup_lt_Some _ _ _ Hw) as Hlt. rewrite Hls in Hlt.
    destruct (lookup_lt_is_Some_2 (IMT._nodes (Group.merkleTree g)) k) as [row Hrow]; [lia|].
    destruct (Hk k row Hlt Hrow) as (Hs & Hdom & _).
    rewrite Hs in Hw. injection Hw as <-. eauto. }
  assert (group_in_field g ->
          Forall field_element (map (fun s => array_get s 0) (IMT.siblings p))) as Hin.
  2:{ split_and!; try done.
      - by rewrite length_map.
      - apply Forall2_fmap_r. apply Forall2_same_length_lookup_2; [done|].
        intros k w w' Hw Hw'. rewrite Hw in Hw'. injection Hw' as <-.
        destruct (Hwin k w Hw) as (s & -> & _). done.
      - apply Forall_fmap. apply Forall_lookup_2. intros k w Hw.
        destruct (Hwin k w Hw) as (s & -> & Hs). done.
      - intros id treeDepth members zs Hk256 Hzs Hall Hnew. apply Hin.
        exact (Group_new_in_field id treeDepth members zs g Hk256 Hzs Hall Hnew). }
  intros Hfield.
  destruct (tree_createProof_windows Group.poseidon2 field_element
              (Group.merkleTree g) leaves i p Hfield Hl Hi Hp) as (_ & _ & Hkf).
  apply Forall_fmap. apply Forall_lookup_2. intros k w Hw.
  pose proof (lookup_lt_Some _ _ _ Hw) as Hlt. rewrite Hls in Hlt.
  destruct (lookup_lt_is_Some_2 (IMT._nodes (Group.merkleTree g)) k) as [row Hrow]; [lia|].
  destruct (Hkf k row Hlt Hrow) as (Hs & Hdom & _).
  rewrite Hs in Hw. injection Hw as <-. exact Hdom.
Qed.

End GroupFacts.

(** ** The proof assembler *)

Section ProverFacts.

Variable keccak256 : list Z -> Z.
Variable str2BigInt : string -> Z.
Variable RLNFullProof : Type.
Variable nullifier_toString : RLNFullProof -> string.




Lemma indexOf_Big_absent zs z :
  ~ In z zs -> array_indexOf (map Big zs) (Big z) = -1.
Proof.
  intros Hnot. apply array_indexOf_absent. apply Forall_fmap, Forall_forall.
  intros y Hy. simpl. apply Z.eqb_neq. intros ->.
  apply Hnot. by apply list_elem_of_In.
Qed.


(** The defaults of the last two parameters of [genProof]. *)
Lemma or_default_BigInt default v z :
  BigInt v = Ok z -> Prover.or_default default v = v.
Proof. destruct v; [discriminate|done|done|done]. Qed.




(** ** The property of the proof assembler *)


End ProverFacts.

(** ** Strings and numerals *)

Section StringFacts.

Implicit Types (s r : string) (c : ascii) (p : ascii -> bool).

Lemma append_nil_r s : (s ++ EmptyString)%string = s.
Proof. induction s as [|c s IH]; simpl; [done|by rewrite IH]. Qed.

Lemma append_assoc s1 s2 s3 : ((s1 ++ s2) ++ s3)%string = (s1 ++ (s2 ++ s3))%string.
Proof. induction s1 as [|c s1 IH]; simpl; [done|by rewrite IH]. Qed.

Lemma length_append s1 s2 :
  String.length (s1 ++ s2) = (String.length s1 + String.length s2)%nat.
Proof. induction s1 as [|c s1 IH]; simpl; [done|by rewrite IH]. Qed.

Lemma forallb_append p s1 s2 :
  BigNumber.string_forallb p (s1 ++ s2)
  = BigNumber.string_forallb p s1 && BigNumber.string_forallb p s2.
Proof.
  induction s1 as [|c s1 IH]; simpl; [done|]. rewrite IH. by rewrite andb_assoc.
Qed.

Lemma forallb_substring p s : 
  BigNumber.string_forallb p s = true ->
  forall n m, BigNumber.string_forallb p (String.substring n m s) = true.
Proof.
  induction s as [|c s IH]; intros Hall n m.
  - by destruct n, m.
  - simpl in Hall. apply andb_true_iff in Hall as [Hc Hs].
    destruct n as [|n]; destruct m as [|m]; simpl; try done.
    + rewrite Hc. by apply IH.
    + by apply IH.
    + by apply IH.
Qed.

Lemma length_substring s :
  forall n m, (n + m <= String.length s)%nat -> String.length (String.substring n m s) = m.
Proof.
  induction s as [|c s IH]; intros n m Hlen.
  - simpl in Hlen. by destruct n, m; try lia.
  - destruct n as [|n]; destruct m as [|m]; simpl in *; try done.
    + rewrite (IH 0%nat m); [done|lia].
    + apply IH. lia.
    + apply IH. lia.
Qed.

Lemma forallb_zeros n :
  BigNumber.string_forallb BigNumber.is_hex_digit
    (string_of_list_ascii (repeat "0"%char n)) = true.
Proof. induction n as [|n IH]; simpl; [done|exact IH]. Qed.

Lemma length_zeros n : String.length (string_of_list_ascii (repeat "0"%char n)) = n.
Proof. induction n as [|n IH]; simpl; [done|by rewrite IH]. Qed.

(** *** White space and [trim] *)


Lemma is_white2_ascii a b :
  (nat_of_ascii a <? 128)%nat = true -> is_white2 a b = false /\ is_white2 b a = false.
Proof.
  intros Ha. apply Nat.ltb_lt in Ha. unfold is_white2. split.
  - destruct (Nat.eqb_spec (nat_of_ascii a) 194); [lia|done].
  - destruct (Nat.eqb_spec (nat_of_ascii a) 160); [lia|]. apply andb_false_r.
Qed.

Lemma is_white3_ascii a b c :
  (nat_of_ascii a <? 128)%nat = true -> is_white3 a b c = false /\ is_white3 c b a = false.
Proof.
  intros Ha. apply Nat.ltb_lt in Ha. unfold is_white3. cbv zeta.
  assert (forall k, (128 <= k)%nat -> (nat_of_ascii a =? k)%nat = false) as Hne
    by (intros k Hk; apply Nat.eqb_neq; lia).
  assert ((128 <=? nat_of_ascii a)%nat = false) as Hle by (apply Nat.leb_gt; lia).
  split.
  - rewrite !Hne by lia. reflexivity.
  - rewrite !Hne, Hle by lia. cbn [andb orb]. rewrite !andb_false_r. reflexivity.
Qed.

Lemma no_white_head c s :
  no_white (String c s) = true ->
  is_white c = false /\ (nat_of_ascii c <? 128)%nat = true /\ no_white s = true.
Proof.
  unfold no_white. cbn [BigNumber.string_forallb]. intros H.
  apply andb_true_iff in H as [Hc Hs]. apply andb_true_iff in Hc as [Hw Ha].
  apply negb_true_iff in Hw. done.
Qed.

Lemma trim_start_no_white s : no_white s = true -> trim_start s = s.
Proof.
  destruct s as [|a s]; [done|]. intros H.
  destruct (no_white_head a s H) as (Hw & Ha & _).
  cbn [trim_start]. rewrite Hw.
  destruct s as [|b s]; [done|]. rewrite (proj1 (is_white2_ascii a b Ha)).
  destruct s as [|c s]; [done|]. by rewrite (proj1 (is_white3_ascii a b c Ha)).
Qed.

Lemma trim_start_backwards_no_white s :
  no_white s = true -> trim_start_backwards s = s.
Proof.
  destruct s as [|a s]; [done|]. intros H.
  destruct (no_white_head a s H) as (Hw & Ha & _).
  cbn [trim_start_backwards]. rewrite Hw.
  destruct s as [|b s]; [done|]. rewrite (proj2 (is_white2_ascii a b Ha)).
  destruct s as [|c s]; [done|]. by rewrite (proj2 (is_white3_ascii a b c Ha)).
Qed.

Lemma string_rev_onto_no_white s : forall acc,
  no_white s = true -> no_white acc = true -> no_white (string_rev_onto s acc) = true.
Proof.
  induction s as [|c s IH]; intros acc Hs Hacc; [done|].
  unfold no_white in *. simpl in Hs. apply andb_true_iff in Hs as [Hc Hs].
  simpl. apply IH; [done|]. simpl. by rewrite Hc.
Qed.

Lemma string_rev_onto_twice s : forall acc1 acc2,
  string_rev_onto (string_rev_onto s acc1) acc2
  = string_rev_onto acc1 (s ++ acc2)%string.
Proof.
  induction s as [|c s IH]; intros acc1 acc2; [done|].
  simpl. rewrite IH. done.
Qed.

Lemma trim_no_white s : no_white s = true -> trim s = s.
Proof.
  intros Hs. unfold trim. rewrite (trim_start_no_white s Hs).
  rewrite trim_start_backwards_no_white by (by apply string_rev_onto_no_white).
  unfold string_rev. rewrite string_rev_onto_twice. simpl. apply append_nil_r.
Qed.

(** *** Digits *)

Lemma hex_digit_no_white c : BigNumber.is_hex_digit c = true -> is_white c = false.
Proof.
  destruct c as [[] [] [] [] [] [] [] []]; vm_compute; congruence.
Qed.

Lemma hex_digit_ascii c :
  BigNumber.is_hex_digit c = true -> (nat_of_ascii c <? 128)%nat = true.
Proof.
  destruct c as [[] [] [] [] [] [] [] []]; vm_compute; congruence.
Qed.

Lemma hex_digits_no_white s :
  BigNumber.string_forallb BigNumber.is_hex_digit s = true -> no_white s = true.
Proof.
  induction s as [|c s IH]; [done|]. unfold no_white. cbn [BigNumber.string_forallb].
  intros H. apply andb_true_iff in H as [Hc Hs].
  rewrite (hex_digit_no_white c Hc), (hex_digit_ascii c Hc). cbn [negb andb].
  by apply IH.
Qed.

Lemma parse_digits_hex s :
  BigNumber.string_forallb BigNumber.is_hex_digit s = true ->
  forall acc, exists n, parse_digits 16 s acc = Some n.
Proof.
  induction s as [|c s IH]; intros Hall acc; [by exists acc|].
  simpl in Hall. apply andb_true_iff in Hall as [Hc Hs].
  unfold BigNumber.is_hex_digit in Hc. cbn [parse_digits].
  destruct (digit_value c) as [d|]; [|done]. rewrite Hc. by apply IH.
Qed.

Lemma parse_digits_append radix s1 s2 : forall acc,
  parse_digits radix (s1 ++ s2) acc
  = match parse_digits radix s1 acc with
    | Some n => parse_digits radix s2 n
    | None => None
    end.
Proof.
  induction s1 as [|c s1 IH]; intros acc; [done|].
  cbn [append parse_digits]. destruct (digit_value c) as [d|]; [|done].
  destruct (d <? radix); [apply IH|done].
Qed.

(** The digits of radix 16 are the hexadecimal digits, and [parse_digits]
    reads them as a hexadecimal numeral is read. *)
Lemma digit_value_hex c :
  match digit_value c with
  | Some d => if d <? 16 then Some d else None
  | None => None
  end = hex_digit c.
Proof. destruct c as [[] [] [] [] [] [] [] []]; vm_compute; reflexivity. Qed.

Lemma parse_digits_int_of_hex s : forall acc,
  parse_digits 16 s acc = int_of_hex_from acc s.
Proof.
  induction s as [|c s IH]; intros acc; [done|].
  cbn [parse_digits int_of_hex_from]. rewrite <- (digit_value_hex c).
  destruct (digit_value c) as [d|]; [|done]. destruct (d <? 16); [|done].
  rewrite IH. f_equal. lia.
Qed.

(** A string is its first [n] characters followed by the others. *)
Lemma substring_all s : String.substring 0 (String.length s) s = s.
Proof. induction s as [|c s IH]; simpl; [done|by rewrite IH]. Qed.

Lemma substring_split s : forall n, (n <= String.length s)%nat ->
  (String.substring 0 n s ++ String.substring n (String.length s - n) s)%string = s.
Proof.
  induction s as [|c s IH]; intros n Hn.
  - destruct n; [done|]. simpl in Hn. lia.
  - destruct n as [|n].
    + rewrite Nat.sub_0_r. cbn [String.substring append].
      apply (substring_all (String c s)).
    + cbn [String.substring String.length Nat.sub append]. rewrite IH; [done|].
      simpl in Hn. lia.
Qed.

(** [BigInt] on ["0x"] followed by hexadecimal digits reads the digits. *)
Lemma BigInt_0x digits n :
  digits <> EmptyString ->
  BigNumber.string_forallb BigNumber.is_hex_digit digits = true ->
  parse_digits 16 digits 0 = Some n ->
  BigInt (Str (String "0" (String "x" digits))) = Ok n.
Proof.
  intros Hne Hall Hn. cbn [BigInt]. unfold StringToBigInt.
  rewrite trim_no_white.
  2:{ pose proof (hex_digits_no_white digits Hall) as Hdigits.
      unfold no_white in *. cbn [BigNumber.string_forallb].
      apply andb_true_iff. split; [reflexivity|].
      apply andb_true_iff. split; [reflexivity|exact Hdigits]. }
  unfold parse_nonempty_digits. destruct digits as [|c rest]; [done|].
  by rewrite Hn.
Qed.

(** *** [toString(16)] *)

Lemma digit_value_hex_char d :
  0 <= d < 16 -> digit_value (hex_char d) = Some d.
Proof.
  intros Hd.
  assert (d = 0 \/ d = 1 \/ d = 2 \/ d = 3 \/ d = 4 \/ d = 5 \/ d = 6 \/ d = 7 \/
          d = 8 \/ d = 9 \/ d = 10 \/ d = 11 \/ d = 12 \/ d = 13 \/ d = 14 \/ d = 15)
    as Hcases by lia.
  repeat (destruct Hcases as [->|Hcases]; [reflexivity|]). by subst.
Qed.

(** The digits of [z], whatever they are put in front of. *)
Lemma hex_of_pos_acc fuel : forall z acc,
  hex_of_pos fuel z acc = (hex_of_pos fuel z EmptyString ++ acc)%string.
Proof.
  induction fuel as [|f IH]; intros z acc; [done|].
  cbn [hex_of_pos]. destruct (z / 16 =? 0); [done|].
  rewrite (IH _ (String _ acc)), (IH _ (String _ EmptyString)).
  by rewrite append_assoc.
Qed.

Lemma hex_of_pos_digits fuel : forall z,
  (0 < fuel)%nat ->
  0 <= z < 2 ^ Z.of_nat fuel ->
  hex_of_pos fuel z EmptyString <> EmptyString /\
  BigNumber.string_forallb BigNumber.is_hex_digit (hex_of_pos fuel z EmptyString) = true /\
  forall acc, exists k : nat,
    parse_digits 16 (hex_of_pos fuel z EmptyString) acc = Some (acc * 16 ^ Z.of_nat k + z).
Proof.
  induction fuel as [|f IH]; intros z Hfuel Hz; [lia|].
  assert (0 <= z mod 16 < 16) as Hd by (apply Z.mod_pos_bound; lia).
  pose proof (digit_value_hex_char _ Hd) as Hdv.
  cbn [hex_of_pos]. destruct (Z.eqb_spec (z / 16) 0) as [Hq|Hq].
  - split_and!; [done| |].
    + cbn [BigNumber.string_forallb]. unfold BigNumber.is_hex_digit. rewrite Hdv.
      destruct (Z.ltb_spec (z mod 16) 16); [done|lia].
    + intros acc. exists 1%nat. cbn [parse_digits]. rewrite Hdv.
      destruct (Z.ltb_spec (z mod 16) 16); [|lia].
      f_equal. change (16 ^ Z.of_nat 1) with 16. lia.
  - rewrite hex_of_pos_acc.
    assert (0 <= z / 16 < 2 ^ Z.of_nat f) as Hrec.
    { rewrite Nat2Z.inj_succ, Z.pow_succ_r in Hz by lia. lia. }
    assert (0 < f)%nat as Hf.
    { destruct f; [|lia]. change (2 ^ Z.of_nat 0) with 1 in Hrec. lia. }
    destruct (IH (z / 16) Hf Hrec) as (Hne & Hall & Hparse).
    split_and!.
    + destruct (hex_of_pos f (z / 16) EmptyString); [done|done].
    + rewrite forallb_append, Hall. cbn [BigNumber.string_forallb andb].
      unfold BigNumber.is_hex_digit. rewrite Hdv.
      destruct (Z.ltb_spec (z mod 16) 16); [done|lia].
    + intros acc. destruct (Hparse acc) as [k Hk]. exists (S k).
      rewrite parse_digits_append, Hk. cbn [parse_digits]. rewrite Hdv.
      destruct (Z.ltb_spec (z mod 16) 16); [|lia].
      f_equal. rewrite Nat2Z.inj_succ, Z.pow_succ_r by lia. lia.
Qed.

Lemma toString16_nonneg z :
  0 <= z ->
  toString16 z <> EmptyString /\
  BigNumber.string_forallb BigNumber.is_hex_digit (toString16 z) = true /\
  parse_digits 16 (toString16 z) 0 = Some z.
Proof.
  intros Hz. unfold toString16. destruct (Z.ltb_spec z 0); [lia|].
  destruct (hex_of_pos_digits (S (Z.to_nat (Z.log2 z))) z) as (Hne & Hall & Hparse).
  { lia. }
  { split; [done|]. rewrite Nat2Z.inj_succ, Z2Nat.id by apply Z.log2_nonneg.
    destruct (Z.eq_dec z 0) as [->|Hnz]; [reflexivity|].
    apply Z.log2_spec. lia. }
  split_and!; [done|done|].
  destruct (Hparse 0) as [k Hk]. rewrite Hk. reflexivity.
Qed.

End StringFacts.

(** ** JSON: an array of two plain strings, written and read back *)

Section JSONFacts.


Lemma quote_char_plain c : plain_char c = true -> JSON.quote_char c = String c EmptyString.
Proof.
  destruct c as [[] [] [] [] [] [] [] []]; vm_compute; congruence.
Qed.

Lemma parse_char_plain c rest :
  plain_char c = true ->
  JSON.parse_string_body (String c rest)
  = JSON.prepend (String c EmptyString) (JSON.parse_string_body rest).
Proof.
  destruct c as [[] [] [] [] [] [] [] []]; intros H; try (vm_compute in H; congruence);
    reflexivity.
Qed.

Lemma hex_digit_plain c : BigNumber.is_hex_digit c = true -> plain_char c = true.
Proof.
  destruct c as [[] [] [] [] [] [] [] []]; vm_compute; congruence.
Qed.

Lemma hex_digits_plain s :
  BigNumber.string_forallb BigNumber.is_hex_digit s = true -> plain s = true.
Proof.
  induction s as [|c s IH]; [done|]. unfold plain. simpl.
  intros H. apply andb_true_iff in H as [Hc Hs].
  rewrite (hex_digit_plain c Hc). by apply IH.
Qed.

Lemma quote_chars_plain s : plain s = true -> JSON.quote_chars s = s.
Proof.
  induction s as [|c s IH]; [done|]. intros H.
  unfold plain in H. cbn [BigNumber.string_forallb] in H.
  apply andb_true_iff in H as [Hc Hs].
  cbn [JSON.quote_chars]. rewrite (quote_char_plain c Hc), (IH Hs). done.
Qed.

Lemma parse_string_body_plain s rest :
  plain s = true ->
  JSON.parse_string_body (s ++ String JSON.dquote rest) = Some (s, rest).
Proof.
  induction s as [|c s IH]; [done|]. intros H.
  unfold plain in H. cbn [BigNumber.string_forallb] in H.
  apply andb_true_iff in H as [Hc Hs].
  cbn [append]. rewrite (parse_char_plain c _ Hc), (IH Hs). done.
Qed.

Lemma stringify_pair a b :
  plain a = true -> plain b = true ->
  JSON.stringify_strings [a; b]
  = String "[" (String JSON.dquote (a ++ String JSON.dquote (String ","
      (String JSON.dquote (b ++ String JSON.dquote (String "]" EmptyString)))))).
Proof.
  intros Ha Hb. unfold JSON.stringify_strings, JSON.join_quoted, JSON.quote.
  rewrite (quote_chars_plain a Ha), (quote_chars_plain b Hb).
  cbn [append]. rewrite !append_assoc. cbn [append].
  rewrite !append_assoc. cbn [append]. done.
Qed.

Lemma parse_value_pair fuel a b :
  (4 <= fuel)%nat -> plain a = true -> plain b = true ->
  JSON.parse_value fuel (JSON.stringify_strings [a; b])
  = Some (JSON.JArray [JSON.JString a; JSON.JString b], EmptyString).
Proof.
  intros Hfuel Ha Hb. rewrite (stringify_pair a b Ha Hb).
  destruct fuel as [|[|[|fuel]]]; try lia.
  change (JSON.parse_value (S (S (S fuel))) (String "[" (String JSON.dquote ?rest)))
    with (match JSON.parse_elements (S (S fuel)) (String JSON.dquote rest) with
          | Some (vs, r) => Some (JSON.JArray vs, r)
          | None => None
          end).
  change (JSON.parse_elements (S (S fuel)) (String JSON.dquote ?rest))
    with (match JSON.parse_value (S fuel) (String JSON.dquote rest) with
          | Some (v, r) =>
              match JSON.skip_ws r with
              | String "," r' =>
                  match JSON.parse_elements (S fuel) r' with
                  | Some (vs, r'') => Some (v :: vs, r'')
                  | None => None
                  end
              | String "]" r' => Some ([v], r')
              | _ => None
              end
          | None => None
          end).
  change (JSON.parse_value (S fuel) (String JSON.dquote ?rest))
    with (match JSON.parse_string_body rest with
          | Some (str, r) => Some (JSON.JString str, r)
          | None => None
          end).
  rewrite (parse_string_body_plain a _ Ha).
  change (JSON.skip_ws (String "," ?r)) with (String "," r). cbv iota.
  change (JSON.parse_elements (S fuel) (String JSON.dquote ?rest))
    with (match JSON.parse_value fuel (String JSON.dquote rest) with
          | Some (v, r) =>
              match JSON.skip_ws r with
              | String "," r' =>
                  match JSON.parse_elements fuel r' with
                  | Some (vs, r'') => Some (v :: vs, r'')
                  | None => None
                  end
              | String "]" r' => Some ([v], r')
              | _ => None
              end
          | None => None
          end).
  destruct fuel as [|fuel]; [lia|].
  change (JSON.parse_value (S fuel) (String JSON.dquote ?rest))
    with (match JSON.parse_string_body rest with
          | Some (str, r) => Some (JSON.JString str, r)
          | None => None
          end).
  rewrite (parse_string_body_plain b _ Hb). reflexivity.
Qed.

Lemma parse_stringify_pair a b :
  plain a = true -> plain b = true ->
  JSON.parse (JSON.stringify_strings [a; b])
  = Some (JSON.JArray [JSON.JString a; JSON.JString b]).
Proof.
  intros Ha Hb. unfold JSON.parse.
  rewrite parse_value_pair; [done| |done|done].
  unfold JSON.stringify_strings. cbn [String.length]. lia.
Qed.

End JSONFacts.

(** ** Identities *)

Section IdentityFacts.

Variable sha512 : string -> string.
Variable BigNumber_from_json : JSON.value -> result Z.

(** What is assumed of the digest: hexadecimal digits, 128 of them at
    most. *)
Hypothesis sha512_hex :
  forall s, (String.length (sha512 s) <= 128)%nat /\
            BigNumber.string_forallb BigNumber.is_hex_digit (sha512 s) = true.

Lemma with_secret_returns trapdoor nullifier :
  exists secret commitment,
    Poseidon.poseidon2 [Big nullifier; Big trapdoor] = Ok secret /\
    Poseidon.poseidon1 [Big secret] = Ok commitment /\
    Identity.with_secret trapdoor nullifier
    = Ok {| Identity._trapdoor := trapdoor; Identity._nullifier := nullifier;
            Identity._secret := secret; Identity._commitment := commitment |}.
Proof.
  destruct (poseidon2_returns (Big nullifier) (Big trapdoor) nullifier trapdoor eq_refl eq_refl)
    as [secret Hs].
  destruct (poseidon1_returns (Big secret) secret eq_refl) as [commitment Hc].
  exists secret, commitment. unfold Identity.with_secret.
  rewrite Hs, bind_Ok, Hc, bind_Ok. split_and!; reflexivity || assumption.
Qed.

Lemma padStart_digest s :
  String.length (Identity.padStart (sha512 s) 128) = 128%nat /\
  BigNumber.string_forallb BigNumber.is_hex_digit (Identity.padStart (sha512 s) 128) = true.
Proof.
  destruct (sha512_hex s) as [Hlen Hall]. unfold Identity.padStart. split.
  - rewrite length_append, length_zeros. lia.
  - by rewrite forallb_append, forallb_zeros, Hall.
Qed.

Lemma from_string_0x digits n :
  digits <> EmptyString ->
  BigNumber.string_forallb BigNumber.is_hex_digit digits = true ->
  parse_digits 16 digits 0 = Some n ->
  BigNumber.from_string (String "0" (String "x" digits)) = Ok n.
Proof.
  intros Hne Hall Hn. unfold BigNumber.from_string.
  unfold BigNumber.nonempty_all. destruct digits as [|c rest]; [done|].
  rewrite Hall, Hn. reflexivity.
Qed.

(** ** The properties of the identity *)

(** C4. For every string that is not the text of a JSON array, with [h]
    the digest of the string after as many zeros as it lacks to 128
    characters, [hi] the first 64 characters of [h] and [lo] the other 64,
    the constructor returns the identity whose nullifier is [hi] read as a
    hexadecimal numeral and shifted right by 3, whose trapdoor is the same
    of [lo], whose secret is [poseidon2] of the nullifier and the trapdoor
    and whose commitment is [poseidon1] of the secret; the random draws
    have no part in it, so that two constructions from one seed give the
    same identity. *)
Theorem seeded_identity (seed : string) :
  Identity.isJsonArray seed = false ->
  exists zeros hi lo n t secret commitment,
    zeros = string_of_list_ascii (repeat "0"%char (128 - String.length (sha512 seed))) /\
    (zeros ++ sha512 seed)%string = (hi ++ lo)%string /\
    String.length hi = 64%nat /\
    String.length lo = 64%nat /\
    int_of_hex hi = Some n /\
    int_of_hex lo = Some t /\
    Poseidon.poseidon2 [Big (Z.shiftr n 3); Big (Z.shiftr t 3)] = Ok secret /\
    Poseidon.poseidon1 [Big secret] = Ok commitment /\
    forall entropy,
      Identity.new sha512 BigNumber_from_json entropy (Some seed)
      = Ok {| Identity._trapdoor := Z.shiftr t 3;
              Identity._nullifier := Z.shiftr n 3;
              Identity._secret := secret;
              Identity._commitment := commitment |}.
Proof.
  intros Hjson.
  set (h := Identity.padStart (sha512 seed) 128).
  destruct (padStart_digest seed) as [Hlen Hall]. fold h in Hlen, Hall.
  assert (String.length (Identity.slice_to h 64) = 64%nat) as Hlen_n.
  { unfold Identity.slice_to. apply length_substring. lia. }
  assert (String.length (Identity.slice_from h 64) = 64%nat) as Hlen_t.
  { unfold Identity.slice_from. rewrite Hlen. apply length_substring. lia. }
  assert (BigNumber.string_forallb BigNumber.is_hex_digit (Identity.slice_to h 64) = true)
    as Hall_n by (by apply forallb_substring).
  assert (BigNumber.string_forallb BigNumber.is_hex_digit (Identity.slice_from h 64) = true)
    as Hall_t by (by apply forallb_substring).
  destruct (parse_digits_hex _ Hall_n 0) as [n Hn].
  destruct (parse_digits_hex _ Hall_t 0) as [t Ht].
  destruct (with_secret_returns (Z.shiftr t 3) (Z.shiftr n 3))
    as (secret & commitment & Hs & Hc & Hwith).
  exists (string_of_list_ascii (repeat "0"%char (128 - String.length (sha512 seed)))),
    (Identity.slice_to h 64), (Identity.slice_from h 64), n, t, secret, commitment.
  split; [reflexivity|]. split.
  { change (_ ++ sha512 seed)%string with h.
    unfold Identity.slice_to, Identity.slice_from. symmetry. apply substring_split. lia. }
  split; [exact Hlen_n|]. split; [exact Hlen_t|].
  split; [unfold int_of_hex; by rewrite <- parse_digits_int_of_hex|].
  split; [unfold int_of_hex; by rewrite <- parse_digits_int_of_hex|].
  split; [exact Hs|]. split; [exact Hc|].
  intros entropy. unfold Identity.new. rewrite Hjson. cbn [negb].
  fold h. unfold Identity.BigInt_string. cbn [append].
  assert (forall d, String.length d = 64%nat -> d <> EmptyString) as Hne.
  { intros d Hd ->. discriminate Hd. }
  rewrite (BigInt_0x (Identity.slice_from h 64) t (Hne _ Hlen_t) Hall_t Ht), bind_Ok.
  rewrite (BigInt_0x (Identity.slice_to h 64) n (Hne _ Hlen_n) Hall_n Hn), bind_Ok.
  exact Hwith.
Qed.

(** C5, as the code has it. For every identity whose trapdoor and
    nullifier are not negative, and so for every identity drawn at random or
    made from a seed, the constructor given [toString()] returns an identity
    with the same trapdoor and nullifier; it is the identity itself when its
    secret and commitment are those of its trapdoor and nullifier. *)
Theorem toString_round_trip (identity : Identity.Identity) (entropy : list Z * list Z) :
  0 <= Identity._trapdoor identity ->
  0 <= Identity._nullifier identity ->
  exists identity',
    Identity.new sha512 BigNumber_from_json entropy (Some (Identity.toString identity))
    = Ok identity' /\
    Identity._trapdoor identity' = Identity._trapdoor identity /\
    Identity._nullifier identity' = Identity._nullifier identity /\
    Identity.with_secret (Identity._trapdoor identity) (Identity._nullifier identity)
    = Ok identity' /\
    (Identity.with_secret (Identity._trapdoor identity) (Identity._nullifier identity)
     = Ok identity -> identity' = identity).
Proof.
  intros Ht Hn.
  destruct (toString16_nonneg _ Ht) as (Hne_t & Hall_t & Hparse_t).
  destruct (toString16_nonneg _ Hn) as (Hne_n & Hall_n & Hparse_n).
  destruct (with_secret_returns (Identity._trapdoor identity) (Identity._nullifier identity))
    as (secret & commitment & _ & _ & Hwith).
  exists {| Identity._trapdoor := Identity._trapdoor identity;
            Identity._nullifier := Identity._nullifier identity;
            Identity._secret := secret; Identity._commitment := commitment |}.
  split_and!; [|reflexivity|reflexivity|exact Hwith|].
  - unfold Identity.new, Identity.isJsonArray, Identity.toString. cbn [append].
    assert (forall d, BigNumber.string_forallb BigNumber.is_hex_digit d = true ->
              plain (String "0" (String "x" d)) = true) as Hplain.
    { intros d Hd. unfold plain. cbn [BigNumber.string_forallb].
      change (plain_char "0") with true. change (plain_char "x") with true.
      cbn [andb]. by apply hex_digits_plain. }
    rewrite (parse_stringify_pair _ _ (Hplain _ Hall_t) (Hplain _ Hall_n)).
    cbn [negb]. cbn [lookup list_lookup Identity.BigNumber_of_element].
    rewrite (from_string_0x _ _ Hne_t Hall_t Hparse_t), bind_Ok.
    rewrite (from_string_0x _ _ Hne_n Hall_n Hparse_n), bind_Ok.
    exact Hwith.
  - intros Hsame. rewrite Hwith in Hsame. by injection Hsame.
Qed.

End IdentityFacts.

(** * Examples *)

(** The two test vectors of poseidon-lite. *)
Example poseidon1_vector :
  Poseidon.poseidon1 [Big 1]
  = Ok 18586133768512220936620570745912940619677854269274689475585506675881198879027.
Proof. vm_compute. reflexivity. Qed.

Example poseidon2_vector :
  Poseidon.poseidon2 [Big 1; Big 2]
  = Ok 7853200120776062878684798364095072458815029376092732009249414926327459813530.
Proof. vm_compute. reflexivity. Qed.

Lemma Sample_sha512_hex s :
  (String.length (Sample.sha512 s) <= 128)%nat /\
  BigNumber.string_forallb BigNumber.is_hex_digit (Sample.sha512 s) = true.
Proof. split; [vm_compute; reflexivity|reflexivity]. Qed.

Lemma bulk_root_is_incremental_root_witness :
  exists t_bulk t_empty t_inc r,
    IMT.new Group.poseidon2 3 (Big 0) [Big 1; Big 2; Big 3] = Ok t_bulk /\
    IMT.new Group.poseidon2 3 (Big 0) [] = Ok t_empty /\
    IMT.insert_all Group.poseidon2 t_empty [Big 1; Big 2; Big 3] = Ok t_inc /\
    IMT.tree_root t_bulk = Ok r /\
    IMT.tree_root t_inc = Ok r.
Proof.
  apply (bulk_root_is_incremental_root Group.poseidon2 coercible
           coercible_defined group_hash_dom 3 (Big 0) [Big 1; Big 2; Big 3]).
  - lia.
  - apply coercible_Big.
  - repeat constructor; apply coercible_Big.
  - simpl. lia.
Defined.

Lemma insert_createProof_verifyProof_witness :
  exists t_empty t t' proof,
    IMT.new Group.poseidon2 2 (Big 0) [] = Ok t_empty /\
    IMT.insert_all Group.poseidon2 t_empty [Big 7; Big 8] = Ok t /\
    IMT.tree_insert Group.poseidon2 t (Big 9) = Ok t' /\
    IMT.tree_createProof t' (Z.of_nat (length [Big 7; Big 8])) = Ok proof /\
    IMT.leaf proof = Big 9 /\
    IMT.tree_root t' = Ok (IMT.root proof) /\
    IMT.tree_verifyProof Group.poseidon2 t' proof = Ok true.
Proof.
  apply (insert_createProof_verifyProof Group.poseidon2 coercible
           coercible_defined group_hash_dom 2 (Big 0) [Big 7; Big 8] (Big 9)).
  - lia.
  - apply coercible_Big.
  - repeat constructor; apply coercible_Big.
  - apply coercible_Big.
  - simpl. lia.
Defined.

Lemma empty_tree_root_witness :
  exists t r,
    IMT.new Group.poseidon2 20 (Big 0) [] = Ok t /\
    IMT.tree_root t = Ok r /\
    length (IMT._zeroes t) = Z.to_nat 20 /\
    array_get (IMT._zeroes t) 0 = Big 0 /\
    (forall l, (1 <= l < Z.to_nat 20)%nat ->
       Group.poseidon2 [array_get (IMT._zeroes t) (l - 1); array_get (IMT._zeroes t) (l - 1)]
       = Ok (array_get (IMT._zeroes t) l)) /\
    Group.poseidon2 [array_get (IMT._zeroes t) (Z.to_nat 20 - 1);
                     array_get (IMT._zeroes t) (Z.to_nat 20 - 1)] = Ok r.
Proof.
  apply (empty_tree_root Group.poseidon2 coercible coercible_defined group_hash_dom
           20 (Big 0)).
  - lia.
  - apply coercible_Big.
Defined.

(** A tree to update: the one the constructor returns on three leaves. *)
Lemma sample_tree :
  exists t,
    IMT.new Group.poseidon2 2 (Big 0) [Big 1; Big 2; Big 3] = Ok t /\
    wf Group.poseidon2 coercible t /\
    IMT._nodes t !! 0%nat = Some [Big 1; Big 2; Big 3].
Proof.
  destruct (new_leaves_wf Group.poseidon2 coercible coercible_defined group_hash_dom
              2 (Big 0) [Big 1; Big 2; Big 3]) as (t & Hnew & Hwf & _ & Hl & _).
  - lia.
  - apply coercible_Big.
  - repeat constructor; apply coercible_Big.
  - discriminate.
  - simpl. lia.
  - exists t. split; [exact Hnew|]. split; [exact Hwf|exact Hl].
Qed.

Lemma update_touches_the_path_only_witness :
  exists t t_upd t_del,
    IMT.new Group.poseidon2 2 (Big 0) [Big 1; Big 2; Big 3] = Ok t /\
    IMT.tree_update Group.poseidon2 t 1 (Num 9) = Ok t_upd /\
    IMT.tree_delete Group.poseidon2 t 1 = Ok t_del /\
    IMT._nodes t_upd !! 0%nat = Some [Big 1; Num 9; Big 3] /\
    same_off_path 1 t t_upd /\
    same_off_path 1 t t_del.
Proof.
  destruct sample_tree as (t & Hnew & Hwf & Hl).
  destruct (update_touches_the_path_only Group.poseidon2 coercible group_hash_dom
              t [Big 1; Big 2; Big 3] 1 (Num 9) Hwf Hl)
    as (t_upd & t_del & Hu & Hd & _ & Hlu & _ & Hsu & Hsd).
  - simpl. lia.
  - exists 9. reflexivity.
  - exists t, t_upd, t_del.
    split; [exact Hnew|]. split; [exact Hu|]. split; [exact Hd|].
    split; [exact Hlu|]. split; [exact Hsu|exact Hsd].
Defined.

(** C6, where it fails. A proof without path indices and a proof without
    a root make [verifyProof] throw the [TypeError] of [checkParameter]; a
    proof with an empty window makes the hash of a group throw, and
    [verifyProof] with it. *)
Lemma verifyProof_throws :
  IMT.verifyProof Group.poseidon2
    (Some {| IMT.proof_root := Big 1; IMT.proof_leaf := Big 1;
             IMT.proof_siblings := Some []; IMT.proof_pathIndices := None |})
  = throw (TypeError "Parameter 'proof.pathElements' is not defined") /\
  IMT.verifyProof Group.poseidon2
    {| IMT.root := Undefined; IMT.leaf := Big 1;
       IMT.pathIndices := []; IMT.siblings := [] |}
  = throw (TypeError "Parameter 'proof.root' is not defined") /\
  IMT.verifyProof Group.poseidon2
    {| IMT.root := Big 1; IMT.leaf := Big 1;
       IMT.pathIndices := [0]; IMT.siblings := [[]] |}
  = throw (Error "poseidon-lite: Incorrect M length, expected 2 got 3").
Proof. split; [reflexivity|]. split; [reflexivity|]. vm_compute. reflexivity. Qed.

Lemma verifyProof_returns_a_boolean_witness :
  IMT.verifyProof Group.poseidon2
    (Some {| IMT.proof_root := Big 4; IMT.proof_leaf := Big 1;
             IMT.proof_siblings := Some [[Big 2]; [Big 3]];
             IMT.proof_pathIndices := None |})
  = throw (TypeError "Parameter 'proof.pathElements' is not defined") /\
  exists node,
    fold_proof Group.poseidon2 (Big 1) [1; 0] [Big 2; Big 3] = Ok node /\
    IMT.verifyProof Group.poseidon2
      {| IMT.root := Big 4; IMT.leaf := Big 1;
         IMT.pathIndices := [1; 0]; IMT.siblings := [[Big 2]; [Big 3]] |}
    = Ok (strict_eq (Big 4) node).
Proof.
  destruct (verifyProof_returns_a_boolean Group.poseidon2 coercible
              coercible_defined group_hash_dom (Big 4) (Big 1) [1; 0] [Big 2; Big 3])
    as (_ & _ & _ & _ & Hindices & _ & Hreturns).
  split.
  - apply Hindices; discriminate.
  - apply Hreturns.
    + discriminate.
    + apply coercible_Big.
    + repeat constructor; apply coercible_Big.
Defined.

(** The first sibling of the proof of the first of three members is the
    second member. *)
Lemma first_sibling_of_three (a b c : Z) :
  exists g proof,
    Group.new Sample.keccak256 (Big 123) 20 [Big a; Big b; Big c] = Ok g /\
    Group.generateMerkleProof g 0 = Ok proof /\
    Group.siblings proof !! 0%nat = Some (Big b).
Proof.
  destruct (Group_hash_Big Sample.keccak256 123 ltac:(lia)) as [z Hz].
  destruct (Group_new_spec Sample.keccak256 (Big 123) 20 [Big a; Big b; Big c]
              ltac:(lia) z [a; b; c] Hz eq_refl ltac:(cbn [length]; lia))
    as (g & Hnew & Hok & Hd & Hl).
  cbn [map] in Hl.
  assert (0 <= 0 < Z.of_nat (length [Big a; Big b; Big c])) as Hi
    by (cbn [length]; lia).
  destruct (createProof_verifies Group.poseidon2 coercible coercible_defined
              (Group.merkleTree g) _ 0 Hok Hl Hi) as (p & Hp & _).
  destruct (tree_createProof_windows Group.poseidon2 coercible
              (Group.merkleTree g) _ 0 p Hok Hl Hi Hp) as (_ & _ & Hk).
  destruct (Hk 0%nat _ ltac:(pose proof (wf_depth _ _ _ Hok); lia) Hl) as (Hwin & _).
  exists g. eexists. split; [exact Hnew|].
  unfold Group.generateMerkleProof. rewrite Hp, bind_Ok. split; [reflexivity|].
  cbn [Group.siblings]. rewrite list_lookup_fmap, Hwin. reflexivity.
Qed.

(** C9, where it fails. In the group of members [123n], [2^300] and
    [-7n] the proof of the first member has for first sibling the second
    member as it was given: a bigint that is not below the modulus of the
    field. *)
Lemma generateMerkleProof_returns_a_member_beyond_the_field :
  exists g proof,
    Group.new Sample.keccak256 (Big 123) 20 large_members = Ok g /\
    Group.generateMerkleProof g 0 = Ok proof /\
    Group.siblings proof !! 0%nat = Some (Big (2 ^ 300)) /\
    Poseidon.F <= 2 ^ 300 /\
    ~ field_element (Big (2 ^ 300)).
Proof.
  assert (Poseidon.F <= 2 ^ 300) as HF by (apply Z.leb_le; vm_compute; reflexivity).
  destruct (first_sibling_of_three 123 (2 ^ 300) (-7)) as (g & proof & Hnew & Hrun & Hs).
  exists g, proof. split; [exact Hnew|]. split; [exact Hrun|]. split; [exact Hs|].
  split; [exact HF|]. intros (x & Hx & _ & Hlt).
  assert (x = 2 ^ 300) as Hx' by (symmetry; exact (f_equal (fun v => match v with Big y => y | _ => 0 end) Hx)).
  rewrite Hx' in Hlt. exact (Z.lt_irrefl _ (Z.lt_le_trans _ _ _ Hlt HF)).
Qed.

Lemma generateMerkleProof_collapses_windows_witness :
  exists g treeProof proof,
    Group.new (fun _ => 2 ^ 255) (Big 123) 20 [Big 123; Big 456] = Ok g /\
    IMT.tree_createProof (Group.merkleTree g) 1 = Ok treeProof /\
    Group.generateMerkleProof g 1 = Ok proof /\
    Group.root_ proof = IMT.root treeProof /\
    Group.leaf proof = IMT.leaf treeProof /\
    Group.pathIndices proof = IMT.pathIndices treeProof /\
    length (Group.siblings proof) = Group.depth g /\
    Group.depth g = 20%nat /\
    Forall2 (fun window sibling => window = [sibling])
            (IMT.siblings treeProof) (Group.siblings proof) /\
    Forall coercible (Group.siblings proof) /\
    Forall field_element (Group.siblings proof).
Proof.
  destruct (Group_hash_Big (fun _ => 2 ^ 255) 123 ltac:(lia)) as [z Hz].
  destruct (Group_new_spec (fun _ => 2 ^ 255) (Big 123) 20 [Big 123; Big 456] ltac:(lia)
              z [123; 456] Hz eq_refl ltac:(simpl; lia)) as (g & Hnew & Hok & Hd & Hl).
  destruct (generateMerkleProof_collapses_windows (fun _ => 2 ^ 255) g
              (map Big [123; 456]) 1 Hok Hl)
    as (treeProof & proof & H1 & H2 & H3 & H4 & H5 & H6 & H7 & H8 & _ & H9).
  - simpl. lia.
  - exists g, treeProof, proof.
    split; [exact Hnew|]. split; [exact H1|]. split; [exact H2|]. split; [exact H3|].
    split; [exact H4|]. split; [exact H5|]. split; [exact H6|]. split; [exact Hd|].
    split; [exact H7|]. split; [exact H8|].
    apply (H9 (Big 123) 20 [Big 123; Big 456] [123; 456]);
      [intros bytes; lia|reflexivity| |exact Hnew].
    repeat constructor; (apply Z.leb_le; vm_compute; reflexivity) ||
                        (apply Z.ltb_lt; vm_compute; reflexivity).
Defined.

Lemma sample_rate_commitment_spec :
  Prover.getRateCommitmentHash (Identity.getCommitment Sample.identity) 1
  = Ok sample_rate_commitment.
Proof. vm_compute. reflexivity. Qed.


Lemma seeded_identity_witness :
  Identity.isJsonArray "hello world" = false /\
  exists zeros hi lo n t secret commitment,
    zeros = string_of_list_ascii
              (repeat "0"%char (128 - String.length (Sample.sha512 "hello world"))) /\
    (zeros ++ Sample.sha512 "hello world")%string = (hi ++ lo)%string /\
    String.length hi = 64%nat /\
    String.length lo = 64%nat /\
    int_of_hex hi = Some n /\
    int_of_hex lo = Some t /\
    Poseidon.poseidon2 [Big (Z.shiftr n 3); Big (Z.shiftr t 3)] = Ok secret /\
    Poseidon.poseidon1 [Big secret] = Ok commitment /\
    forall entropy,
      Identity.new Sample.sha512 Sample.BigNumber_from_json entropy (Some "hello world")
      = Ok {| Identity._trapdoor := Z.shiftr t 3;
              Identity._nullifier := Z.shiftr n 3;
              Identity._secret := secret;
              Identity._commitment := commitment |}.
Proof.
  split; [reflexivity|].
  apply (seeded_identity Sample.sha512 Sample.BigNumber_from_json Sample_sha512_hex
           "hello world").
  reflexivity.
Defined.

(** C5, where it fails. The text of the array of ["-0x5"] and ["0x3"]
    makes an identity of trapdoor -5; its [toString()] is the text of the
    array of ["0x-5"] and ["0x3"], which the constructor refuses. *)
Lemma toString_round_trip_fails :
  exists identity,
    Identity.new Sample.sha512 Sample.BigNumber_from_json ([], [])
      (Some (JSON.stringify_strings ["-0x5"; "0x3"])) = Ok identity /\
    Identity._trapdoor identity = -5 /\
    Identity._nullifier identity = 3 /\
    Identity.toString identity = JSON.stringify_strings ["0x-5"; "0x3"] /\
    Identity.new Sample.sha512 Sample.BigNumber_from_json ([], [])
      (Some (Identity.toString identity))
    = throw (Error "invalid BigNumber string").
Proof.
  destruct (with_secret_returns (-5) 3) as (secret & commitment & _ & _ & Hwith).
  assert (forall a b,
            plain a = true -> plain b = true ->
            Identity.new Sample.sha512 Sample.BigNumber_from_json ([], [])
              (Some (JSON.stringify_strings [a; b]))
            = bind (BigNumber.from_string a) (fun trapdoor =>
              bind (BigNumber.from_string b) (fun nullifier =>
              Identity.with_secret trapdoor nullifier))) as Hnew.
  { intros a b Ha Hb. unfold Identity.new, Identity.isJsonArray.
    rewrite (parse_stringify_pair a b Ha Hb). reflexivity. }
  eexists. split; [|split; [|split; [|split]]].
  - rewrite Hnew by reflexivity.
    change (BigNumber.from_string "-0x5") with (Ok (-5) : result Z).
    change (BigNumber.from_string "0x3") with (Ok 3 : result Z).
    rewrite !bind_Ok. exact Hwith.
  - reflexivity.
  - reflexivity.
  - reflexivity.
  - change (Identity.toString _) with (JSON.stringify_strings ["0x-5"; "0x3"]).
    rewrite Hnew by reflexivity. reflexivity.
Qed.

Lemma toString_round_trip_witness :
  exists identity',
    Identity.new Sample.sha512 Sample.BigNumber_from_json ([], [])
      (Some (Identity.toString Sample.identity)) = Ok identity' /\
    Identity._trapdoor identity' = 1 /\
    Identity._nullifier identity' = 2.
Proof.
  destruct (toString_round_trip Sample.sha512 Sample.BigNumber_from_json
              Sample.identity ([], [])) as (identity' & Hnew & Ht & Hn & _).
  - simpl. lia.
  - simpl. lia.
  - exists identity'. split; [exact Hnew|]. split; [exact Ht|exact Hn].
Defined.

(** * Further properties *)

(** ** The tree *)

Section TreeMore.

Variable hash : list Node -> result Node.
Variable dom : Node -> Prop.
Hypothesis dom_defined : forall a, dom a -> a <> Undefined.
Hypothesis hash_dom :
  forall a b, dom a -> dom b -> exists h, hash [a; b] = Ok h /\ dom h.

Lemma wf_level t m :
  wf hash dom t -> (m <= IMT._depth t)%nat -> exists row, IMT._nodes t !! m = Some row.
Proof.
  intros Hwf Hm. apply lookup_lt_is_Some_2. rewrite (wf_nodes_len _ _ _ Hwf). lia.
Qed.

Lemma wf_leaves_dom t leaves :
  wf hash dom t -> IMT._nodes t !! 0%nat = Some leaves -> Forall dom leaves.
Proof.
  intros Hwf Hl. exact (Forall_lookup_1 _ _ _ _ (wf_nodes_dom _ _ _ Hwf) Hl).
Qed.

(** X1. Every leaf of a well-formed tree has a proof: [createProof]
    returns at every index of a leaf, with the leaf, the root of the tree,
    one window of one node and one path index per level, and [verifyProof]
    accepts what it returns. *)
Theorem every_leaf_has_a_proof
    (t : IMT.IncrementalMerkleTree) (leaves : list Node) (i : Z) :
  wf hash dom t -> IMT._nodes t !! 0%nat = Some leaves ->
  0 <= i < Z.of_nat (length leaves) ->
  exists p,
    IMT.tree_createProof t i = Ok p /\
    IMT.tree_root t = Ok (IMT.root p) /\
    IMT.leaf p = array_get leaves (Z.to_nat i) /\
    length (IMT.siblings p) = IMT._depth t /\
    length (IMT.pathIndices p) = IMT._depth t /\
    Forall (fun window => length window = 1%nat) (IMT.siblings p) /\
    IMT.tree_verifyProof hash t p = Ok true.
Proof.
  intros Hwf Hl Hi.
  destruct (createProof_verifies hash dom dom_defined t leaves i Hwf Hl Hi)
    as (p & Hp & Hroot & Hleaf & Hs & Hpi & Hv).
  destruct (tree_createProof_windows hash dom t leaves i p Hwf Hl Hi Hp) as (_ & _ & Hk).
  exists p. split_and!; try assumption.
  apply Forall_lookup_2. intros k w Hw.
  assert (k < IMT._depth t)%nat as Hlt.
  { rewrite <- Hs. eapply lookup_lt_Some. exact Hw. }
  destruct (wf_level t k Hwf ltac:(lia)) as [row Hrow].
  destruct (Hk k row Hlt Hrow) as (Hwin & _ & _).
  rewrite Hwin in Hw. injection Hw as <-. reflexivity.
Qed.

Lemma index_of_digits pis : forall n,
  (forall k, (k < length pis)%nat ->
     pis !! k = Some (Z.of_nat ((n / 2 ^ k) mod 2))) ->
  index_of_path pis = Z.of_nat (n mod 2 ^ length pis).
Proof.
  induction pis as [|b rest IH]; intros n Hall.
  - cbn [index_of_path length]. rewrite Nat.pow_0_r, Nat.mod_1_r. reflexivity.
  - cbn [index_of_path length].
    pose proof (Hall 0%nat ltac:(cbn [length]; lia)) as H0.
    rewrite Nat.pow_0_r, Nat.div_1_r in H0.
    change ((b :: rest) !! 0%nat) with (Some b) in H0.
    assert (b = Z.of_nat (n mod 2)) as Hb by congruence.
    rewrite (IH (n / 2)%nat).
    + rewrite Hb, Nat.pow_succ_r', Nat.Div0.mod_mul_r. lia.
    + intros k Hk. pose proof (Hall (S k) ltac:(cbn [length]; lia)) as HS.
      change ((b :: rest) !! S k) with (rest !! k) in HS. rewrite HS.
      rewrite Nat.pow_succ_r', Nat.Div0.div_div. reflexivity.
Qed.

(** X2. The path indices of a proof are the binary digits of the index
    of its leaf, least significant first: each is 0 or 1, and together
    they denote the index. *)
Theorem pathIndices_spell_the_index
    (t : IMT.IncrementalMerkleTree) (leaves : list Node) (i : Z) (p : IMT.MerkleProof) :
  wf hash dom t -> IMT._nodes t !! 0%nat = Some leaves ->
  0 <= i < Z.of_nat (length leaves) ->
  IMT.tree_createProof t i = Ok p ->
  Forall (fun position => position = 0 \/ position = 1) (IMT.pathIndices p) /\
  index_of_path (IMT.pathIndices p) = i.
Proof.
  intros Hwf Hl Hi Hp.
  destruct (tree_createProof_windows hash dom t leaves i p Hwf Hl Hi Hp) as (_ & Hlen & Hk).
  assert (forall k, (k < length (IMT.pathIndices p))%nat ->
            IMT.pathIndices p !! k = Some (Z.of_nat ((Z.to_nat i / 2 ^ k) mod 2))) as Hdigits.
  { intros k Hlt. rewrite Hlen in Hlt.
    destruct (wf_level t k Hwf ltac:(lia)) as [row Hrow].
    destruct (Hk k row Hlt Hrow) as (_ & _ & Hpi). exact Hpi. }
  split.
  - apply Forall_lookup_2. intros k b Hb.
    rewrite (Hdigits k) in Hb by (eapply lookup_lt_Some; exact Hb).
    injection Hb as <-. lia.
  - rewrite (index_of_digits _ (Z.to_nat i) Hdigits), Hlen.
    pose proof (wf_capacity _ _ _ Hwf leaves Hl) as Hcap.
    rewrite Nat.mod_small by lia. lia.
Qed.

Lemma tree_createProof_out_of_range t leaves i :
  wf hash dom t -> IMT._nodes t !! 0%nat = Some leaves ->
  i < 0 \/ Z.of_nat (length leaves) <= i ->
  IMT.tree_createProof t i = throw (Error "The leaf does not exist in this tree").
Proof.
  intros Hwf Hl Hi.
  assert ((i <? 0) || (Z.of_nat (length leaves) <=? i) = true) as Htest.
  { apply orb_true_iff. destruct Hi; [left; apply Z.ltb_lt|right; apply Z.leb_le]; lia. }
  destruct (wf_root hash dom t Hwf) as (r & Hr & _).
  unfold IMT.tree_createProof, IMT.createProof.
  rewrite Hr, bind_Ok, checkParameter_number, bind_Ok, (level_of_lookup _ _ _ Hl), bind_Ok,
    Htest.
  reflexivity.
Qed.

(** X3. An index that is not the index of a leaf is refused: below 0, or
    at the number of leaves or beyond it, [createProof], [update] and
    [delete] throw, and the message is that the leaf does not exist. *)
Theorem no_leaf_at_index
    (t : IMT.IncrementalMerkleTree) (leaves : list Node) (i : Z) (v : Node) :
  wf hash dom t -> IMT._nodes t !! 0%nat = Some leaves ->
  i < 0 \/ Z.of_nat (length leaves) <= i ->
  IMT.tree_createProof t i = throw (Error "The leaf does not exist in this tree") /\
  IMT.tree_update hash t i v = throw (Error "The leaf does not exist in this tree") /\
  IMT.tree_delete hash t i = throw (Error "The leaf does not exist in this tree").
Proof.
  intros Hwf Hl Hi.
  assert ((i <? 0) || (Z.of_nat (length leaves) <=? i) = true) as Htest.
  { apply orb_true_iff. destruct Hi; [left; apply Z.ltb_lt|right; apply Z.leb_le]; lia. }
  assert (forall w, IMT.update hash i w (IMT._depth t) (IMT._nodes t) (IMT._zeroes t)
                    = throw (Error "The leaf does not exist in this tree")
                      :> result (list (list Node) * Node)) as Hupd.
  { intros w. unfold IMT.update.
    rewrite checkParameter_number, bind_Ok, (level_of_lookup _ _ _ Hl), bind_Ok, Htest.
    reflexivity. }
  split_and!.
  - exact (tree_createProof_out_of_range t leaves i Hwf Hl Hi).
  - unfold IMT.tree_update. rewrite Hupd. reflexivity.
  - unfold IMT.tree_delete. rewrite Hupd. reflexivity.
Qed.

(** X4. [insert] returns exactly while the tree has room: below
    [2^depth] leaves it appends the leaf and keeps the tree well formed,
    at [2^depth] leaves it throws, and the message is that the tree is
    full. *)
Theorem insert_until_full
    (t : IMT.IncrementalMerkleTree) (leaves : list Node) (x : Node) :
  wf hash dom t -> IMT._nodes t !! 0%nat = Some leaves -> dom x ->
  ((length leaves < 2 ^ IMT._depth t)%nat ->
     exists t', IMT.tree_insert hash t x = Ok t' /\ wf hash dom t' /\
                IMT._depth t' = IMT._depth t /\
                IMT.tree_leaves t' = Ok (leaves ++ [x])) /\
  ((length leaves = 2 ^ IMT._depth t)%nat ->
     IMT.tree_insert hash t x = throw (Error "The tree is full")).
Proof.
  intros Hwf Hl Hx. split.
  - intros Hroom.
    destruct (tree_insert_spec hash dom dom_defined hash_dom t leaves x Hwf Hl Hroom Hx)
      as (t' & Hrun & Hwf' & Hd & _ & Hl').
    exists t'. split_and!; try assumption.
    unfold IMT.tree_leaves. exact (level_of_lookup _ _ _ Hl').
  - intros Hfull. unfold IMT.tree_insert, IMT.insert.
    rewrite (checkParameter_scalar x "leaf" (dom_defined x Hx)), bind_Ok.
    rewrite (level_of_lookup _ _ _ Hl), bind_Ok.
    change IMT.arity with 2%nat.
    destruct (Nat.leb_spec (2 ^ IMT._depth t) (length leaves)) as [_|Hlt]; [reflexivity|lia].
Qed.

Lemma array_indexOf_from_In arr x : forall i,
  (array_indexOf_from arr x i = -1 /\ ~ In x arr) \/
  (exists k : nat, array_indexOf_from arr x i = i + Z.of_nat k /\
     arr !! k = Some x /\ ~ In x (take k arr)).
Proof.
  induction arr as [|y rest IH]; intros i.
  - left. split; [reflexivity|intros []].
  - cbn [array_indexOf_from]. destruct (strict_eq y x) eqn:Heq.
    + apply strict_eq_eq in Heq as ->. right. exists 0%nat.
      split_and!; [lia|reflexivity|intros []].
    + assert (y <> x) as Hne.
      { intros ->. rewrite strict_eq_refl in Heq. discriminate. }
      destruct (IH (i + 1)) as [[Hrun Hnot]|(k & Hrun & Hk & Hnot)].
      * left. split; [exact Hrun|]. intros [->|Hin]; [by apply Hne|by apply Hnot].
      * right. exists (S k). split_and!; [lia|exact Hk|].
        cbn [take]. intros [->|Hin]; [by apply Hne|by apply Hnot].
Qed.

(** X5. [indexOf] of a defined value returns -1 exactly when no leaf is
    the value, and otherwise the index of the first leaf that is: the
    leaf at the index is the value and no leaf before it is.  Leaves are
    compared with [===]. *)
Theorem indexOf_first_occurrence
    (t : IMT.IncrementalMerkleTree) (leaves : list Node) (x : Node) :
  IMT._nodes t !! 0%nat = Some leaves -> x <> Undefined ->
  exists i,
    IMT.tree_indexOf t x = Ok i /\
    ((i = -1 /\ ~ In x leaves) \/
     (exists k : nat, i = Z.of_nat k /\ leaves !! k = Some x /\ ~ In x (take k leaves))).
Proof.
  intros Hl Hx. exists (array_indexOf leaves x). split.
  - unfold IMT.tree_indexOf, IMT.indexOf.
    rewrite (checkParameter_scalar x "leaf" Hx), bind_Ok, (level_of_lookup _ _ _ Hl), bind_Ok.
    reflexivity.
  - unfold array_indexOf.
    destruct (array_indexOf_from_In leaves x 0) as [[Hrun Hnot]|(k & Hrun & Hk & Hnot)].
    + left. by split.
    + right. exists k. split_and!; [lia|exact Hk|exact Hnot].
Qed.


Lemma array_indexOf_from_app arr x y : forall i,
  (~ In y arr ->
   array_indexOf_from (arr ++ [x]) y i
   = if strict_eq x y then i + Z.of_nat (length arr) else -1) /\
  (In y arr -> array_indexOf_from (arr ++ [x]) y i = array_indexOf_from arr y i).
Proof.
  induction arr as [|z rest IH]; intros i.
  - split; [|intros []]. intros _. cbn [app array_indexOf_from length].
    destruct (strict_eq x y); [lia|reflexivity].
  - cbn [app array_indexOf_from length]. destruct (strict_eq z y) eqn:Heq.
    + apply strict_eq_eq in Heq as ->. split; [|reflexivity].
      intros Hnot. exfalso. apply Hnot. by left.
    + assert (z <> y) as Hne.
      { intros ->. rewrite strict_eq_refl in Heq. discriminate. }
      destruct (IH (i + 1)) as [IHa IHb]. split.
      * intros Hnot. rewrite IHa by (intros Hin; apply Hnot; by right).
        destruct (strict_eq x y); [lia|reflexivity].
      * intros [->|Hin]; [by destruct Hne|]. by apply IHb.
Qed.

(** X6. What is inserted is found: after [insert] of a value that was
    not a leaf, [indexOf] returns the number of leaves there were; and the
    index of every value that was a leaf is what it was, whether or not the
    inserted value is one of them. *)
Theorem insert_then_indexOf
    (t : IMT.IncrementalMerkleTree) (leaves : list Node) (x : Node) :
  wf hash dom t -> IMT._nodes t !! 0%nat = Some leaves -> dom x ->
  (length leaves < 2 ^ IMT._depth t)%nat ->
  exists t',
    IMT.tree_insert hash t x = Ok t' /\
    (~ In x leaves -> IMT.tree_indexOf t' x = Ok (Z.of_nat (length leaves))) /\
    (forall y, y <> Undefined -> In y leaves ->
       IMT.tree_indexOf t' y = IMT.tree_indexOf t y).
Proof.
  intros Hwf Hl Hx Hroom.
  destruct (tree_insert_spec hash dom dom_defined hash_dom t leaves x Hwf Hl Hroom Hx)
    as (t' & Hrun & _ & _ & _ & Hl').
  assert (forall t0 l y, IMT._nodes t0 !! 0%nat = Some l -> y <> Undefined ->
            IMT.tree_indexOf t0 y = Ok (array_indexOf l y)) as Hidx.
  { intros t0 l y Hl0 Hy. unfold IMT.tree_indexOf, IMT.indexOf.
    rewrite (checkParameter_scalar y "leaf" Hy), bind_Ok, (level_of_lookup _ _ _ Hl0), bind_Ok.
    reflexivity. }
  exists t'. split_and!; [exact Hrun| |].
  - intros Hnot. rewrite (Hidx t' _ x Hl' (dom_defined x Hx)). f_equal.
    unfold array_indexOf.
    rewrite (proj1 (array_indexOf_from_app leaves x x 0) Hnot), strict_eq_refl. lia.
  - intros y Hy Hin. rewrite (Hidx t' _ y Hl' Hy), (Hidx t _ y Hl Hy). f_equal.
    unfold array_indexOf. exact (proj2 (array_indexOf_from_app leaves x y 0) Hin).
Qed.

(** X7. The last [update] of a leaf is the one that counts, and writing
    the old leaf back restores the tree: after [update(i, v)], a second
    [update(i, w)] gives the tree that [update(i, w)] alone gives, and
    [update] with the leaf that was at [i] gives the tree there was, node
    for node. *)
Theorem update_overwrites_and_restores
    (t : IMT.IncrementalMerkleTree) (leaves : list Node) (i : Z) (v w : Node) :
  wf hash dom t -> IMT._nodes t !! 0%nat = Some leaves ->
  0 <= i < Z.of_nat (length leaves) -> dom v -> dom w ->
  exists t1 t2,
    IMT.tree_update hash t i v = Ok t1 /\
    IMT.tree_update hash t i w = Ok t2 /\
    IMT.tree_update hash t1 i w = Ok t2 /\
    IMT.tree_update hash t1 i (array_get leaves (Z.to_nat i)) = Ok t.
Proof.
  intros Hwf Hl Hi Hv Hw.
  destruct (tree_update_spec hash dom hash_dom t leaves i v Hwf Hl Hi Hv)
    as (_ & t1 & Hrun1 & Hwf1 & Hd1 & Hz1 & Hl1 & _).
  destruct (tree_update_spec hash dom hash_dom t leaves i w Hwf Hl Hi Hw)
    as (_ & t2 & Hrun2 & Hwf2 & Hd2 & Hz2 & Hl2 & _).
  assert (0 <= i < Z.of_nat (length (<[Z.to_nat i := v]> leaves))) as Hi1
    by (rewrite length_insert; exact Hi).
  destruct (tree_update_spec hash dom hash_dom t1 _ i w Hwf1 Hl1 Hi1 Hw)
    as (_ & t3 & Hrun3 & Hwf3 & Hd3 & Hz3 & Hl3 & _).
  assert (dom (array_get leaves (Z.to_nat i))) as Hold.
  { apply array_get_Forall; [lia|]. exact (wf_leaves_dom t leaves Hwf Hl). }
  destruct (tree_update_spec hash dom hash_dom t1 _ i _ Hwf1 Hl1 Hi1 Hold)
    as (_ & t4 & Hrun4 & Hwf4 & Hd4 & Hz4 & Hl4 & _).
  exists t1, t2. split_and!; [exact Hrun1|exact Hrun2| |].
  - rewrite Hrun3. f_equal. apply (wf_unique hash dom); try assumption; try congruence.
    rewrite Hl3, Hl2, list_insert_insert_eq. reflexivity.
  - rewrite Hrun4. f_equal. apply (wf_unique hash dom); try assumption; try congruence.
    rewrite Hl4, Hl, list_insert_insert_eq. f_equal. apply list_insert_id.
    apply array_get_lt. lia.
Qed.

(** X8. Updates of different leaves commute: the tree after
    [update(i, v)] and [update(j, w)] does not depend on which came
    first. *)
Theorem updates_commute
    (t : IMT.IncrementalMerkleTree) (leaves : list Node) (i j : Z) (v w : Node) :
  wf hash dom t -> IMT._nodes t !! 0%nat = Some leaves ->
  0 <= i < Z.of_nat (length leaves) -> 0 <= j < Z.of_nat (length leaves) ->
  i <> j -> dom v -> dom w ->
  exists t1 t2 t',
    IMT.tree_update hash t i v = Ok t1 /\
    IMT.tree_update hash t1 j w = Ok t' /\
    IMT.tree_update hash t j w = Ok t2 /\
    IMT.tree_update hash t2 i v = Ok t'.
Proof.
  intros Hwf Hl Hi Hj Hij Hv Hw.
  destruct (tree_update_spec hash dom hash_dom t leaves i v Hwf Hl Hi Hv)
    as (_ & t1 & Hrun1 & Hwf1 & Hd1 & Hz1 & Hl1 & _).
  destruct (tree_update_spec hash dom hash_dom t leaves j w Hwf Hl Hj Hw)
    as (_ & t2 & Hrun2 & Hwf2 & Hd2 & Hz2 & Hl2 & _).
  assert (0 <= j < Z.of_nat (length (<[Z.to_nat i := v]> leaves))) as Hj1
    by (rewrite length_insert; exact Hj).
  assert (0 <= i < Z.of_nat (length (<[Z.to_nat j := w]> leaves))) as Hi2
    by (rewrite length_insert; exact Hi).
  destruct (tree_update_spec hash dom hash_dom t1 _ j w Hwf1 Hl1 Hj1 Hw)
    as (_ & t3 & Hrun3 & Hwf3 & Hd3 & Hz3 & Hl3 & _).
  destruct (tree_update_spec hash dom hash_dom t2 _ i v Hwf2 Hl2 Hi2 Hv)
    as (_ & t4 & Hrun4 & Hwf4 & Hd4 & Hz4 & Hl4 & _).
  exists t1, t2, t3. split_and!; [exact Hrun1|exact Hrun3|exact Hrun2|].
  rewrite Hrun4. f_equal. apply (wf_unique hash dom); try assumption; try congruence.
  rewrite Hl4, Hl3. f_equal. apply list_insert_insert_ne. lia.
Qed.

(** X9. The constructor returns exactly on a depth from 1 to 32 and at
    most [2^depth] leaves: outside the range of depths and beyond the
    capacity it throws, each with its message, and otherwise it returns a
    well-formed tree of that depth with the leaves it was given. *)
Theorem constructor_returns_or_throws
    (depth : Z) (zeroValue : Node) (leaves : list Node) :
  dom zeroValue -> Forall dom leaves ->
  (depth < 1 \/ 32 < depth ->
     IMT.new hash depth zeroValue leaves
     = throw (Error "The tree depth must be between 1 and 32")) /\
  (1 <= depth <= 32 -> 2 ^ depth < Z.of_nat (length leaves) ->
     IMT.new hash depth zeroValue leaves
     = throw (Error ("The tree cannot contain more than " ++ toString10 (2 ^ depth)
                     ++ " leaves"))) /\
  (1 <= depth <= 32 -> Z.of_nat (length leaves) <= 2 ^ depth ->
     exists t, IMT.new hash depth zeroValue leaves = Ok t /\ wf hash dom t /\
               IMT._depth t = Z.to_nat depth /\ IMT.tree_leaves t = Ok leaves).
Proof.
  intros Hz Hleaves. split_and!.
  - intros Hd. unfold IMT.new.
    rewrite checkParameter_number, bind_Ok,
      (checkParameter_scalar zeroValue "zeroValue" (dom_defined _ Hz)), bind_Ok.
    replace ((depth <? 1) || (IMT.maxDepth <? depth)) with true; [reflexivity|].
    symmetry. apply orb_true_iff. unfold IMT.maxDepth.
    destruct Hd; [left; apply Z.ltb_lt|right; apply Z.ltb_lt]; lia.
  - intros Hd Hmany. unfold IMT.new.
    rewrite checkParameter_number, bind_Ok,
      (checkParameter_scalar zeroValue "zeroValue" (dom_defined _ Hz)), bind_Ok.
    replace ((depth <? 1) || (IMT.maxDepth <? depth)) with false.
    2:{ symmetry. apply orb_false_iff. unfold IMT.maxDepth.
        split; apply Z.ltb_ge; lia. }
    change (Z.of_nat IMT.arity) with 2.
    destruct (Z.ltb_spec (2 ^ depth) (Z.of_nat (length leaves))) as [_|Hle]; [reflexivity|lia].
  - intros Hd Hfit. destruct leaves as [|x rest].
    + destruct (new_empty_wf hash dom dom_defined hash_dom depth zeroValue Hd Hz)
        as (t & Hnew & Hwf & Hdepth & Hl).
      exists t. split_and!; try assumption.
      unfold IMT.tree_leaves. exact (level_of_lookup _ _ _ Hl).
    + destruct (new_leaves_wf hash dom dom_defined hash_dom depth zeroValue (x :: rest)
                  Hd Hz Hleaves ltac:(discriminate) Hfit)
        as (t & Hnew & Hwf & Hdepth & Hl & _).
      exists t. split_and!; try assumption.
      unfold IMT.tree_leaves. exact (level_of_lookup _ _ _ Hl).
Qed.

(** X10. [verifyProof] does not accept the proof of a leaf for another
    root: with the root of a proof that [createProof] returned replaced by
    any other defined value, it returns [false]. *)
Theorem verifyProof_rejects_another_root
    (t : IMT.IncrementalMerkleTree) (leaves : list Node) (i : Z)
    (p : IMT.MerkleProof) (root' : Node) :
  wf hash dom t -> IMT._nodes t !! 0%nat = Some leaves ->
  0 <= i < Z.of_nat (length leaves) ->
  IMT.tree_createProof t i = Ok p ->
  root' <> Undefined -> root' <> IMT.root p ->
  IMT.verifyProof hash
    {| IMT.root := root'; IMT.leaf := IMT.leaf p;
       IMT.pathIndices := IMT.pathIndices p; IMT.siblings := IMT.siblings p |}
  = Ok false.
Proof.
  intros Hwf Hl Hi Hp Hdef Hne.
  destruct (createProof_verifies hash dom dom_defined t leaves i Hwf Hl Hi)
    as (p0 & Hp0 & _ & _ & _ & _ & Hv).
  rewrite Hp in Hp0. injection Hp0 as <-.
  rewrite (verifyProof_proof_of hash) in Hv |- *.
  cbn [IMT.root IMT.leaf IMT.pathIndices IMT.siblings].
  rewrite (checkParameter_scalar root' "proof.root" Hdef), bind_Ok.
  destruct (IMT.checkParameter (IMT.root p) "proof.root" _) as [e|[]]; [discriminate Hv|].
  rewrite bind_Ok in Hv.
  destruct (IMT.checkParameter (IMT.leaf p) "proof.leaf" _) as [e|[]]; [discriminate Hv|].
  rewrite bind_Ok in Hv |- *.
  destruct (IMT.verifyProof_loop hash (IMT.siblings p) 0 (IMT.pathIndices p) (IMT.leaf p))
    as [e|node]; [discriminate Hv|].
  rewrite bind_Ok in Hv |- *. f_equal.
  assert (strict_eq (IMT.root p) node = true) as Heq by (unfold Ok in Hv; congruence).
  apply strict_eq_eq in Heq as <-.
  destruct (strict_eq root' (IMT.root p)) eqn:Heq'; [|reflexivity].
  apply strict_eq_eq in Heq'. contradiction.
Qed.

Lemma pair_of_node_at row zero j :
  pair_of row zero j = [node_at row zero (2 * j); node_at row zero (2 * j + 1)].
Proof. reflexivity. Qed.

Lemma parents_node_at zero zero' row above :
  parents_ok hash zero row above -> hash [zero; zero] = Ok zero' ->
  forall j, hash (pair_of row zero j) = Ok (node_at above zero' j).
Proof.
  intros [Hlen Hall] Hzero j. unfold node_at.
  destruct (Nat.ltb_spec j (length above)) as [Hlt|Hge]; [exact (Hall j Hlt)|].
  rewrite ceil_div_2 in Hlen. unfold pair_of.
  destruct (Nat.ltb_spec (2 * j) (length row)) as [|_]; [lia|].
  destruct (Nat.ltb_spec (2 * j + 1) (length row)) as [|_]; [lia|].
  exact Hzero.
Qed.

Lemma zero_chain_step z zs top m :
  zero_chain hash z zs top -> (S m < length zs)%nat ->
  hash [array_get zs m; array_get zs m] = Ok (array_get zs (S m)).
Proof.
  intros Hchain Hm.
  destruct (lookup_lt_is_Some_2 zs m ltac:(lia)) as [a Ha].
  destruct (lookup_lt_is_Some_2 zs (S m) Hm) as [c Hc].
  destruct (zero_chain_head hash z zs top m a Hchain Ha) as (b & Hb & Hnext).
  rewrite Hc in Hnext. subst c.
  rewrite (array_get_lookup _ _ _ Ha), (array_get_lookup _ _ _ Hc). exact Hb.
Qed.

Lemma zero_chain_first z zs top :
  zero_chain hash z zs top -> zs <> [] -> array_get zs 0 = z.
Proof. destruct zs as [|z0 rest]; [done|]. intros [-> _] _. reflexivity. Qed.

(** Two well-formed trees over the same zeroes whose leaves are the same
    but for zeroes at the end have the same nodes at every level, but for
    zeroes at the end, and the same root. *)
Lemma same_nodes_same_root t t' z top leaves leaves' :
  wf hash dom t -> wf hash dom t' ->
  IMT._depth t' = IMT._depth t -> IMT._zeroes t' = IMT._zeroes t ->
  zero_chain hash z (IMT._zeroes t) top ->
  IMT._nodes t !! 0%nat = Some leaves -> IMT._nodes t' !! 0%nat = Some leaves' ->
  (forall j, node_at leaves (array_get (IMT._zeroes t) 0) j
             = node_at leaves' (array_get (IMT._zeroes t) 0) j) ->
  IMT.tree_root t' = IMT.tree_root t.
Proof.
  intros Hwf Hwf' Hd Hz Hchain Hl Hl' Hsame.
  pose proof (wf_depth _ _ _ Hwf) as Hdepth.
  pose proof (wf_zeroes_len _ _ _ Hwf) as Hzlen.
  assert (forall m, (m < IMT._depth t)%nat ->
            forall row row', IMT._nodes t !! m = Some row -> IMT._nodes t' !! m = Some row' ->
            forall j, node_at row (array_get (IMT._zeroes t) m) j
                      = node_at row' (array_get (IMT._zeroes t) m) j) as Hlevels.
  { induction m as [|m IH]; intros Hm row row' Hrow Hrow'.
    - rewrite Hl in Hrow. rewrite Hl' in Hrow'.
      injection Hrow as <-. injection Hrow' as <-. exact Hsame.
    - destruct (wf_level t m Hwf ltac:(lia)) as [below Hbelow].
      destruct (wf_level t' m Hwf' ltac:(lia)) as [below' Hbelow'].
      pose proof (IH ltac:(lia) below below' Hbelow Hbelow') as Hsame_below.
      pose proof (wf_levels _ _ _ Hwf m below row ltac:(lia) Hm Hbelow Hrow) as Hp.
      pose proof (wf_levels _ _ _ Hwf' m below' row' ltac:(lia) ltac:(lia) Hbelow' Hrow')
        as Hp'.
      rewrite Hz in Hp'.
      pose proof (zero_chain_step z _ top m Hchain ltac:(lia)) as Hstep.
      intros j.
      pose proof (parents_node_at _ _ _ _ Hp Hstep j) as Hj.
      pose proof (parents_node_at _ _ _ _ Hp' Hstep j) as Hj'.
      rewrite !pair_of_node_at in Hj, Hj'. rewrite <- !Hsame_below in Hj'.
      rewrite Hj in Hj'. unfold Ok in Hj'. congruence. }
  destruct (wf_top _ _ _ Hwf) as (rowtop & r & Hrowtop & Htop & Hr).
  destruct (wf_top _ _ _ Hwf') as (rowtop' & r' & Hrowtop' & Htop' & Hr').
  rewrite Hd in Hrowtop', Htop', Hr'. rewrite Hz in Hr'.
  pose proof (Hlevels (IMT._depth t - 1)%nat ltac:(lia) rowtop rowtop' Hrowtop Hrowtop')
    as Hsame_top.
  rewrite !pair_of_node_at in Hr, Hr'. rewrite <- !Hsame_top in Hr'.
  assert (r' = r) as -> by (rewrite Hr in Hr'; unfold Ok in Hr'; congruence).
  unfold IMT.tree_root. rewrite Hd.
  rewrite (level_of_lookup _ _ _ Htop), (level_of_lookup _ _ _ Htop'). reflexivity.
Qed.

Lemma node_at_zero_appended leaves zero j :
  node_at leaves zero j = node_at (leaves ++ [zero]) zero j.
Proof.
  unfold node_at, array_get. rewrite length_app. cbn [length].
  destruct (Nat.ltb_spec j (length leaves)) as [Hlt|Hge].
  - destruct (Nat.ltb_spec j (length leaves + 1)) as [_|]; [|lia].
    rewrite lookup_app_l by exact Hlt. reflexivity.
  - destruct (Nat.ltb_spec j (length leaves + 1)) as [Hlt|_]; [|reflexivity].
    assert (j = length leaves) as -> by lia.
    rewrite lookup_app_r by lia. rewrite Nat.sub_diag. reflexivity.
Qed.

(** X11. A removed leaf is an empty place for the root: in a tree made by
    the constructor, [insert] of a leaf followed by [delete] at its index
    gives back the root there was, while the tree keeps the place, which
    holds the zero value. *)
Theorem insert_then_delete_restores_the_root
    (depth : Z) (zeroValue : Node) (leaves : list Node) (x : Node) :
  1 <= depth <= 32 -> dom zeroValue -> Forall dom leaves -> dom x ->
  Z.of_nat (length leaves) < 2 ^ depth ->
  exists t t1 t2 r,
    IMT.new hash depth zeroValue leaves = Ok t /\
    IMT.tree_insert hash t x = Ok t1 /\
    IMT.tree_delete hash t1 (Z.of_nat (length leaves)) = Ok t2 /\
    IMT.tree_leaves t2 = Ok (leaves ++ [zeroValue]) /\
    IMT.tree_root t = Ok r /\
    IMT.tree_root t2 = Ok r.
Proof.
  intros Hd Hz Hleaves Hx Hroom.
  destruct (new_empty_spec hash dom dom_defined hash_dom depth zeroValue Hd Hz)
    as (zeroes & top & Hnew0 & Hzlen & _ & _ & Hchain).
  assert (exists t, IMT.new hash depth zeroValue leaves = Ok t /\ wf hash dom t /\
                    IMT._depth t = Z.to_nat depth /\ IMT._zeroes t = zeroes /\
                    IMT._nodes t !! 0%nat = Some leaves) as (t & Hnew & Hwf & Hdt & Hzt & Hl).
  { destruct leaves as [|y rest].
    - destruct (new_empty_wf hash dom dom_defined hash_dom depth zeroValue Hd Hz)
        as (t & Hnew & Hwf & Hdt & Hl).
      exists t. split_and!; try assumption.
      rewrite Hnew0 in Hnew. injection Hnew as <-. reflexivity.
    - destruct (new_leaves_wf hash dom dom_defined hash_dom depth zeroValue (y :: rest)
                  Hd Hz Hleaves ltac:(discriminate) ltac:(lia))
        as (t & Hnew & Hwf & Hdt & Hl & t0 & Hnew0' & Hzt).
      exists t. split_and!; try assumption.
      rewrite Hnew0 in Hnew0'. injection Hnew0' as <-. exact Hzt. }
  assert (length leaves < 2 ^ IMT._depth t)%nat as Hroom'.
  { rewrite Hdt. apply Nat2Z.inj_lt. rewrite Nat2Z.inj_pow, Z2Nat.id by lia. exact Hroom. }
  destruct (tree_insert_spec hash dom dom_defined hash_dom t leaves x Hwf Hl Hroom' Hx)
    as (t1 & Hins & Hwf1 & Hd1 & Hz1 & Hl1).
  assert (array_get (IMT._zeroes t1) 0 = zeroValue) as Hzero.
  { rewrite Hz1, Hzt. apply (zero_chain_first _ _ _ Hchain). intros ->.
    cbn [length] in Hzlen. lia. }
  destruct (tree_update_spec hash dom hash_dom t1 (leaves ++ [x]) (Z.of_nat (length leaves))
              zeroValue Hwf1 Hl1 ltac:(rewrite length_app; cbn [length]; lia) Hz)
    as (_ & t2 & Hupd & Hwf2 & Hd2 & Hz2 & Hl2 & _).
  rewrite Nat2Z.id in Hl2.
  replace (<[length leaves := zeroValue]> (leaves ++ [x])) with (leaves ++ [zeroValue]) in Hl2.
  2:{ rewrite insert_app_r_alt by lia. rewrite Nat.sub_diag. reflexivity. }
  destruct (wf_root hash dom t Hwf) as (r & Hr & _).
  exists t, t1, t2, r. split_and!; [exact Hnew|exact Hins| | |exact Hr|].
  - unfold IMT.tree_delete. rewrite Hzero. exact Hupd.
  - unfold IMT.tree_leaves. exact (level_of_lookup _ _ _ Hl2).
  - rewrite <- Hr.
    apply (same_nodes_same_root t t2 zeroValue top leaves (leaves ++ [zeroValue]));
      try assumption.
    + congruence.
    + congruence.
    + rewrite Hzt. exact Hchain.
    + intros j. rewrite Hzt, (zero_chain_first _ _ _ Hchain).
      * apply node_at_zero_appended.
      * intros ->. cbn [length] in Hzlen. lia.
Qed.

End TreeMore.

(** ** Poseidon *)

Section PoseidonMore.

(** X12. On inputs that are not negative [poseidon1] and [poseidon2]
    return an element of the field: a value from 0 to [F - 1]. *)
Theorem poseidon_returns_a_field_element (a b : Node) (x y : Z) :
  BigInt a = Ok x -> BigInt b = Ok y -> 0 <= x -> 0 <= y ->
  (exists h, Poseidon.poseidon1 [a] = Ok h /\ 0 <= h < Poseidon.F) /\
  (exists h, Poseidon.poseidon2 [a; b] = Ok h /\ 0 <= h < Poseidon.F).
Proof.
  intros Ha Hb Hx Hy. split.
  - destruct (poseidon1_returns a x Ha) as [h Hh]. exists h. split; [exact Hh|].
    apply (poseidon_in_field [a] [x] Poseidon.c1 h); [reflexivity| | |exact Hh].
    + cbn [map_BigInt]. rewrite Ha, !bind_Ok. reflexivity.
    + repeat constructor. exact Hx.
  - destruct (poseidon2_returns a b x y Ha Hb) as [h Hh]. exists h. split; [exact Hh|].
    apply (poseidon_in_field [a; b] [x; y] Poseidon.c2 h); [reflexivity| | |exact Hh].
    + cbn [map_BigInt]. rewrite Ha, Hb, !bind_Ok. reflexivity.
    + repeat constructor; assumption.
Qed.

(** X13. [poseidon1] returns exactly on one input and [poseidon2]
    exactly on two, each of them a value [BigInt] accepts.  On inputs that
    [BigInt] accepts they refuse any other number of them with an error of
    their own: not enough inputs on none, too many on more than 16, and
    otherwise the table of constants, made for one input or for two, has
    not the length that goes with the number of inputs. *)
Theorem poseidon_takes_its_number_of_inputs (inputs : list Node) :
  ((exists h, Poseidon.poseidon1 inputs = Ok h)
   <-> exists a, inputs = [a] /\ coercible a) /\
  ((exists h, Poseidon.poseidon2 inputs = Ok h)
   <-> exists a b, inputs = [a; b] /\ coercible a /\ coercible b) /\
  (Forall coercible inputs ->
   (inputs = [] ->
    Poseidon.poseidon1 inputs = throw (Error "poseidon-lite: Not enough inputs") /\
    Poseidon.poseidon2 inputs = throw (Error "poseidon-lite: Not enough inputs")) /\
   ((16 < length inputs)%nat ->
    Poseidon.poseidon1 inputs = throw (Error "poseidon-lite: Too many inputs") /\
    Poseidon.poseidon2 inputs = throw (Error "poseidon-lite: Too many inputs")) /\
   ((2 <= length inputs <= 16)%nat ->
    Poseidon.poseidon1 inputs
    = throw (Error ("poseidon-lite: Incorrect M length, expected "
                    ++ toString10 (Z.of_nat (length inputs) + 1) ++ " got 2")%string)) /\
   ((length inputs = 1 \/ 3 <= length inputs <= 16)%nat ->
    Poseidon.poseidon2 inputs
    = throw (Error ("poseidon-lite: Incorrect M length, expected "
                    ++ toString10 (Z.of_nat (length inputs) + 1) ++ " got 3")%string))).
Proof.
  split; [split|split; [split|]].
  - intros [h Hrun]. destruct (poseidon_Ok_length inputs Poseidon.c1 h Hrun) as [Hall Hlen].
    change (length (Poseidon.M Poseidon.c1)) with 2%nat in Hlen.
    destruct inputs as [|a [|b rest]]; try discriminate Hlen.
    exists a. split; [reflexivity|exact (Forall_inv Hall)].
  - intros (a & -> & x & Hx). exact (poseidon1_returns a x Hx).
  - intros [h Hrun]. destruct (poseidon_Ok_length inputs Poseidon.c2 h Hrun) as [Hall Hlen].
    change (length (Poseidon.M Poseidon.c2)) with 3%nat in Hlen.
    destruct inputs as [|a [|b [|c rest]]]; try discriminate Hlen.
    exists a, b. split; [reflexivity|].
    split; [exact (Forall_inv Hall)|exact (Forall_inv (Forall_inv_tail Hall))].
  - intros (a & b & -> & [x Hx] & [y Hy]). exact (poseidon2_returns a b x y Hx Hy).
  - intros Hall. split; [|split; [|split]].
    + intros Hnil. split; apply poseidon_not_enough; exact Hnil.
    + intros Hlen. split; apply poseidon_too_many; assumption.
    + intros Hlen.
      apply (poseidon_wrong_table inputs Poseidon.c1 Hall); [lia|].
      change (length (Poseidon.M Poseidon.c1)) with 2%nat. lia.
    + intros Hlen.
      apply (poseidon_wrong_table inputs Poseidon.c2 Hall); [lia|].
      change (length (Poseidon.M Poseidon.c2)) with 3%nat. lia.
Qed.

End PoseidonMore.


(** ** Groups *)

Section GroupMore.

Variable keccak256 : list Z -> Z.

Lemma Group_new_tree id treeDepth members z zs :
  16 <= treeDepth <= 32 ->
  Group.hash keccak256 id = Ok z -> map_BigInt members = Ok zs ->
  Group.new keccak256 id treeDepth members
  = bind (IMT.new Group.poseidon2 treeDepth (Big z) (map Big zs))
         (fun tree => Ok {| Group._id := id; Group.merkleTree := tree |}).
Proof.
  intros Hd Hz Hzs. unfold Group.new.
  replace ((treeDepth <? 16) || (32 <? treeDepth)) with false.
  2:{ symmetry. apply orb_false_iff. split; apply Z.ltb_ge; lia. }
  rewrite Hz, bind_Ok, Hzs, bind_Ok. reflexivity.
Qed.

Lemma Forall_coercible_Big zs : Forall coercible (map Big zs).
Proof. apply Forall_map. apply List.Forall_forall. intros z _. apply coercible_Big. Qed.

Lemma addMembers_spec members : forall zs g leaves,
  group_ok g -> IMT._nodes (Group.merkleTree g) !! 0%nat = Some leaves ->
  map_BigInt members = Ok zs ->
  (length leaves + length zs <= 2 ^ Group.depth g)%nat ->
  exists tree,
    Group.addMembers g members = Ok {| Group._id := Group._id g; Group.merkleTree := tree |} /\
    wf Group.poseidon2 coercible tree /\
    IMT._depth tree = Group.depth g /\
    IMT._zeroes tree = IMT._zeroes (Group.merkleTree g) /\
    IMT._nodes tree !! 0%nat = Some (leaves ++ map Big zs).
Proof.
  induction members as [|member rest IH]; intros zs g leaves Hok Hl Hzs Hroom.
  - injection Hzs as <-. exists (Group.merkleTree g). cbn [Group.addMembers map].
    rewrite app_nil_r. destruct g. split_and!; try done.
  - cbn [map_BigInt] in Hzs. destruct (BigInt member) as [e|m] eqn:Hm; [discriminate Hzs|].
    rewrite bind_Ok in Hzs.
    destruct (map_BigInt rest) as [e|zs'] eqn:Hrest; [discriminate Hzs|].
    rewrite bind_Ok in Hzs. injection Hzs as <-. cbn [length map] in Hroom |- *.
    destruct (tree_insert_spec Group.poseidon2 coercible coercible_defined group_hash_dom
                (Group.merkleTree g) leaves (Big m) Hok Hl ltac:(unfold Group.depth in Hroom; lia)
                (coercible_Big m)) as (t' & Hins & Hwf' & Hd' & Hz' & Hl').
    set (g' := {| Group._id := Group._id g; Group.merkleTree := t' |}).
    destruct (IH zs' g' (leaves ++ [Big m]) Hwf' Hl' eq_refl) as (tree & Hrun & Hwf & Hd & Hzz & Hll).
    { unfold Group.depth, g'. cbn [Group.merkleTree]. rewrite Hd', length_app.
      unfold Group.depth in Hroom. cbn [length]. lia. }
    exists tree. cbn [Group.addMembers]. unfold Group.addMember at 1.
    rewrite Hm, bind_Ok, Hins, bind_Ok. fold g'. rewrite bind_Ok, Hrun.
    split_and!; [reflexivity|exact Hwf| | |].
    + rewrite Hd. unfold Group.depth, g'. cbn [Group.merkleTree]. exact Hd'.
    + rewrite Hzz. exact Hz'.
    + rewrite Hll, <- app_assoc. reflexivity.
Qed.

(** X14. A group made with its members is the group made without
    members to which [addMembers] adds them: the same identifier and the
    same tree, node for node. *)
Theorem constructor_is_addMembers
    (id : Node) (treeDepth : Z) (members : list Node) (z : Z) (zs : list Z) :
  16 <= treeDepth <= 32 ->
  Group.hash keccak256 id = Ok z ->
  map_BigInt members = Ok zs ->
  Z.of_nat (length zs) <= 2 ^ treeDepth ->
  exists g g0,
    Group.new keccak256 id treeDepth members = Ok g /\
    Group.new keccak256 id treeDepth [] = Ok g0 /\
    Group.addMembers g0 members = Ok g.
Proof.
  intros Hd Hz Hzs Hfit.
  assert (1 <= treeDepth <= 32) as Hd1 by lia.
  destruct (new_empty_wf Group.poseidon2 coercible coercible_defined group_hash_dom
              treeDepth (Big z) Hd1 (coercible_Big z)) as (t0 & Hnew0 & Hwf0 & Hdepth0 & Hl0).
  set (g0 := {| Group._id := id; Group.merkleTree := t0 |}).
  assert (Group.new keccak256 id treeDepth [] = Ok g0) as Hg0.
  { rewrite (Group_new_tree id treeDepth [] z [] Hd Hz eq_refl). cbn [map].
    rewrite Hnew0, bind_Ok. reflexivity. }
  destruct (addMembers_spec members zs g0 [] Hwf0 Hl0 Hzs) as (tree & Hadd & Hwf & Hdt & Hzt & Hlt).
  { unfold Group.depth, g0. cbn [Group.merkleTree length]. rewrite Hdepth0.
    apply Nat2Z.inj_le. rewrite Nat2Z.inj_pow, Z2Nat.id by lia. exact Hfit. }
  cbn [app] in Hlt.
  assert (IMT.new Group.poseidon2 treeDepth (Big z) (map Big zs) = Ok tree) as Hnew.
  { destruct zs as [|x zs'].
    - cbn [map]. rewrite Hnew0. f_equal.
      apply (wf_unique Group.poseidon2 coercible); try assumption.
      + rewrite Hdt. reflexivity.
      + rewrite Hzt. reflexivity.
      + rewrite Hl0, Hlt. reflexivity.
    - destruct (new_leaves_wf Group.poseidon2 coercible coercible_defined group_hash_dom
                  treeDepth (Big z) (map Big (x :: zs')) Hd1 (coercible_Big z)
                  (Forall_coercible_Big _) ltac:(discriminate))
        as (t & Hnewt & Hwft & Hdeptht & Hlt' & t0' & Hnew0' & Hzt').
      { rewrite length_map. exact Hfit. }
      rewrite Hnewt. f_equal. apply (wf_unique Group.poseidon2 coercible); try assumption.
      + rewrite Hdt, Hdeptht. unfold Group.depth, g0. cbn [Group.merkleTree]. exact (eq_sym Hdepth0).
      + rewrite Hnew0 in Hnew0'. injection Hnew0' as <-.
        rewrite Hzt, Hzt'. reflexivity.
      + rewrite Hlt, Hlt'. reflexivity. }
  exists {| Group._id := id; Group.merkleTree := tree |}, g0.
  split_and!; [|exact Hg0|exact Hadd].
  rewrite (Group_new_tree id treeDepth members z zs Hd Hz Hzs), Hnew, bind_Ok. reflexivity.
Qed.

Lemma generateMerkleProof_verifies (g : Group.Group) (leaves : list Node) (i : Z) :
  group_ok g ->
  IMT._nodes (Group.merkleTree g) !! 0%nat = Some leaves ->
  0 <= i < Z.of_nat (length leaves) ->
  exists proof,
    Group.generateMerkleProof g i = Ok proof /\
    Group.root g = Ok (Group.root_ proof) /\
    Group.leaf proof = array_get leaves (Z.to_nat i) /\
    length (Group.siblings proof) = Group.depth g /\
    IMT.verifyProof Group.poseidon2
      {| IMT.root := Group.root_ proof;
         IMT.leaf := Group.leaf proof;
         IMT.pathIndices := Group.pathIndices proof;
         IMT.siblings := map (fun sibling => [sibling]) (Group.siblings proof) |}
    = Ok true.
Proof.
  intros Hok Hl Hi.
  destruct (createProof_verifies Group.poseidon2 coercible coercible_defined
              (Group.merkleTree g) leaves i Hok Hl Hi) as (p & Hp & Hroot & Hleaf & Hs & _ & Hv).
  destruct (tree_createProof_windows Group.poseidon2 coercible
              (Group.merkleTree g) leaves i p Hok Hl Hi Hp) as (_ & _ & Hk).
  eexists. unfold Group.generateMerkleProof. rewrite Hp, bind_Ok.
  split; [reflexivity|]. cbn [Group.root_ Group.leaf Group.pathIndices Group.siblings].
  split_and!; [exact Hroot|exact Hleaf|rewrite length_map; exact Hs|].
  assert (map (fun sibling => [sibling]) (map (fun s => array_get s 0) (IMT.siblings p))
          = IMT.siblings p) as ->.
  { rewrite map_map. apply list_eq. intros k. rewrite list_lookup_fmap.
    destruct (IMT.siblings p !! k) as [w|] eqn:Hw; [|reflexivity]. cbn [fmap option_fmap option_map].
    assert (k < IMT._depth (Group.merkleTree g))%nat as Hlt.
    { rewrite <- Hs. eapply lookup_lt_Some. exact Hw. }
    destruct (lookup_lt_is_Some_2 (IMT._nodes (Group.merkleTree g)) k) as [row Hrow].
    { rewrite (wf_nodes_len _ _ _ Hok). lia. }
    destruct (Hk k row Hlt Hrow) as (Hwin & _ & _).
    rewrite Hwin in Hw. injection Hw as <-. reflexivity. }
  destruct p. exact Hv.
Qed.

(** X15. The proof of a group is a proof of its tree: with every sibling
    put back in a window of its own, [verifyProof] accepts what
    [generateMerkleProof] returns at every index of a member; its leaf is
    the member and its root is the root of the group. *)
Theorem group_proof_verifies (g : Group.Group) (leaves : list Node) (i : Z) :
  group_ok g ->
  IMT._nodes (Group.merkleTree g) !! 0%nat = Some leaves ->
  0 <= i < Z.of_nat (length leaves) ->
  exists proof,
    Group.generateMerkleProof g i = Ok proof /\
    Group.root g = Ok (Group.root_ proof) /\
    Group.leaf proof = array_get leaves (Z.to_nat i) /\
    IMT.verifyProof Group.poseidon2
      {| IMT.root := Group.root_ proof;
         IMT.leaf := Group.leaf proof;
         IMT.pathIndices := Group.pathIndices proof;
         IMT.siblings := map (fun sibling => [sibling]) (Group.siblings proof) |}
    = Ok true.
Proof.
  intros Hok Hl Hi.
  destruct (generateMerkleProof_verifies g leaves i Hok Hl Hi)
    as (proof & Hrun & Hroot & Hleaf & _ & Hv).
  exists proof. exact (conj Hrun (conj Hroot (conj Hleaf Hv))).
Qed.

Lemma array_indexOf_from_insert arr x z : forall k i,
  (k < length arr)%nat ->
  strict_eq (array_get arr k) x = false -> strict_eq z x = false ->
  array_indexOf_from (<[k := z]> arr) x i = array_indexOf_from arr x i.
Proof.
  induction arr as [|y rest IH]; intros k i Hk Hold Hnew; [reflexivity|].
  destruct k as [|k].
  - cbn [insert list_insert array_indexOf_from].
    change (array_get (y :: rest) 0) with y in Hold. rewrite Hold, Hnew. reflexivity.
  - cbn [insert list_insert array_indexOf_from].
    change (<[k := z]> rest) with (list_insert k z rest).
    destruct (strict_eq y x); [reflexivity|].
    apply IH; [cbn [length] in Hk; lia|exact Hold|exact Hnew].
Qed.

(** X16. [removeMember] puts the zero value of the group where the
    member was and removes nothing else: the group has as many members as
    before, and [indexOf] of every value other than the removed member and
    the zero value returns what it returned before. *)
Theorem removeMember_keeps_the_others (g : Group.Group) (leaves : list Node) (i : Z) :
  group_ok g ->
  IMT._nodes (Group.merkleTree g) !! 0%nat = Some leaves ->
  0 <= i < Z.of_nat (length leaves) ->
  exists g',
    Group.removeMember g i = Ok g' /\
    group_ok g' /\
    Group.members g' = Ok (<[Z.to_nat i := Group.zeroValue g]> leaves) /\
    (forall member, member <> Undefined ->
       member <> array_get leaves (Z.to_nat i) -> member <> Group.zeroValue g ->
       Group.indexOf g' member = Group.indexOf g member).
Proof.
  intros Hok Hl Hi.
  assert (coercible (Group.zeroValue g)) as Hzero.
  { unfold Group.zeroValue. apply array_get_Forall; [|exact (wf_zeroes_dom _ _ _ Hok)].
    rewrite (wf_zeroes_len _ _ _ Hok). pose proof (wf_depth _ _ _ Hok). lia. }
  destruct (tree_update_spec Group.poseidon2 coercible group_hash_dom
              (Group.merkleTree g) leaves i (Group.zeroValue g) Hok Hl Hi Hzero)
    as (_ & t' & Hrun & Hwf' & _ & _ & Hl' & _).
  exists {| Group._id := Group._id g; Group.merkleTree := t' |}.
  split_and!.
  - unfold Group.removeMember, IMT.tree_delete.
    unfold IMT.tree_update, Group.zeroValue in Hrun. rewrite Hrun. reflexivity.
  - exact Hwf'.
  - unfold Group.members, IMT.tree_leaves. cbn [Group.merkleTree].
    exact (level_of_lookup _ _ _ Hl').
  - intros member Hdef Hold Hnew.
    rewrite (Group_indexOf_leaves {| Group._id := Group._id g; Group.merkleTree := t' |}
               _ member Hl' Hdef), (Group_indexOf_leaves g _ member Hl Hdef).
    f_equal. unfold array_indexOf. apply array_indexOf_from_insert; [lia| |].
    + destruct (strict_eq (array_get leaves (Z.to_nat i)) member) eqn:Heq; [|reflexivity].
      apply strict_eq_eq in Heq. congruence.
    + destruct (strict_eq (Group.zeroValue g) member) eqn:Heq; [|reflexivity].
      apply strict_eq_eq in Heq. congruence.
Qed.

(** The identifiers that have a hash: a value of [BigNumber.from] from 0
    to [2^256 - 1], or a negative one above [-2^260] that is no multiple of
    [2^256]; the two's complement of the others does not fit in 32 bytes. *)
Lemma Group_hash_returns (id : Node) :
  (exists z, Group.hash keccak256 id = Ok z)
  <-> exists value,
        BigNumber.from id = Ok value /\ - 2 ^ 260 < value < 2 ^ 256 /\
        (value < 0 -> value mod 2 ^ 256 <> 0).
Proof.
  unfold Group.hash. destruct (BigNumber.from id) as [e|value].
  { split; [intros [z Hz]; discriminate Hz|intros (v & Hv & _); discriminate Hv]. }
  rewrite bind_Ok. cbv zeta.
  assert (BigNumber.toTwos 256 value < 2 ^ 256
          <-> - 2 ^ 260 < value < 2 ^ 256 /\ (value < 0 -> value mod 2 ^ 256 <> 0)) as Hfit.
  { unfold BigNumber.toTwos, BigNumber.inotn.
    change ((256 + 25) / 26) with 10. change (26 * 10) with 260.
    change (2 ^ 260) with (16 * 2 ^ 256). set (m := 2 ^ 256).
    assert (0 < m) as Hm by (subst m; lia).
    destruct (Z.ltb_spec value 0) as [Hneg|Hpos]; [|lia].
    pose proof (Z.mod_pos_bound (- value) m Hm) as Hr.
    pose proof (Z.div_pos (- value) (16 * m) ltac:(lia) ltac:(lia)) as Hq.
    assert (- value / (16 * m) = 0 <-> - value < 16 * m) as Hsmall.
    { split; [intros H0|intros Hlt; apply Z.div_small; lia].
      pose proof (Z.mul_succ_div_gt (- value) (16 * m) ltac:(lia)). nia. }
    assert (value mod m = 0 <-> - value mod m = 0) as Hmod.
    { rewrite !Z.mod_divide by lia. split; intros Hd.
      - exact (proj2 (Z.divide_opp_r m value) Hd).
      - exact (proj1 (Z.divide_opp_r m value) Hd). }
    split.
    - intros Hlt. assert (- value / (16 * m) = 0) as H0 by nia.
      split; [lia|]. intros _ Hz. rewrite H0 in Hlt. lia.
    - intros [Hrange Hnz]. assert (- value / (16 * m) = 0) as H0 by (apply Hsmall; lia).
      rewrite H0. specialize (Hnz Hneg). lia. }
  destruct (Z.leb_spec (2 ^ 256) (BigNumber.toTwos 256 value)) as [Hge|Hlt].
  - split; [intros [z Hz]; discriminate Hz|].
    intros (v & Hv & Hrange). assert (v = value) as -> by (unfold Ok in Hv; congruence).
    apply Hfit in Hrange. lia.
  - split; [|intros _; eexists; reflexivity].
    intros _. exists value. split; [reflexivity|]. by apply Hfit.
Qed.

(** X17. The constructor of a group returns exactly when the depth is
    from 16 to 32, the identifier is a number from [-2^260 + 1] to
    [2^256 - 1] that, when negative, is no multiple of [2^256], every
    member is a value [BigInt] accepts and the members fit in the tree. *)
Theorem Group_constructor_returns_exactly_when
    (id : Node) (treeDepth : Z) (members : list Node) :
  (exists g, Group.new keccak256 id treeDepth members = Ok g)
  <->
  16 <= treeDepth <= 32 /\
  (exists value,
     BigNumber.from id = Ok value /\ - 2 ^ 260 < value < 2 ^ 256 /\
     (value < 0 -> value mod 2 ^ 256 <> 0)) /\
  Forall coercible members /\
  Z.of_nat (length members) <= 2 ^ treeDepth.
Proof.
  rewrite <- Group_hash_returns. split.
  - intros [g Hnew]. pose proof Hnew as Hrun. unfold Group.new in Hrun.
    destruct ((treeDepth <? 16) || (32 <? treeDepth)) eqn:Hd; [discriminate Hrun|].
    apply orb_false_iff in Hd as [Hd1 Hd2]. apply Z.ltb_ge in Hd1, Hd2.
    destruct (Group.hash keccak256 id) as [e|z] eqn:Hz; [discriminate Hrun|].
    rewrite bind_Ok in Hrun.
    destruct (map_BigInt members) as [e|zs] eqn:Hzs; [discriminate Hrun|].
    rewrite bind_Ok in Hrun.
    destruct (IMT.new Group.poseidon2 treeDepth (Big z) (map Big zs)) as [e|t] eqn:Ht;
      [discriminate Hrun|].
    destruct (IMT_new_inv _ _ _ _ _ Ht) as (_ & Hfit & _).
    destruct (map_BigInt_length members zs Hzs) as [Hlen Hall].
    rewrite length_map, Hlen in Hfit.
    split_and!; [lia|lia|by exists z|exact Hall|exact Hfit].
  - intros (Hd & [z Hz] & Hall & Hfit).
    destruct (map_BigInt_returns members Hall) as (zs & Hzs & Hlen).
    destruct (Group_new_spec keccak256 id treeDepth members Hd z zs Hz Hzs) as (g & Hg & _).
    { rewrite Hlen. exact Hfit. }
    by exists g.
Qed.

(** X18. The zero value of a group is the hash of its identifier, and it
    is below [2^248], and so below the modulus [F] of the field, when
    Keccak-256 gives 256 bits: the shift by 8 leaves 248 of them. *)
Theorem group_zero_value_below_the_modulus
    (id : Node) (treeDepth : Z) (members : list Node) (g : Group.Group) :
  (forall bytes, 0 <= keccak256 bytes < 2 ^ 256) ->
  Group.new keccak256 id treeDepth members = Ok g ->
  exists z,
    Group.hash keccak256 id = Ok z /\
    Group.zeroValue g = Big z /\
    0 <= z < 2 ^ 248 /\ 2 ^ 248 < Poseidon.F.
Proof.
  intros Hk Hnew. pose proof Hnew as Hrun. unfold Group.new in Hrun.
  destruct ((treeDepth <? 16) || (32 <? treeDepth)) eqn:Hd; [discriminate Hrun|].
  apply orb_false_iff in Hd as [Hd1 Hd2]. apply Z.ltb_ge in Hd1, Hd2.
  destruct (Group.hash keccak256 id) as [e|z] eqn:Hz; [discriminate Hrun|].
  rewrite bind_Ok in Hrun.
  destruct (map_BigInt members) as [e|zs] eqn:Hzs; [discriminate Hrun|].
  rewrite bind_Ok in Hrun.
  destruct (IMT.new Group.poseidon2 treeDepth (Big z) (map Big zs)) as [e|t] eqn:Ht;
    [discriminate Hrun|].
  rewrite bind_Ok in Hrun.
  assert (g = {| Group._id := id; Group.merkleTree := t |}) as ->
    by (unfold Ok in Hrun; congruence).
  exists z. split; [reflexivity|].
  assert (1 <= treeDepth <= 32) as Hd by lia.
  destruct (new_empty_spec Group.poseidon2 coercible coercible_defined group_hash_dom
              treeDepth (Big z) Hd (coercible_Big z))
    as (zeroes & top & Hnew0 & Hlen & _ & _ & Hchain).
  assert (IMT._zeroes t = zeroes) as Hzeroes.
  { destruct zs as [|x zs'].
    - cbn [map] in Ht. rewrite Hnew0 in Ht. injection Ht as <-. reflexivity.
    - destruct (IMT_new_inv _ _ _ _ _ Ht) as (_ & Hfit & _).
      destruct (new_leaves_wf Group.poseidon2 coercible coercible_defined group_hash_dom
                  treeDepth (Big z) (map Big (x :: zs')) Hd (coercible_Big z)
                  (Forall_coercible_Big _) ltac:(discriminate) Hfit)
        as (t1 & Hnewt & _ & _ & _ & t0 & Hnew0' & Hzt).
      rewrite Hnewt in Ht. injection Ht as <-.
      rewrite Hnew0 in Hnew0'. injection Hnew0' as <-. exact Hzt. }
  split.
  - unfold Group.zeroValue. cbn [Group.merkleTree]. rewrite Hzeroes.
    apply (zero_chain_first Group.poseidon2 _ _ _ Hchain). intros ->. cbn [length] in Hlen. lia.
  - split; [|reflexivity]. exact (Group_hash_bound keccak256 id z Hk Hz).
Qed.

End GroupMore.

(** ** Identities *)

Section IdentityMore.

Variable sha512 : string -> string.
Variable BigNumber_from_json : JSON.value -> result Z.
Hypothesis sha512_hex :
  forall s, (String.length (sha512 s) <= 128)%nat /\
            BigNumber.string_forallb BigNumber.is_hex_digit (sha512 s) = true.

Lemma with_secret_in_field trapdoor nullifier :
  0 <= trapdoor -> 0 <= nullifier ->
  exists identity,
    Identity.with_secret trapdoor nullifier = Ok identity /\
    Identity._trapdoor identity = trapdoor /\
    Identity._nullifier identity = nullifier /\
    0 <= Identity._secret identity < Poseidon.F /\
    0 <= Identity._commitment identity < Poseidon.F.
Proof.
  intros Ht Hn.
  destruct (with_secret_returns trapdoor nullifier) as (secret & commitment & Hs & Hc & Hwith).
  assert (0 <= secret < Poseidon.F) as Hsecret.
  { apply (poseidon_in_field [Big nullifier; Big trapdoor] [nullifier; trapdoor]
             Poseidon.c2 secret); [reflexivity|reflexivity| |exact Hs].
    repeat constructor; assumption. }
  assert (0 <= commitment < Poseidon.F) as Hcommitment.
  { apply (poseidon_in_field [Big secret] [secret] Poseidon.c1 commitment);
      [reflexivity|reflexivity| |exact Hc].
    repeat constructor. lia. }
  eexists. split; [exact Hwith|]. cbn.
  exact (conj eq_refl (conj eq_refl (conj Hsecret Hcommitment))).
Qed.

Lemma bytes_value_bound bytes : forall acc,
  Forall (fun b => 0 <= b < 256) bytes -> 0 <= acc ->
  0 <= fold_left (fun acc b => acc * 256 + b) bytes acc
    < (acc + 1) * 256 ^ Z.of_nat (length bytes).
Proof.
  induction bytes as [|b rest IH]; intros acc Hall Hacc.
  - cbn [fold_left length Z.of_nat]. rewrite Z.pow_0_r. lia.
  - cbn [fold_left length]. pose proof (Forall_inv Hall) as Hb. cbn beta in Hb.
    destruct (IH (acc * 256 + b) (Forall_inv_tail Hall) ltac:(lia)) as [Hlo Hhi].
    split; [exact Hlo|].
    rewrite Nat2Z.inj_succ, Z.pow_succ_r by lia.
    pose proof (Z.pow_pos_nonneg 256 (Z.of_nat (length rest)) ltac:(lia) ltac:(lia)).
    nia.
Qed.

(** X19. An identity made without an argument has for trapdoor and for
    nullifier the numbers its two draws of 31 bytes denote, each below
    [2^248], and for secret and commitment two elements of the field. *)
Theorem random_identity_in_the_field (entropy : list Z * list Z) :
  Forall (fun b => 0 <= b < 256) (fst entropy) -> length (fst entropy) = 31%nat ->
  Forall (fun b => 0 <= b < 256) (snd entropy) -> length (snd entropy) = 31%nat ->
  exists identity,
    Identity.new sha512 BigNumber_from_json entropy None = Ok identity /\
    Identity.getTrapdoor identity = Identity.bytes_value (fst entropy) /\
    Identity.getNullifier identity = Identity.bytes_value (snd entropy) /\
    0 <= Identity.getTrapdoor identity < 2 ^ 248 /\
    0 <= Identity.getNullifier identity < 2 ^ 248 /\
    0 <= Identity.getSecret identity < Poseidon.F /\
    0 <= Identity.getCommitment identity < Poseidon.F.
Proof.
  intros Hall1 Hlen1 Hall2 Hlen2.
  pose proof (bytes_value_bound (fst entropy) 0 Hall1 ltac:(lia)) as H1.
  pose proof (bytes_value_bound (snd entropy) 0 Hall2 ltac:(lia)) as H2.
  rewrite Hlen1 in H1. rewrite Hlen2 in H2.
  change ((0 + 1) * 256 ^ Z.of_nat 31) with (2 ^ 248) in H1, H2.
  fold (Identity.bytes_value (fst entropy)) in H1.
  fold (Identity.bytes_value (snd entropy)) in H2.
  destruct (with_secret_in_field (Identity.bytes_value (fst entropy))
              (Identity.bytes_value (snd entropy)) ltac:(lia) ltac:(lia))
    as (identity & Hwith & Ht & Hn & Hs & Hc).
  exists identity. unfold Identity.getTrapdoor, Identity.getNullifier, Identity.getSecret,
    Identity.getCommitment. rewrite Ht, Hn.
  exact (conj Hwith (conj eq_refl (conj eq_refl (conj H1 (conj H2 (conj Hs Hc)))))).
Qed.

Lemma digit_value_nonneg c d : digit_value c = Some d -> 0 <= d.
Proof.
  unfold digit_value. intros Hd.
  repeat match type of Hd with
         | context [if ?b then _ else _] => destruct b eqn:?
         end; try discriminate Hd; injection Hd as <-;
    repeat match goal with
           | H : _ && _ = true |- _ => apply andb_true_iff in H as [? ?]
           | H : (_ <=? _) = true |- _ => apply Z.leb_le in H
           end; lia.
Qed.

Lemma parse_digits_bound radix s : forall acc n,
  0 < radix -> 0 <= acc ->
  parse_digits radix s acc = Some n ->
  acc * radix ^ Z.of_nat (String.length s) <= n
    < (acc + 1) * radix ^ Z.of_nat (String.length s).
Proof.
  induction s as [|c rest IH]; intros acc n Hr Hacc Hrun.
  - cbn [parse_digits] in Hrun. injection Hrun as <-.
    cbn [String.length Z.of_nat]. rewrite Z.pow_0_r. lia.
  - cbn [parse_digits] in Hrun. destruct (digit_value c) as [d|] eqn:Hd; [|discriminate Hrun].
    pose proof (digit_value_nonneg c d Hd) as Hd0.
    destruct (Z.ltb_spec d radix) as [Hlt|]; [|discriminate Hrun].
    assert (0 <= acc * radix + d) as Hacc' by nia.
    destruct (IH (acc * radix + d) n Hr Hacc' Hrun) as [Hlo Hhi].
    cbn [String.length]. rewrite Nat2Z.inj_succ, Z.pow_succ_r by lia.
    pose proof (Z.pow_pos_nonneg radix (Z.of_nat (String.length rest)) Hr ltac:(lia)).
    nia.
Qed.

(** X20. An identity made from a seed has a trapdoor and a nullifier
    below [2^253], and so below the modulus [F] of the field, and a secret
    and a commitment in the field: the shift by 3 leaves 253 of the 256
    bits of each half of the digest. *)
Theorem seeded_identity_in_the_field (seed : string) :
  Identity.isJsonArray seed = false ->
  exists identity,
    (forall entropy,
       Identity.new sha512 BigNumber_from_json entropy (Some seed) = Ok identity) /\
    0 <= Identity.getTrapdoor identity < 2 ^ 253 /\
    0 <= Identity.getNullifier identity < 2 ^ 253 /\
    2 ^ 253 < Poseidon.F /\
    0 <= Identity.getSecret identity < Poseidon.F /\
    0 <= Identity.getCommitment identity < Poseidon.F.
Proof.
  intros Hjson. set (h := Identity.padStart (sha512 seed) 128).
  destruct (padStart_digest sha512 sha512_hex seed) as [Hlen Hall]. fold h in Hlen, Hall.
  assert (String.length (Identity.slice_to h 64) = 64%nat) as Hlen_n.
  { unfold Identity.slice_to. apply length_substring. lia. }
  assert (String.length (Identity.slice_from h 64) = 64%nat) as Hlen_t.
  { unfold Identity.slice_from. rewrite Hlen. apply length_substring. lia. }
  assert (BigNumber.string_forallb BigNumber.is_hex_digit (Identity.slice_to h 64) = true)
    as Hall_n by (apply forallb_substring; exact Hall).
  assert (BigNumber.string_forallb BigNumber.is_hex_digit (Identity.slice_from h 64) = true)
    as Hall_t by (apply forallb_substring; exact Hall).
  destruct (parse_digits_hex _ Hall_n 0) as [n Hn].
  destruct (parse_digits_hex _ Hall_t 0) as [t Ht].
  pose proof (parse_digits_bound 16 _ 0 n ltac:(lia) ltac:(lia) Hn) as Hbn.
  pose proof (parse_digits_bound 16 _ 0 t ltac:(lia) ltac:(lia) Ht) as Hbt.
  rewrite Hlen_n in Hbn. rewrite Hlen_t in Hbt.
  change ((0 + 1) * 16 ^ Z.of_nat 64) with (2 ^ 256) in Hbn, Hbt.
  change (0 * 16 ^ Z.of_nat 64) with 0 in Hbn, Hbt.
  assert (forall v, 0 <= v < 2 ^ 256 -> 0 <= Z.shiftr v 3 < 2 ^ 253) as Hshift.
  { intros v Hv. rewrite Z.shiftr_div_pow2 by lia. change (2 ^ 3) with 8.
    change (2 ^ 256) with (8 * 2 ^ 253) in Hv. lia. }
  pose proof (Hshift n Hbn) as Hsn. pose proof (Hshift t Hbt) as Hst.
  destruct (with_secret_in_field (Z.shiftr t 3) (Z.shiftr n 3) ltac:(lia) ltac:(lia))
    as (identity & Hwith & Htr & Hnu & Hs & Hc).
  exists identity. unfold Identity.getTrapdoor, Identity.getNullifier, Identity.getSecret,
    Identity.getCommitment. rewrite Htr, Hnu.
  refine (conj _ (conj Hst (conj Hsn (conj eq_refl (conj Hs Hc))))).
  intros entropy. unfold Identity.new. rewrite Hjson. cbn [negb].
  fold h. unfold Identity.BigInt_string. cbn [append].
  assert (forall d, String.length d = 64%nat -> d <> EmptyString) as Hne.
  { intros d Hd ->. discriminate Hd. }
  rewrite (BigInt_0x (Identity.slice_from h 64) t (Hne _ Hlen_t) Hall_t Ht), bind_Ok.
  rewrite (BigInt_0x (Identity.slice_to h 64) n (Hne _ Hlen_n) Hall_n Hn), bind_Ok.
  exact Hwith.
Qed.

End IdentityMore.

Lemma parse_value_not_array fuel s v r :
  (forall rest, JSON.skip_ws s <> String "[" rest) ->
  JSON.parse_value fuel s = Some (v, r) ->
  forall elements, v <> JSON.JArray elements.
Proof.
  intros Hs Hrun elements ->. destruct fuel as [|fuel]; [discriminate Hrun|].
  cbn [JSON.parse_value] in Hrun.
  destruct (JSON.skip_ws s) as [|c rest] eqn:Hskip; [discriminate Hrun|].
  destruct (nat_of_ascii c =? 34)%nat.
  { destruct (JSON.parse_string_body rest) as [[str r']|]; discriminate Hrun. }
  destruct (nat_of_ascii c =? 91)%nat eqn:H91.
  { apply Nat.eqb_eq in H91. apply (Hs rest). f_equal.
    rewrite <- (ascii_nat_embedding c), H91. reflexivity. }
  destruct (nat_of_ascii c =? 123)%nat.
  { destruct (JSON.skip_ws rest) as [|c' rest']; [|destruct (Ascii.eqb c' "}")%char eqn:?].
    all: repeat match type of Hrun with
         | context [match ?x with _ => _ end] => destruct x
         end; discriminate Hrun. }
  repeat match type of Hrun with
         | context [if ?b then _ else _] => destruct b
         | context [match ?x with _ => _ end] => destruct x
         end; discriminate Hrun.
Qed.

(** X21. Only a text that starts with a square bracket, after white
    space, is read as a serialized identity: every other string is not a
    JSON array for [isJsonArray], and the constructor takes it for a
    seed. *)
Theorem only_a_bracket_starts_an_array (s : string) :
  (forall rest, JSON.skip_ws s <> String "[" rest) ->
  Identity.isJsonArray s = false.
Proof.
  intros Hs. unfold Identity.isJsonArray, JSON.parse.
  destruct (JSON.parse_value _ s) as [[v r]|] eqn:Hrun; [|reflexivity].
  pose proof (parse_value_not_array _ s v r Hs Hrun) as Hv.
  destruct (JSON.skip_ws r); [|reflexivity].
  destruct v; try reflexivity. exfalso. exact (Hv _ eq_refl).
Qed.

(** ** The proof assembler *)

Section ProverMore.

Variable keccak256 : list Z -> Z.
Variable str2BigInt : string -> Z.
Variable RLNFullProof : Type.
Variable nullifier_toString : RLNFullProof -> string.


(** X23. On a call that is in order but for the registration (an
    identifier, a limit and a message identifier that [BigInt] accepts,
    members that fit in the tree), the exception of [genProof] is the one of
    [createProof] at index -1: the leaf does not exist in this tree. *)
Theorem genProof_unregistered_error
    (room : Prover.RoomI) (message : string) (identity : Identity.Identity)
    (messageId messageLimit : Node) (now : Z)
    (rid mid limit rateCommitment : Z) (members : list Z) :
  BigInt (Prover.id room) = Ok rid -> - 2 ^ 256 < rid < 2 ^ 256 ->
  BigInt messageId = Ok mid ->
  BigInt messageLimit = Ok limit ->
  Prover.getRateCommitmentHash (Identity.getCommitment identity) limit = Ok rateCommitment ->
  map_BigInt (members_of room) = Ok members ->
  Z.of_nat (length members) <= 2 ^ 20 ->
  ~ In rateCommitment members ->
  Prover.genProof_inputs keccak256 str2BigInt room message identity
    messageId messageLimit now
  = throw (Error "The leaf does not exist in this tree") /\
  forall generateProof,
    Prover.genProof keccak256 str2BigInt RLNFullProof nullifier_toString generateProof
      room message identity messageId messageLimit now
    = throw (Error "The leaf does not exist in this tree").
Proof.
  intros Hrid Hrange Hmid Hlimit Hrc Hzs Hfit Hnot.
  destruct (poseidon1_returns (Big (str2BigInt message)) _ eq_refl) as [messageHash Hhash].
  destruct (Group_hash_Big keccak256 rid Hrange) as [z Hz].
  destruct (Group_new_spec keccak256 (Big rid) 20 (members_of room) ltac:(lia) z members
              Hz Hzs Hfit) as (g & Hnew & Hok & Hdepth & Hl).
  assert (Group.indexOf g (Big rateCommitment) = Ok (-1)) as Hidx.
  { rewrite (Group_indexOf_leaves g _ (Big rateCommitment) Hl); [|discriminate].
    rewrite (indexOf_Big_absent members rateCommitment Hnot). reflexivity. }
  assert (Group.generateMerkleProof g (-1)
          = throw (Error "The leaf does not exist in this tree")) as Hproof.
  { unfold Group.generateMerkleProof.
    rewrite (tree_createProof_out_of_range Group.poseidon2 coercible
               (Group.merkleTree g) (map Big members) (-1) Hok Hl ltac:(left; lia)).
    reflexivity. }
  assert (Prover.genProof_inputs keccak256 str2BigInt room message identity
            messageId messageLimit now
          = throw (Error "The leaf does not exist in this tree")) as Hrun.
  { unfold Prover.genProof_inputs. cbv zeta.
    rewrite (or_default_BigInt (Num 0) messageId mid Hmid).
    rewrite (or_default_BigInt (Num 1) messageLimit limit Hlimit).
    rewrite Hrid, bind_Ok, Hlimit, bind_Ok.
    unfold Prover.getMessageHash. rewrite Hhash, bind_Ok.
    fold (members_of room). rewrite Hnew, bind_Ok, Hrc, bind_Ok, Hmid, bind_Ok.
    rewrite Hidx, bind_Ok, Hproof. reflexivity. }
  split; [exact Hrun|].
  intros generateProof. unfold Prover.genProof. rewrite Hrun. reflexivity.
Qed.

End ProverMore.

(** ** The further properties at inputs *)

Lemma every_leaf_has_a_proof_witness :
  exists t p,
    IMT.new Group.poseidon2 2 (Big 0) [Big 1; Big 2; Big 3] = Ok t /\
    IMT.tree_createProof t 1 = Ok p /\
    IMT.leaf p = Big 2 /\
    IMT.tree_verifyProof Group.poseidon2 t p = Ok true.
Proof.
  destruct sample_tree as (t & Hnew & Hwf & Hl).
  destruct (every_leaf_has_a_proof Group.poseidon2 coercible coercible_defined
              t [Big 1; Big 2; Big 3] 1 Hwf Hl)
    as (p & Hp & _ & Hleaf & _ & _ & _ & Hv).
  - simpl. lia.
  - exists t, p. exact (conj Hnew (conj Hp (conj Hleaf Hv))).
Defined.

Lemma pathIndices_spell_the_index_witness :
  exists t p,
    IMT.new Group.poseidon2 2 (Big 0) [Big 1; Big 2; Big 3] = Ok t /\
    IMT.tree_createProof t 2 = Ok p /\
    Forall (fun position => position = 0 \/ position = 1) (IMT.pathIndices p) /\
    index_of_path (IMT.pathIndices p) = 2.
Proof.
  destruct sample_tree as (t & Hnew & Hwf & Hl).
  assert (0 <= 2 < Z.of_nat (length [Big 1; Big 2; Big 3])) as Hi by (simpl; lia).
  destruct (createProof_verifies Group.poseidon2 coercible coercible_defined
              t [Big 1; Big 2; Big 3] 2 Hwf Hl Hi) as (p & Hp & _).
  destruct (pathIndices_spell_the_index Group.poseidon2 coercible
              t [Big 1; Big 2; Big 3] 2 p Hwf Hl Hi Hp) as [Hbits Hindex].
  exists t, p. exact (conj Hnew (conj Hp (conj Hbits Hindex))).
Defined.

Lemma no_leaf_at_index_witness :
  exists t,
    IMT.new Group.poseidon2 2 (Big 0) [Big 1; Big 2; Big 3] = Ok t /\
    IMT.tree_createProof t 3 = throw (Error "The leaf does not exist in this tree") /\
    IMT.tree_update Group.poseidon2 t 3 (Big 9)
    = throw (Error "The leaf does not exist in this tree") /\
    IMT.tree_delete Group.poseidon2 t 3 = throw (Error "The leaf does not exist in this tree").
Proof.
  destruct sample_tree as (t & Hnew & Hwf & Hl).
  exists t. split; [exact Hnew|].
  apply (no_leaf_at_index Group.poseidon2 coercible t [Big 1; Big 2; Big 3] 3 (Big 9) Hwf Hl).
  right. simpl. lia.
Defined.

Lemma insert_until_full_witness :
  exists t t',
    IMT.new Group.poseidon2 2 (Big 0) [Big 1; Big 2; Big 3] = Ok t /\
    IMT.tree_insert Group.poseidon2 t (Big 4) = Ok t' /\
    IMT.tree_leaves t' = Ok [Big 1; Big 2; Big 3; Big 4] /\
    IMT.tree_insert Group.poseidon2 t' (Big 5) = throw (Error "The tree is full").
Proof.
  destruct sample_tree as (t & Hnew & Hwf & Hl).
  destruct (insert_until_full Group.poseidon2 coercible coercible_defined group_hash_dom
              t [Big 1; Big 2; Big 3] (Big 4) Hwf Hl (coercible_Big 4)) as [Hroom _].
  destruct Hroom as (t' & Hins & Hwf' & Hd' & Hleaves').
  - pose proof (wf_depth _ _ _ Hwf) as Hd.
    assert (IMT._depth t = 2%nat) as ->; [|simpl; lia].
    destruct (new_leaves_wf Group.poseidon2 coercible coercible_defined group_hash_dom
                2 (Big 0) [Big 1; Big 2; Big 3] ltac:(lia) (coercible_Big 0)
                (Forall_coercible_Big [1; 2; 3]) ltac:(discriminate) ltac:(simpl; lia))
      as (t0 & Hnew0 & _ & Hd0 & _).
    rewrite Hnew in Hnew0. injection Hnew0 as <-. exact Hd0.
  - assert (IMT._nodes t' !! 0%nat = Some [Big 1; Big 2; Big 3; Big 4]) as Hl'.
    { unfold IMT.tree_leaves, IMT.level_of in Hleaves'.
      destruct (IMT._nodes t' !! 0%nat) as [row|]; [|discriminate Hleaves'].
      injection Hleaves' as ->. reflexivity. }
    destruct (insert_until_full Group.poseidon2 coercible coercible_defined group_hash_dom
                t' [Big 1; Big 2; Big 3; Big 4] (Big 5) Hwf' Hl' (coercible_Big 5))
      as [_ Hfull].
    exists t, t'. split; [exact Hnew|]. split; [exact Hins|]. split; [exact Hleaves'|].
    apply Hfull. rewrite Hd'.
    destruct (new_leaves_wf Group.poseidon2 coercible coercible_defined group_hash_dom
                2 (Big 0) [Big 1; Big 2; Big 3] ltac:(lia) (coercible_Big 0)
                (Forall_coercible_Big [1; 2; 3]) ltac:(discriminate) ltac:(simpl; lia))
      as (t0 & Hnew0 & _ & Hd0 & _).
    rewrite Hnew in Hnew0. injection Hnew0 as <-. rewrite Hd0. reflexivity.
Defined.

Lemma indexOf_first_occurrence_witness :
  exists i,
    IMT.tree_indexOf
      {| IMT._depth := 1; IMT._zeroes := [Big 0];
         IMT._nodes := [[Big 7; Num 7]; [Big 1]] |} (Num 7) = Ok i /\
    ((i = -1 /\ ~ In (Num 7) [Big 7; Num 7]) \/
     (exists k : nat, i = Z.of_nat k /\ [Big 7; Num 7] !! k = Some (Num 7) /\
                      ~ In (Num 7) (take k [Big 7; Num 7]))).
Proof.
  apply (indexOf_first_occurrence
           {| IMT._depth := 1; IMT._zeroes := [Big 0];
              IMT._nodes := [[Big 7; Num 7]; [Big 1]] |} [Big 7; Num 7] (Num 7)).
  - reflexivity.
  - discriminate.
Defined.

Lemma insert_then_indexOf_witness :
  exists t t',
    IMT.new Group.poseidon2 3 (Big 0) [Big 1; Big 2; Big 3] = Ok t /\
    IMT.tree_insert Group.poseidon2 t (Big 9) = Ok t' /\
    IMT.tree_indexOf t' (Big 9) = Ok 3 /\
    IMT.tree_indexOf t' (Big 2) = IMT.tree_indexOf t (Big 2).
Proof.
  destruct (new_leaves_wf Group.poseidon2 coercible coercible_defined group_hash_dom
              3 (Big 0) [Big 1; Big 2; Big 3] ltac:(lia) (coercible_Big 0)
              (Forall_coercible_Big [1; 2; 3]) ltac:(discriminate) ltac:(simpl; lia))
    as (t & Hnew & Hwf & Hd & Hl & _).
  destruct (insert_then_indexOf Group.poseidon2 coercible coercible_defined group_hash_dom
              t [Big 1; Big 2; Big 3] (Big 9) Hwf Hl (coercible_Big 9))
    as (t' & Hins & Hnew' & Hold).
  - rewrite Hd. simpl. lia.
  - exists t, t'. split; [exact Hnew|]. split; [exact Hins|]. split.
    + apply Hnew'. intros [H|[H|[H|[]]]]; discriminate H.
    + apply Hold; [discriminate|]. right. left. reflexivity.
Defined.

Lemma update_overwrites_and_restores_witness :
  exists t t1 t2,
    IMT.new Group.poseidon2 2 (Big 0) [Big 1; Big 2; Big 3] = Ok t /\
    IMT.tree_update Group.poseidon2 t 1 (Big 8) = Ok t1 /\
    IMT.tree_update Group.poseidon2 t 1 (Big 9) = Ok t2 /\
    IMT.tree_update Group.poseidon2 t1 1 (Big 9) = Ok t2 /\
    IMT.tree_update Group.poseidon2 t1 1 (Big 2) = Ok t.
Proof.
  destruct sample_tree as (t & Hnew & Hwf & Hl).
  destruct (update_overwrites_and_restores Group.poseidon2 coercible group_hash_dom
              t [Big 1; Big 2; Big 3] 1 (Big 8) (Big 9) Hwf Hl)
    as (t1 & t2 & H1 & H2 & H3 & H4).
  - simpl. lia.
  - apply coercible_Big.
  - apply coercible_Big.
  - exists t, t1, t2. exact (conj Hnew (conj H1 (conj H2 (conj H3 H4)))).
Defined.

Lemma updates_commute_witness :
  exists t t1 t2 t',
    IMT.new Group.poseidon2 2 (Big 0) [Big 1; Big 2; Big 3] = Ok t /\
    IMT.tree_update Group.poseidon2 t 0 (Big 8) = Ok t1 /\
    IMT.tree_update Group.poseidon2 t1 2 (Big 9) = Ok t' /\
    IMT.tree_update Group.poseidon2 t 2 (Big 9) = Ok t2 /\
    IMT.tree_update Group.poseidon2 t2 0 (Big 8) = Ok t'.
Proof.
  destruct sample_tree as (t & Hnew & Hwf & Hl).
  destruct (updates_commute Group.poseidon2 coercible group_hash_dom
              t [Big 1; Big 2; Big 3] 0 2 (Big 8) (Big 9) Hwf Hl)
    as (t1 & t2 & t' & H1 & H2 & H3 & H4).
  - simpl. lia.
  - simpl. lia.
  - lia.
  - apply coercible_Big.
  - apply coercible_Big.
  - exists t, t1, t2, t'. exact (conj Hnew (conj H1 (conj H2 (conj H3 H4)))).
Defined.

Lemma constructor_returns_or_throws_witness :
  IMT.new Group.poseidon2 0 (Big 0) [Big 1; Big 2; Big 3]
  = throw (Error "The tree depth must be between 1 and 32") /\
  IMT.new Group.poseidon2 1 (Big 0) [Big 1; Big 2; Big 3]
  = throw (Error "The tree cannot contain more than 2 leaves") /\
  exists t, IMT.new Group.poseidon2 2 (Big 0) [Big 1; Big 2; Big 3] = Ok t /\
            IMT.tree_leaves t = Ok [Big 1; Big 2; Big 3].
Proof.
  split; [|split].
  - apply (constructor_returns_or_throws Group.poseidon2 coercible coercible_defined
             group_hash_dom 0 (Big 0) [Big 1; Big 2; Big 3] (coercible_Big 0)
             (Forall_coercible_Big [1; 2; 3])).
    left. lia.
  - apply (constructor_returns_or_throws Group.poseidon2 coercible coercible_defined
             group_hash_dom 1 (Big 0) [Big 1; Big 2; Big 3] (coercible_Big 0)
             (Forall_coercible_Big [1; 2; 3])).
    + lia.
    + simpl. lia.
  - destruct (constructor_returns_or_throws Group.poseidon2 coercible coercible_defined
                group_hash_dom 2 (Big 0) [Big 1; Big 2; Big 3] (coercible_Big 0)
                (Forall_coercible_Big [1; 2; 3])) as (_ & _ & Hreturns).
    destruct Hreturns as (t & Hnew & _ & _ & Hleaves).
    + lia.
    + simpl. lia.
    + exists t. exact (conj Hnew Hleaves).
Defined.

Lemma insert_then_delete_restores_the_root_witness :
  exists t t1 t2 r,
    IMT.new Group.poseidon2 2 (Big 0) [Big 1; Big 2; Big 3] = Ok t /\
    IMT.tree_insert Group.poseidon2 t (Big 4) = Ok t1 /\
    IMT.tree_delete Group.poseidon2 t1 (Z.of_nat (length [Big 1; Big 2; Big 3])) = Ok t2 /\
    IMT.tree_leaves t2 = Ok ([Big 1; Big 2; Big 3] ++ [Big 0]) /\
    IMT.tree_root t = Ok r /\
    IMT.tree_root t2 = Ok r.
Proof.
  apply (insert_then_delete_restores_the_root Group.poseidon2 coercible coercible_defined
           group_hash_dom 2 (Big 0) [Big 1; Big 2; Big 3] (Big 4)).
  - lia.
  - apply coercible_Big.
  - exact (Forall_coercible_Big [1; 2; 3]).
  - apply coercible_Big.
  - simpl. lia.
Defined.

Lemma poseidon2_Big children r : Group.poseidon2 children = Ok r -> exists h, r = Big h.
Proof.
  unfold Group.poseidon2. destruct (Poseidon.poseidon2 children) as [e|h]; [discriminate|].
  rewrite bind_Ok. intros Hr. exists h. unfold Ok in Hr. congruence.
Qed.

Lemma verifyProof_rejects_another_root_witness :
  exists t p,
    IMT.new Group.poseidon2 2 (Big 0) [Big 1; Big 2; Big 3] = Ok t /\
    IMT.tree_createProof t 1 = Ok p /\
    IMT.verifyProof Group.poseidon2
      {| IMT.root := Num 0; IMT.leaf := IMT.leaf p;
         IMT.pathIndices := IMT.pathIndices p; IMT.siblings := IMT.siblings p |}
    = Ok false.
Proof.
  destruct sample_tree as (t & Hnew & Hwf & Hl).
  assert (0 <= 1 < Z.of_nat (length [Big 1; Big 2; Big 3])) as Hi by (simpl; lia).
  destruct (createProof_verifies Group.poseidon2 coercible coercible_defined
              t [Big 1; Big 2; Big 3] 1 Hwf Hl Hi) as (p & Hp & Hroot & _).
  exists t, p. split; [exact Hnew|]. split; [exact Hp|].
  apply (verifyProof_rejects_another_root Group.poseidon2 coercible coercible_defined
           t [Big 1; Big 2; Big 3] 1 p (Num 0) Hwf Hl Hi Hp).
  - discriminate.
  - destruct (wf_top _ _ _ Hwf) as (rowtop & r & _ & Htop & Hhash).
    destruct (poseidon2_Big _ _ Hhash) as [h ->].
    unfold IMT.tree_root in Hroot. rewrite (level_of_lookup _ _ _ Htop), bind_Ok in Hroot.
    assert (IMT.root p = Big h) as -> by (unfold Ok in Hroot; cbn in Hroot; congruence).
    discriminate.
Defined.

Lemma poseidon_returns_a_field_element_witness :
  (exists h, Poseidon.poseidon1 [Big 1] = Ok h /\ 0 <= h < Poseidon.F) /\
  (exists h, Poseidon.poseidon2 [Big 1; Str "0x10"] = Ok h /\ 0 <= h < Poseidon.F).
Proof.
  apply (poseidon_returns_a_field_element (Big 1) (Str "0x10") 1 16).
  - reflexivity.
  - reflexivity.
  - lia.
  - lia.
Defined.

Lemma poseidon_takes_its_number_of_inputs_witness :
  (exists h,
     Poseidon.poseidon1 [Str (String (ascii_of_nat 194) (String (ascii_of_nat 160) "5"))]
     = Ok h) /\
  Poseidon.poseidon2 [Big 1; Big 2; Big 3]
  = throw (Error "poseidon-lite: Incorrect M length, expected 4 got 3").
Proof.
  destruct (poseidon_takes_its_number_of_inputs
              [Str (String (ascii_of_nat 194) (String (ascii_of_nat 160) "5"))])
    as ([_ Hone] & _).
  destruct (poseidon_takes_its_number_of_inputs [Big 1; Big 2; Big 3])
    as (_ & _ & Hthree).
  split.
  - apply Hone. eexists. split; [reflexivity|]. exists 5. reflexivity.
  - destruct Hthree as (_ & _ & _ & Hthrows).
    + repeat constructor; apply coercible_Big.
    + apply Hthrows. right. simpl. lia.
Defined.

Lemma constructor_is_addMembers_witness :
  exists g g0,
    Group.new Sample.keccak256 (Big 123) 20 [Big 123; Num 456] = Ok g /\
    Group.new Sample.keccak256 (Big 123) 20 [] = Ok g0 /\
    Group.addMembers g0 [Big 123; Num 456] = Ok g.
Proof.
  eapply (constructor_is_addMembers Sample.keccak256 (Big 123) 20 [Big 123; Num 456]).
  - lia.
  - vm_compute. reflexivity.
  - reflexivity.
  - simpl. lia.
Defined.

Lemma sample_group :
  exists g,
    Group.new Sample.keccak256 (Big 123) 20 [Big 123; Big 456] = Ok g /\
    group_ok g /\
    IMT._nodes (Group.merkleTree g) !! 0%nat = Some [Big 123; Big 456].
Proof.
  destruct (Group_hash_Big Sample.keccak256 123 ltac:(lia)) as [z Hz].
  destruct (Group_new_spec Sample.keccak256 (Big 123) 20 [Big 123; Big 456] ltac:(lia)
              z [123; 456] Hz eq_refl ltac:(simpl; lia)) as (g & Hnew & Hok & _ & Hl).
  exists g. exact (conj Hnew (conj Hok Hl)).
Qed.

Lemma group_proof_verifies_witness :
  exists g proof,
    Group.new Sample.keccak256 (Big 123) 20 [Big 123; Big 456] = Ok g /\
    Group.generateMerkleProof g 1 = Ok proof /\
    Group.root g = Ok (Group.root_ proof) /\
    Group.leaf proof = Big 456 /\
    IMT.verifyProof Group.poseidon2
      {| IMT.root := Group.root_ proof;
         IMT.leaf := Group.leaf proof;
         IMT.pathIndices := Group.pathIndices proof;
         IMT.siblings := map (fun sibling => [sibling]) (Group.siblings proof) |}
    = Ok true.
Proof.
  destruct sample_group as (g & Hnew & Hok & Hl).
  destruct (group_proof_verifies g [Big 123; Big 456] 1 Hok Hl)
    as (proof & Hrun & Hroot & Hleaf & Hv).
  - simpl. lia.
  - exists g, proof. exact (conj Hnew (conj Hrun (conj Hroot (conj Hleaf Hv)))).
Defined.

Lemma removeMember_keeps_the_others_witness :
  exists g g',
    Group.new Sample.keccak256 (Big 123) 20 [Big 123; Big 456] = Ok g /\
    Group.removeMember g 0 = Ok g' /\
    Group.members g' = Ok [Group.zeroValue g; Big 456] /\
    (Big 456 <> Group.zeroValue g ->
     Group.indexOf g' (Big 456) = Group.indexOf g (Big 456)).
Proof.
  destruct sample_group as (g & Hnew & Hok & Hl).
  destruct (removeMember_keeps_the_others g [Big 123; Big 456] 0 Hok Hl)
    as (g' & Hrun & _ & Hmembers & Hothers).
  - simpl. lia.
  - exists g, g'. split; [exact Hnew|]. split; [exact Hrun|]. split; [exact Hmembers|].
    intros Hzero. apply Hothers; [discriminate|discriminate|exact Hzero].
Defined.

Lemma Group_constructor_returns_exactly_when_witness :
  exists g,
    Group.new Sample.keccak256 (Big (- 2 ^ 256 - 5)) 20 [Big 1; Str "0x10"] = Ok g.
Proof.
  apply (proj2 (Group_constructor_returns_exactly_when Sample.keccak256
                  (Big (- 2 ^ 256 - 5)) 20 [Big 1; Str "0x10"])).
  split; [lia|]. split; [|split].
  - exists (- 2 ^ 256 - 5). split; [reflexivity|]. split; [lia|].
    intros _ Hzero. vm_compute in Hzero. discriminate Hzero.
  - repeat constructor; eexists; reflexivity.
  - simpl. lia.
Defined.

Lemma group_zero_value_below_the_modulus_witness :
  exists g z,
    Group.new (fun _ => 2 ^ 255) (Big 123) 20 [Big 123; Big 456] = Ok g /\
    Group.zeroValue g = Big z /\ 0 <= z < 2 ^ 248.
Proof.
  destruct (Group_hash_Big (fun _ => 2 ^ 255) 123 ltac:(lia)) as [z0 Hz].
  destruct (Group_new_spec (fun _ => 2 ^ 255) (Big 123) 20 [Big 123; Big 456] ltac:(lia)
              z0 [123; 456] Hz eq_refl ltac:(simpl; lia)) as (g & Hnew & _).
  destruct (group_zero_value_below_the_modulus (fun _ => 2 ^ 255) (Big 123) 20
              [Big 123; Big 456] g) as (z & _ & Hzero & Hbound & _).
  - intros bytes. lia.
  - exact Hnew.
  - exists g, z. exact (conj Hnew (conj Hzero Hbound)).
Defined.

Lemma random_identity_in_the_field_witness :
  exists identity,
    Identity.new Sample.sha512 Sample.BigNumber_from_json (repeat 1 31, repeat 255 31) None
    = Ok identity /\
    0 <= Identity.getTrapdoor identity < 2 ^ 248 /\
    0 <= Identity.getNullifier identity < 2 ^ 248 /\
    0 <= Identity.getSecret identity < Poseidon.F /\
    0 <= Identity.getCommitment identity < Poseidon.F.
Proof.
  destruct (random_identity_in_the_field Sample.sha512 Sample.BigNumber_from_json
              (repeat 1 31, repeat 255 31))
    as (identity & Hnew & _ & _ & Ht & Hn & Hs & Hc).
  - cbn [fst repeat]. repeat constructor; lia.
  - reflexivity.
  - cbn [snd repeat]. repeat constructor; lia.
  - reflexivity.
  - exists identity. exact (conj Hnew (conj Ht (conj Hn (conj Hs Hc)))).
Defined.

Lemma seeded_identity_in_the_field_witness :
  exists identity,
    Identity.new Sample.sha512 Sample.BigNumber_from_json ([], []) (Some "hello world")
    = Ok identity /\
    0 <= Identity.getTrapdoor identity < 2 ^ 253 /\
    0 <= Identity.getNullifier identity < 2 ^ 253 /\
    0 <= Identity.getSecret identity < Poseidon.F /\
    0 <= Identity.getCommitment identity < Poseidon.F.
Proof.
  destruct (seeded_identity_in_the_field Sample.sha512 Sample.BigNumber_from_json
              Sample_sha512_hex "hello world")
    as (identity & Hnew & Ht & Hn & _ & Hs & Hc).
  - reflexivity.
  - exists identity. exact (conj (Hnew ([], [])) (conj Ht (conj Hn (conj Hs Hc)))).
Defined.

Lemma only_a_bracket_starts_an_array_witness :
  Identity.isJsonArray "  {hello} world" = false.
Proof.
  apply only_a_bracket_starts_an_array. intros rest Hskip. discriminate Hskip.
Defined.


Lemma genProof_unregistered_error_witness :
  Prover.genProof_inputs Sample.keccak256 Sample.str2BigInt Sample.room "hello world"
    Sample.identity (Num 0) (Num 1) 1700000000000
  = throw (Error "The leaf does not exist in this tree").
Proof.
  apply (genProof_unregistered_error Sample.keccak256 Sample.str2BigInt Sample.RLNFullProof
           Sample.nullifier_toString Sample.room "hello world" Sample.identity
           (Num 0) (Num 1) 1700000000000 123 0 1 sample_rate_commitment [123; 456]).
  - reflexivity.
  - lia.
  - reflexivity.
  - reflexivity.
  - exact sample_rate_commitment_spec.
  - reflexivity.
  - simpl. lia.
  - intros [H|[H|[]]]; discriminate H.
Defined.
